(** * Plan Monitor: the markdown plan parser and the plan cache

    A shallow embedding of [src/planParser.ts], [src/planCache.ts] and
    [src/types.ts], and the properties of the parsing pipeline
    (extraction, hierarchy building, branch filtering, status aggregation,
    counting) and of the mtime-based cache; then of their caller, the
    provider of the side bar view ([_loadPlan], [_initialize],
    [refreshView]), and of the checkbox classes that the webview derives
    from a plan.

    Conventions of the embedding:
    - a JavaScript string is the list of its UTF-16 code units;
    - integers that the code computes with ([level], [listDepth]) are [Z],
      line numbers and counters are [nat];
    - [undefined] and [null] are [None];
    - an exception is the [Thrown] case of [outcome]; in the parser it can
      only come from a property access on [undefined], which is modelled
      at each read that the source does not guard by a test (the depth of
      the JavaScript call stack is not modelled);
    - the markdown-it tokenizer and the file system are parameters. *)

From Stdlib Require Import ZArith NArith Ascii String DecimalString Lia.
From stdpp Require Import gmap list strings sorting.

Set Warnings "-register-all,-clear-no-such-hyp".

Local Open Scope Z_scope.

(** ** JavaScript strings *)

Module Js.

Definition str := list N.

(** A literal of the source, given as an ASCII string. *)
Definition u (s : string) : str :=
  (λ a, N_of_ascii a) <$> list_ascii_of_string s.

(** [WhiteSpace] and [LineTerminator] of ECMAScript: what [\s] matches
    and what [trim] and [parseInt] strip. *)
Definition isWhiteSpace (c : N) : bool :=
  ((9 <=? c) && (c <=? 13) || (c =? 32) || (c =? 160) || (c =? 5760)
   || (8192 <=? c) && (c <=? 8202) || (c =? 8232) || (c =? 8233)
   || (c =? 8239) || (c =? 8287) || (c =? 12288) || (c =? 65279))%N.

Fixpoint trimStart (s : str) : str :=
  match s with
  | c :: r => if isWhiteSpace c then trimStart r else s
  | [] => []
  end.

Definition trimEnd (s : str) : str := reverse (trimStart (reverse s)).

Definition trim (s : str) : str := trimEnd (trimStart s).

(** [s.startsWith(p)], also the test of a regular expression [/^p/] for
    a literal [p]. *)
Fixpoint startsWith (p s : str) : bool :=
  match p, s with
  | [], _ => true
  | a :: p', b :: s' => (a =? b)%N && startsWith p' s'
  | _ :: _, [] => false
  end.

(** [s.includes(p)] *)
Fixpoint includes (p s : str) : bool :=
  startsWith p s || match s with [] => false | _ :: r => includes p r end.

(** [s.substring(n)] for [0 <= n] *)
Definition substring (n : nat) (s : str) : str := drop n s.

(** [l.join('')] *)
Definition join (l : list str) : str := concat l.

(** [s.split('\n')[0]]: the text before the first line feed. *)
Fixpoint firstLine (s : str) : str :=
  match s with
  | [] => []
  | c :: r => if (c =? 10)%N then [] else c :: firstLine r
  end.

(** [s.split(/[/\\]/).pop()]: the text after the last slash or backslash. *)
Fixpoint lastSegment (s : str) : str :=
  match s with
  | [] => []
  | c :: r =>
      if existsb (λ d, (d =? 47)%N || (d =? 92)%N) r then lastSegment r
      else if (c =? 47)%N || (c =? 92)%N then r else s
  end.

Fixpoint dropHashes (s : str) : str :=
  match s with
  | c :: r => if (c =? 35)%N then dropHashes r else s
  | [] => []
  end.

(** [s.replace(/^#+\s*/, '')] *)
Definition stripHeadingMarker (s : str) : str :=
  if startsWith (u "#") s then trimStart (dropHashes s) else s.

(** [s.replace(/^m\s*/, '')] for a literal marker [m]. *)
Definition stripMarker (m s : str) : str :=
  if startsWith m s then trimStart (drop (length m) s) else s.

(** A string is truthy when it is not empty. *)
Definition truthy (s : str) : bool :=
  match s with [] => false | _ => true end.

(** The decimal text of a non-negative integer, as a template literal
    prints it. *)
Definition ofNat (n : nat) : str := u (NilEmpty.string_of_uint (Nat.to_uint n)).

Definition digit (radix : N) (c : N) : option N :=
  let v := (if (48 <=? c) && (c <=? 57) then Some (c - 48)
            else if (97 <=? c) && (c <=? 122) then Some (c - 87)
            else if (65 <=? c) && (c <=? 90) then Some (c - 55)
            else None)%N in
  match v with
  | Some d => if (d <? radix)%N then Some d else None
  | None => None
  end.

(** The longest prefix of digits, read in [radix]; [None] when there is
    no digit. *)
Fixpoint digits (radix : N) (acc : option N) (s : str) : option N :=
  match s with
  | [] => acc
  | c :: r =>
      match digit radix c with
      | Some d => digits radix (Some (default 0%N acc * radix + d)%N) r
      | None => acc
      end
  end.

(** [parseInt(s)] without a radix; [None] is [NaN]. The result is the
    exact integer, where JavaScript rounds beyond 2^53 (the tags of the
    tokenizer's headings are [h1] to [h6]). *)
Definition parseInt (s : str) : option Z :=
  let s := trimStart s in
  let '(sign, s) :=
    match s with
    | c :: r => if (c =? 45)%N then (-1, r) else if (c =? 43)%N then (1, r) else (1, s)
    | [] => (1, s)
    end in
  let '(radix, s) :=
    if startsWith (u "0x") s || startsWith (u "0X") s then (16%N, drop 2 s)
    else (10%N, s) in
  (λ n, sign * Z.of_N n) <$> digits radix None s.

End Js.

Abbreviation u := Js.u.

(** ** Exceptions *)

Inductive exn :=
| TypeError
| SystemError (message : Js.str).

Inductive outcome (A : Type) :=
| Returned (a : A)
| Thrown (e : exn).
Arguments Returned {A} a.
Arguments Thrown {A} e.

Definition bind {A B} (m : outcome A) (k : A → outcome B) : outcome B :=
  match m with
  | Returned a => k a
  | Thrown e => Thrown e
  end.

Notation "'let*' x ':=' m 'in' k" := (bind m (λ x, k))
  (at level 10, x name, m at level 100, k at level 200, only parsing).

(** Reading a property of [o]: a [TypeError] when [o] is [undefined]. *)
Definition deref {A} (o : option A) : outcome A :=
  match o with
  | Some a => Returned a
  | None => Thrown TypeError
  end.

(** A loop body run over a list, stopping at the first exception. *)
Fixpoint forEach {S A} (body : S → A → outcome S) (l : list A) (s : S) : outcome S :=
  match l with
  | [] => Returned s
  | a :: r => let* s' := body s a in forEach body r s'
  end.

(** ** [src/types.ts] *)

Inductive TaskState := Pending | Done | InProgress | Blocked.

Inductive ItemType := Heading | Task.

Module AggregatedStatus.
Inductive t := Done | Partial | Pending.
End AggregatedStatus.

Global Instance TaskState_eq_dec : EqDecision TaskState.
Proof. solve_decision. Defined.
Global Instance ItemType_eq_dec : EqDecision ItemType.
Proof. solve_decision. Defined.
Global Instance AggregatedStatus_eq_dec : EqDecision AggregatedStatus.t.
Proof. solve_decision. Defined.

Inductive HierarchyItem := mkItem {
  id : Js.str;
  type : ItemType;
  text : Js.str;
  state : option TaskState;
  aggregatedStatus : option AggregatedStatus.t;
  line : nat;
  level : Z;
  children : list HierarchyItem;
  hasTaskDescendants : option bool
}.

Record StateCount := mkStateCount {
  pending : nat;
  done : nat;
  inProgress : nat;
  blocked : nat
}.

Record ParsedPlan := mkPlan {
  title : Js.str;
  subtitle : Js.str;
  filePath : Js.str;
  tasks : list HierarchyItem;
  totalCount : nat;
  stateCount : StateCount
}.

(** ** markdown-it tokens

    The fields of a token that the parser reads. *)

Inductive Token := mkToken {
  tok_type : Js.str;
  tok_tag : Js.str;
  tok_attrs : option (list (Js.str * Js.str));
  tok_map : option (nat * nat);
  tok_content : Js.str;
  tok_children : option (list Token)
}.

(** ** The checklist extractor: the token loop of [parsePlan] *)

(** An element [{ item, level }] of [flatItems]. *)
Record FlatItem := mkFlat {
  f_item : HierarchyItem;
  f_level : Z
}.

(** The variables of the loop. *)
Record ExtractState := mkExtract {
  flatItems : list FlatItem;
  listDepth : Z;
  lineCounter : nat
}.

Definition hasType (name : string) (t : Token) : bool :=
  bool_decide (tok_type t = u name).

(** [token.map ? token.map[0] : lineCounter] *)
Definition lineNumberOf (token : Token) (lineCounter : nat) : nat :=
  match tok_map token with
  | Some (first, _) => first
  | None => lineCounter
  end.

(** [`${filePath}:${lineNumber}`] *)
Definition itemId (filePath : Js.str) (lineNumber : nat) : Js.str :=
  filePath ++ u ":" ++ Js.ofNat lineNumber.

(** [token.attrs?.some(([key, val]) => key === 'class' &&
    val.includes('task-list-item'))] *)
Definition hasTaskClass (token : Token) : bool :=
  match tok_attrs token with
  | Some attrs =>
      existsb (λ kv, bool_decide (kv.1 = u "class")
                     && Js.includes (u "task-list-item") kv.2) attrs
  | None => false
  end.

(** The text [checked=] followed by two double quotes. *)
Definition checkedAttr : Js.str := u "checked=" ++ [34%N; 34%N].

(** The backwards loop [for (let j = flatItems.length - 1; j >= 0; j--)]
    that looks for the last heading; [n] is [j + 1]. *)
Fixpoint lastHeadingLevel (flatItems : list FlatItem) (n : nat) : outcome Z :=
  match n with
  | O => Returned 0
  | S j =>
      let* entry := deref (flatItems !! j) in
      if decide (type (f_item entry) = Heading) then Returned (f_level entry)
      else lastHeadingLevel flatItems j
  end.

(** The state and the text of a list item, from its inline token. *)
Definition checkboxOf (token contentToken : Token) (inline : list Token)
  : option TaskState * Js.str :=
  if hasTaskClass token then
    let inputChild :=
      List.find (λ c, hasType "html_inline" c
                      && Js.includes (u "task-list-item-checkbox") (tok_content c))
                inline in
    let state :=
      match inputChild with
      | Some c => if Js.includes checkedAttr (tok_content c) then Some Done
                  else Some Pending
      | None => None
      end in
    (state,
     Js.trim (Js.join (tok_content <$>
                        filter (λ c, tok_type c ≠ u "html_inline") inline)))
  else
    let fullText := tok_content contentToken in
    if Js.startsWith (u "[-]") fullText then
      (Some InProgress, Js.trim (Js.stripMarker (u "[-]") fullText))
    else if Js.startsWith (u "[!]") fullText then
      (Some Blocked, Js.trim (Js.stripMarker (u "[!]") fullText))
    else (None, []).

(** The first [if] of the loop body: headings of level 2 and deeper. *)
Definition extractHeading (tokens : list Token) (filePath : Js.str)
    (i : nat) (token : Token) (st : ExtractState) : ExtractState :=
  if hasType "heading_open" token then
    match Js.parseInt (Js.substring 1 (tok_tag token)) with
    | Some headingLevel =>
        if 2 <=? headingLevel then
          match tokens !! (i + 1)%nat with
          | Some contentToken =>
              if hasType "inline" contentToken then
                let lineNumber := lineNumberOf token (lineCounter st) in
                let item :=
                  mkItem (itemId filePath lineNumber) Heading
                         (tok_content contentToken) None None
                         lineNumber headingLevel [] None in
                mkExtract (flatItems st ++ [mkFlat item headingLevel])
                          (listDepth st) (lineCounter st)
              else st
          | None => st
          end
        else st
    | None => st
    end
  else st.

(** The two [if]s that follow the nesting of lists. *)
Definition trackListDepth (token : Token) (st : ExtractState) : ExtractState :=
  let st :=
    if hasType "bullet_list_open" token || hasType "ordered_list_open" token
    then mkExtract (flatItems st) (listDepth st + 1) (lineCounter st) else st in
  if hasType "bullet_list_close" token || hasType "ordered_list_close" token
  then mkExtract (flatItems st) (listDepth st - 1) (lineCounter st) else st.

(** The last [if] of the loop body: checklist items. *)
Definition extractTask (tokens : list Token) (filePath : Js.str)
    (i : nat) (token : Token) (st : ExtractState) : outcome ExtractState :=
  if hasType "list_item_open" token then
    match tokens !! (i + 2)%nat with
    | Some contentToken =>
        match (if hasType "inline" contentToken then tok_children contentToken
               else None) with
        | Some inline =>
            match checkboxOf token contentToken inline with
            | (Some state, text) =>
                if Js.truthy text then
                  let lineNumber := lineNumberOf token (lineCounter st) in
                  let* headingLevel :=
                    lastHeadingLevel (flatItems st) (length (flatItems st)) in
                  let taskLevel := headingLevel + listDepth st in
                  let item :=
                    mkItem (itemId filePath lineNumber) Task text (Some state)
                           None lineNumber taskLevel [] None in
                  Returned (mkExtract (flatItems st ++ [mkFlat item taskLevel])
                                      (listDepth st) (lineCounter st))
                else Returned st
            | (None, _) => Returned st
            end
        | None => Returned st
        end
    | None => Returned st
    end
  else Returned st.

(** One turn of [for (let i = 0; i < tokens.length; i++)]. *)
Definition extractToken (tokens : list Token) (filePath : Js.str)
    (st : ExtractState) (i : nat) : outcome ExtractState :=
  let* token := deref (tokens !! i) in
  let st := extractHeading tokens filePath i token st in
  let st := trackListDepth token st in
  let* st := extractTask tokens filePath i token st in
  Returned (mkExtract (flatItems st) (listDepth st) (S (lineCounter st))).

Definition extractItems (tokens : list Token) (filePath : Js.str)
  : outcome (list FlatItem) :=
  let* st := forEach (extractToken tokens filePath)
                     (seq 0 (length tokens)) (mkExtract [] 0 0) in
  Returned (flatItems st).

(** ** The hierarchy builder

    [buildHierarchy] works on shared arrays: the [children] array of an
    item is reachable both from the array that holds the item and from the
    stack frame pushed for it. The embedding therefore keeps a store of
    arrays. An item object is named by its position in [flatItems] (the
    extractor creates one fresh object, with a fresh empty [children]
    array, per entry); an array holds such names. *)

Inductive ArrayRef :=
| RootArray
| ChildrenOf (i : nat).

(** A stack frame [{ level, children }]. *)
Record Frame := mkFrame {
  frame_level : Z;
  frame_children : ArrayRef
}.

(** The store: the [root] array and the [children] array of every item. *)
Record Store := mkStore {
  root : list nat;
  childrenOf : list (list nat)
}.

(** [a.push(i)] *)
Definition push (a : ArrayRef) (i : nat) (h : Store) : Store :=
  match a with
  | RootArray => mkStore (root h ++ [i]) (childrenOf h)
  | ChildrenOf p => mkStore (root h) (alter (λ l, l ++ [i]) p (childrenOf h))
  end.

(** [while (stack.length > 1 && stack[stack.length - 1].level >= level)
    stack.pop()]; the head of the list is the top of the stack. *)
Fixpoint popFrames (level : Z) (stack : list Frame) : list Frame :=
  match stack with
  | top :: rest =>
      match rest with
      | _ :: _ =>
          if bool_decide (level ≤ frame_level top) then popFrames level rest
          else stack
      | [] => stack
      end
  | [] => stack
  end.

(** The callback of [flatItems.forEach], for the item at position [i]. *)
Definition placeItem (st : list Frame * Store) (entry : nat * FlatItem)
  : outcome (list Frame * Store) :=
  let '(i, mkFlat _ level) := entry in
  let stack := popFrames level st.1 in
  let* parent := deref (head stack) in
  let store := push (frame_children parent) i st.2 in
  Returned (mkFrame level (ChildrenOf i) :: stack, store).

Definition initialStore (flatItems : list FlatItem) : Store :=
  mkStore [] ((λ _, []) <$> flatItems).

(** The store when [buildHierarchy] returns. *)
Definition buildStore (flatItems : list FlatItem) : outcome Store :=
  let* st := forEach placeItem (zip (seq 0 (length flatItems)) flatItems)
                     ([mkFrame 0 RootArray], initialStore flatItems) in
  Returned st.2.

Definition withChildren (item : HierarchyItem) (cs : list HierarchyItem) : HierarchyItem :=
  mkItem (id item) (type item) (text item) (state item) (aggregatedStatus item)
         (line item) (level item) cs (hasTaskDescendants item).

(** The object that the name [c] denotes, when [trees] are the objects
    named [base], [base + 1], ... *)
Definition itemAt (base : nat) (trees : list HierarchyItem) (c : nat)
  : option HierarchyItem :=
  if decide (base ≤ c)%nat then trees !! (c - base)%nat else None.

(** The items as trees: every name in a [children] array is replaced by
    the item it names. An array only holds items placed after its owner,
    so the trees are resolved from the last item backwards; [base] is the
    position of the first cell. *)
Fixpoint resolveItems (cells : list (FlatItem * list nat)) (base : nat)
  : list HierarchyItem :=
  match cells with
  | [] => []
  | (entry, names) :: rest =>
      let later := resolveItems rest (S base) in
      withChildren (f_item entry) (omap (itemAt (S base) later) names) :: later
  end.

(** The forest that [root] denotes. *)
Definition resolve (flatItems : list FlatItem) (h : Store) : list HierarchyItem :=
  let trees := resolveItems (zip flatItems (childrenOf h)) 0 in
  omap (itemAt 0 trees) (root h).

Definition buildHierarchy (flatItems : list FlatItem) : outcome (list HierarchyItem) :=
  let* store := buildStore flatItems in
  Returned (resolve flatItems store).

(** ** The branch filter *)

Definition nonEmpty {A} (l : list A) : bool :=
  match l with [] => false | _ => true end.

(** One turn of the loop of [markTaskDescendants]: the item with its
    subtree marked, and whether it sets [hasAnyTasks]. *)
Fixpoint markItem (item : HierarchyItem) : HierarchyItem * bool :=
  match item with
  | mkItem i ty tx st ag ln lv cs h =>
      let marked := markItem <$> cs in
      match ty with
      | Task =>
          (mkItem i ty tx st ag ln lv (if nonEmpty cs then marked.*1 else cs)
                  (Some true), true)
      | Heading =>
          if nonEmpty cs then
            let childrenHaveTasks := existsb snd marked in
            (mkItem i ty tx st ag ln lv marked.*1 (Some childrenHaveTasks),
             childrenHaveTasks)
          else (mkItem i ty tx st ag ln lv cs (Some false), false)
      end
  end.

(** The items after the in-place marking, and the value returned. *)
Definition markTaskDescendants (items : list HierarchyItem)
  : list HierarchyItem * bool :=
  let marked := markItem <$> items in
  (marked.*1, existsb snd marked).

(** The test of [.filter(item => item.hasTaskDescendants)]. *)
Definition kept (item : HierarchyItem) : bool :=
  match hasTaskDescendants item with
  | Some true => true
  | _ => false
  end.

(** [{ ...item, children: filterTaskBranches(item.children) }] *)
Fixpoint filterItem (item : HierarchyItem) : HierarchyItem :=
  match item with
  | mkItem i ty tx st ag ln lv cs h =>
      mkItem i ty tx st ag ln lv
             (omap (λ c, if kept c then Some (filterItem c) else None) cs) h
  end.

(** [items.filter(...).map(...)] *)
Definition filterTaskBranches (items : list HierarchyItem) : list HierarchyItem :=
  omap (λ c, if kept c then Some (filterItem c) else None) items.

(** ** The status aggregator *)

Fixpoint collectDescendantTasks (item : HierarchyItem) : list HierarchyItem :=
  match item with
  | mkItem _ _ _ _ _ _ _ cs _ =>
      cs ≫= (λ child,
        (if decide (type child = Task) then [child] else [])
        ++ (if nonEmpty (children child) then collectDescendantTasks child
            else []))
  end.

(** The status chosen from [descendantTasks]. *)
Definition statusOf (descendantTasks : list HierarchyItem) : AggregatedStatus.t :=
  if decide (length descendantTasks = 0%nat) then AggregatedStatus.Pending
  else
    let doneCount := length (filter (λ t, state t = Some Done) descendantTasks) in
    let totalCount := length descendantTasks in
    if decide (doneCount = totalCount) then AggregatedStatus.Done
    else if decide (0 < doneCount)%nat then AggregatedStatus.Partial
    else AggregatedStatus.Pending.

(** One turn of the loop of [calculateAggregatedStatus]. *)
Fixpoint aggregateItem (item : HierarchyItem) : HierarchyItem :=
  match item with
  | mkItem i ty tx st ag ln lv cs h =>
      if nonEmpty cs then
        let cs' := aggregateItem <$> cs in
        let descendantTasks :=
          collectDescendantTasks (mkItem i ty tx st ag ln lv cs' h) in
        mkItem i ty tx st (Some (statusOf descendantTasks)) ln lv cs' h
      else item
  end.

Definition calculateAggregatedStatus (items : list HierarchyItem)
  : list HierarchyItem :=
  aggregateItem <$> items.

(** ** Counting *)

Definition countState (s : TaskState) (counts : StateCount) : StateCount :=
  match s with
  | Pending => mkStateCount (S (pending counts)) (done counts) (inProgress counts) (blocked counts)
  | Done => mkStateCount (pending counts) (S (done counts)) (inProgress counts) (blocked counts)
  | InProgress => mkStateCount (pending counts) (done counts) (S (inProgress counts)) (blocked counts)
  | Blocked => mkStateCount (pending counts) (done counts) (inProgress counts) (S (blocked counts))
  end.

(** The callback of [items.forEach] in [countTasks]. *)
Fixpoint countItem (item : HierarchyItem) (counts : StateCount) : StateCount :=
  match item with
  | mkItem _ ty _ st _ _ _ cs _ =>
      let counts :=
        match ty, st with
        | Task, Some s => countState s counts
        | _, _ => counts
        end in
      if nonEmpty cs then foldl (λ acc c, countItem c acc) counts cs else counts
  end.

Definition countTasks (items : list HierarchyItem) (counts : StateCount) : StateCount :=
  foldl (λ acc c, countItem c acc) counts items.

(** ** [parsePlan] *)

Section Parser.

(** [content => md.parse(content, {})] *)
Variable tokenize : Js.str → list Token.

Definition parsePlan (content filePath : Js.str) : outcome ParsedPlan :=
  let tokens := tokenize content in
  let* flatItems := extractItems tokens filePath in
  let* hierarchical := buildHierarchy flatItems in
  let hierarchical := (markTaskDescendants hierarchical).1 in
  let hierarchical := filterTaskBranches hierarchical in
  let hierarchical := calculateAggregatedStatus hierarchical in
  let counts := countTasks hierarchical (mkStateCount 0 0 0 0) in
  let totalTaskCount :=
    length (filter (λ entry, type (f_item entry) = Task) flatItems) in
  let firstLine := Js.trim (Js.stripHeadingMarker (Js.firstLine content)) in
  let fileName :=
    let last := Js.lastSegment filePath in
    if Js.truthy last then last else filePath in
  Returned (mkPlan (if Js.truthy firstLine then firstLine else u "Untitled Plan")
                   fileName filePath hierarchical totalTaskCount counts).

End Parser.

(** ** [src/planCache.ts]

    The modification time [stats.mtimeMs] is a number that the cache only
    stores and compares with [===]; its type is a parameter with a
    decidable equality (a successful [stat] never gives [NaN]). The file
    system is the function [stat] given to each call: the outcome of
    [await fs.stat(filePath)], reduced to the field that is read. The
    output channel is the list of the lines appended to it. Calls run one
    after the other, as the single caller of the cache awaits each of
    them. *)

Module PlanCache.
Section Cache.

Context {Mtime : Type} `{EqDecision Mtime}.

Record CacheEntry := mkEntry {
  mtime : Mtime;
  parsed : ParsedPlan
}.

Record t := mkCache {
  cache : gmap Js.str CacheEntry;
  outputChannel : list Js.str
}.

Definition FileSystem := Js.str → outcome Mtime.

(** [`${error}`] *)
Definition errorText (e : exn) : Js.str :=
  match e with
  | TypeError => u "TypeError"
  | SystemError message => u "Error: " ++ message
  end.

Definition appendLine (text : Js.str) (c : t) : t :=
  mkCache (cache c) (outputChannel c ++ [text]).

Definition new : t := mkCache ∅ [].

(** [try { body } catch (error) { handler }] *)
Definition tryCatch {A} (body : outcome A) (handler : exn → outcome A) : outcome A :=
  match body with
  | Returned a => Returned a
  | Thrown error => handler error
  end.

(** The value the promise resolves to, and the cache afterwards. *)
Definition get (stat : FileSystem) (filePath : Js.str) (c : t)
  : outcome (option ParsedPlan * t) :=
  tryCatch
    (let* mtimeMs := stat filePath in
     match cache c !! filePath with
     | Some cached =>
         if decide (mtime cached = mtimeMs) then
           Returned (Some (parsed cached),
                     appendLine (u "Cache hit: " ++ filePath) c)
         else Returned (None, appendLine (u "Cache miss: " ++ filePath) c)
     | None => Returned (None, appendLine (u "Cache miss: " ++ filePath) c)
     end)
    (λ error,
       Returned (None,
                 appendLine (u "Cache get error for " ++ filePath ++ u ": "
                             ++ errorText error) c)).

Definition set (stat : FileSystem) (filePath : Js.str) (plan : ParsedPlan) (c : t)
  : outcome t :=
  tryCatch
    (let* mtimeMs := stat filePath in
     Returned (appendLine (u "Cache updated: " ++ filePath)
                 (mkCache (<[filePath := mkEntry mtimeMs plan]> (cache c))
                          (outputChannel c))))
    (λ error,
       Returned (appendLine (u "Cache set warning for " ++ filePath ++ u ": "
                             ++ errorText error) c)).

Definition invalidate (filePath : Js.str) (c : t) : t :=
  match cache c !! filePath with
  | Some _ =>
      appendLine (u "Cache invalidated: " ++ filePath)
        (mkCache (delete filePath (cache c)) (outputChannel c))
  | None => c
  end.

Definition clear (c : t) : t :=
  appendLine (u "Cache cleared") (mkCache ∅ (outputChannel c)).

End Cache.
Arguments CacheEntry : clear implicits.
Arguments t : clear implicits.
Arguments FileSystem : clear implicits.
End PlanCache.

(** ** The provider: [_loadPlan], [_initialize] and [refreshView]

    The provider of the side bar panel is the caller of the cache and of
    the parser. Its methods are asynchronous; as for the cache, the
    embedding is sequential: one call runs to its end on one state of the
    file system. A method is a function from the state of the provider to
    a result and the state afterwards; the state is kept when the method
    throws, since what a [try] block did before it threw is still done in
    its [catch]. The provider and its cache write to the same output
    channel: the channel is the one of the cache. *)

Module Provider.
Section Provider.

Context {Mtime : Type} `{EqDecision Mtime}.

(** [content => md.parse(content, {})] *)
Variable tokenize : Js.str → list Token.

(** A [vscode.Uri], of which the provider reads [fsPath]. *)
Record Uri := mkUri {
  fsPath : Js.str
}.

(** An element of the [files] of a [fileList] message. *)
Record FileEntry := mkFileEntry {
  path : Js.str;
  relativePath : Js.str;
  isCurrent : bool
}.

(** The messages posted to the webview. *)
Inductive Message :=
| Loading (message : Js.str)
| Empty (message : Js.str)
| Error (message : Js.str)
| UpdatePlan (plan : ParsedPlan)
| FileList (files : list FileEntry).

(** What a call finds outside the provider: [fs.stat(path).mtimeMs],
    [fs.readFile(path, 'utf-8')], [vscode.workspace.asRelativePath(uri,
    false)], the [uri] of [vscode.workspace.workspaceFolders?.[0]], and the
    files that [findPlanFiles] resolves to for that folder (it catches
    what it throws). *)
Record Environment := mkEnvironment {
  stat : PlanCache.FileSystem Mtime;
  readFile : Js.str → outcome Js.str;
  asRelativePath : Uri → outcome Js.str;
  workspaceFolder : option Uri;
  findPlanFiles : list Uri
}.

(** The fields of the provider; [_view] holds the messages posted to the
    webview of the view, and is [None] when there is no view. *)
Record t := mkProvider {
  _view : option (list Message);
  _cache : PlanCache.t Mtime;
  _planFiles : list Uri;
  _currentFile : option Uri;
  _isInitialized : bool
}.

Definition M (A : Type) : Type := t → outcome A * t.

Definition ret {A} (a : A) : M A := λ p, (Returned a, p).

Definition bindM {A B} (m : M A) (k : A → M B) : M B :=
  λ p, match m p with
       | (Returned a, p') => k a p'
       | (Thrown e, p') => (Thrown e, p')
       end.

Notation "'run' x ':=' m 'in' k" := (bindM m (λ x, k))
  (at level 10, x name, m at level 100, k at level 200, only parsing).
Notation "m ';;' k" := (bindM m (λ _, k))
  (at level 100, k at level 200, right associativity, only parsing).

(** [try { body } catch (error) { handler }] *)
Definition tryCatchM {A} (body : M A) (handler : exn → M A) : M A :=
  λ p, match body p with
       | (Returned a, p') => (Returned a, p')
       | (Thrown error, p') => handler error p'
       end.

(** A call that does not touch the provider. *)
Definition lift {A} (o : outcome A) : M A := λ p, (o, p).

(** Reading fields of [this]. *)
Definition read {A} (f : t → A) : M A := λ p, (Returned (f p), p).

(** [this._outputChannel.appendLine(text)] *)
Definition appendLine (text : Js.str) : M unit :=
  λ p, (Returned tt,
        mkProvider (_view p) (PlanCache.appendLine text (_cache p))
                   (_planFiles p) (_currentFile p) (_isInitialized p)).

(** A method of [this._cache]. *)
Definition onCache {A}
    (call : PlanCache.t Mtime → outcome (A * PlanCache.t Mtime)) : M A :=
  λ p, match call (_cache p) with
       | Returned (a, c) =>
           (Returned a,
            mkProvider (_view p) c (_planFiles p) (_currentFile p)
                       (_isInitialized p))
       | Thrown e => (Thrown e, p)
       end.

Definition setPlanFiles (files : list Uri) : M unit :=
  λ p, (Returned tt,
        mkProvider (_view p) (_cache p) files (_currentFile p) (_isInitialized p)).

Definition setCurrentFile (file : option Uri) : M unit :=
  λ p, (Returned tt,
        mkProvider (_view p) (_cache p) (_planFiles p) file (_isInitialized p)).

Definition setIsInitialized (b : bool) : M unit :=
  λ p, (Returned tt,
        mkProvider (_view p) (_cache p) (_planFiles p) (_currentFile p) b).

(** [error instanceof Error ? error.message : String(error)] *)
Definition messageOf (error : exn) : Js.str :=
  match error with
  | TypeError => []
  | SystemError message => message
  end.

Definition _postMessage (message : Message) : M unit :=
  λ p, match _view p with
       | Some posted =>
           (Returned tt,
            mkProvider (Some (posted ++ [message])) (_cache p) (_planFiles p)
                       (_currentFile p) (_isInitialized p))
       | None =>
           appendLine
             (u "[PlanMonitor] WARNING: Attempted to post message but view is not available")
             p
       end.

(** [getWorkspaceRelativePath] of [fileDiscovery.ts] *)
Definition getWorkspaceRelativePath (env : Environment) (uri : Uri) : Js.str :=
  match asRelativePath env uri with
  | Returned relative => relative
  | Thrown _ => fsPath uri
  end.

(** The [fileList] of [_sendFileList]. *)
Definition fileList (env : Environment) (files : list Uri) (current : option Uri)
  : list FileEntry :=
  (λ uri, mkFileEntry (fsPath uri) (getWorkspaceRelativePath env uri)
                      (bool_decide (fsPath <$> current = Some (fsPath uri))))
    <$> files.

Definition _sendFileList (env : Environment) : M unit :=
  run files := read _planFiles in
  run current := read _currentFile in
  _postMessage (FileList (fileList env files current)).

Definition _loadPlan (env : Environment) (fileUri : Uri) : M unit :=
  tryCatchM
    (setCurrentFile (Some fileUri);;
     let filePath := fsPath fileUri in
     appendLine (u "[PlanMonitor] Loading plan: " ++ filePath);;
     run cached := onCache (PlanCache.get (stat env) filePath) in
     run plan :=
       match cached with
       | None =>
           appendLine (u "[PlanMonitor] Cache miss, parsing file");;
           run content := lift (readFile env filePath) in
           appendLine (u "[PlanMonitor] File read, "
                       ++ Js.ofNat (length content) ++ u " bytes");;
           run plan := lift (parsePlan tokenize content filePath) in
           appendLine (u "[PlanMonitor] Parsed "
                       ++ Js.ofNat (totalCount plan) ++ u " tasks");;
           onCache (λ c, let* c' := PlanCache.set (stat env) filePath plan c in
                         Returned (tt, c'));;
           ret plan
       | Some plan =>
           appendLine (u "[PlanMonitor] Cache hit");;
           ret plan
       end in
     _postMessage (UpdatePlan plan);;
     _sendFileList env;;
     appendLine (u "[PlanMonitor] Plan loaded successfully"))
    (λ error,
       let errorMsg := messageOf error in
       appendLine (u "[PlanMonitor] ERROR loading plan: " ++ errorMsg);;
       _postMessage (Error (u "Failed to load plan: " ++ errorMsg))).

(** [this._planFiles.forEach((file, index) => ...)] of
    [_discoverPlanFiles]; [index] is the index of the first file. *)
Fixpoint logPlanFiles (files : list Uri) (index : nat) : M unit :=
  match files with
  | [] => ret tt
  | file :: rest =>
      appendLine (u "[PlanMonitor]   " ++ Js.ofNat (index + 1) ++ u ". "
                  ++ fsPath file);;
      logPlanFiles rest (S index)
  end.

Definition _discoverPlanFiles (env : Environment) : M unit :=
  tryCatchM
    match workspaceFolder env with
    | None =>
        appendLine (u "[PlanMonitor] No workspace folder found");;
        setPlanFiles []
    | Some folder =>
        appendLine (u "[PlanMonitor] Searching in: " ++ fsPath folder);;
        setPlanFiles (findPlanFiles env);;
        run files := read _planFiles in
        logPlanFiles files 0
    end
    (λ error,
       appendLine (u "[PlanMonitor] ERROR discovering files: " ++ messageOf error);;
       setPlanFiles []).

Definition _initialize (env : Environment) : M unit :=
  run initialized := read _isInitialized in
  if initialized : bool then
    appendLine (u "[PlanMonitor] Already initialized, skipping")
  else
    tryCatchM
      (appendLine (u "[PlanMonitor] Starting initialization...");;
       _postMessage (Loading (u "Discovering PLAN*.md files..."));;
       _discoverPlanFiles env;;
       run files := read _planFiles in
       appendLine (u "[PlanMonitor] Found " ++ Js.ofNat (length files)
                   ++ u " plan files");;
       match files with
       | first :: _ =>
           appendLine (u "[PlanMonitor] Loading first file: " ++ fsPath first);;
           _loadPlan env first
       | [] =>
           appendLine (u "[PlanMonitor] No plan files found");;
           _postMessage (Empty (u "No PLAN*.md files found in workspace"))
       end;;
       setIsInitialized true;;
       appendLine (u "[PlanMonitor] Initialization successful"))
      (λ error,
         let errorMsg := messageOf error in
         appendLine (u "[PlanMonitor] ERROR in initialization: " ++ errorMsg);;
         _postMessage (Error (u "Failed to initialize: " ++ errorMsg))).

Definition refreshView (env : Environment) : M unit :=
  tryCatchM
    (appendLine (u "[PlanMonitor] Refreshing view...");;
     _discoverPlanFiles env;;
     run current := read _currentFile in
     run files := read _planFiles in
     match current with
     | Some file =>
         let stillExists :=
           existsb (λ f, bool_decide (fsPath f = fsPath file)) files in
         match files with
         | first :: _ =>
             if negb stillExists then
               appendLine (u "[PlanMonitor] Current file deleted, switching to first available");;
               setCurrentFile (Some first)
             else ret tt
         | [] => ret tt
         end
     | None => ret tt
     end;;
     run current := read _currentFile in
     run files := read _planFiles in
     match current, files with
     | Some file, _ =>
         onCache (λ c, Returned (tt, PlanCache.invalidate (fsPath file) c));;
         _loadPlan env file
     | None, first :: _ => _loadPlan env first
     | None, [] => _postMessage (Empty (u "No PLAN*.md files found in workspace"))
     end;;
     appendLine (u "[PlanMonitor] Refresh complete"))
    (λ error,
       appendLine (u "[PlanMonitor] ERROR refreshing: " ++ messageOf error)).

End Provider.

Arguments Uri : clear implicits.
Arguments t : clear implicits.
Arguments Environment : clear implicits.
Arguments M : clear implicits.
End Provider.

(** ** The webview: the class of a checkbox

    The webview receives the plan as a message, in which the members of
    the enumerations of [types.ts] are their strings. *)

Definition stateText (s : TaskState) : Js.str :=
  match s with
  | Pending => u "pending"
  | Done => u "done"
  | InProgress => u "in-progress"
  | Blocked => u "blocked"
  end.

Definition statusText (a : AggregatedStatus.t) : Js.str :=
  match a with
  | AggregatedStatus.Done => u "done"
  | AggregatedStatus.Partial => u "partial"
  | AggregatedStatus.Pending => u "pending"
  end.

(** [getCheckboxClass(state, aggregatedStatus = null)]; [None] is
    [undefined] or [null]. *)
Definition getCheckboxClass (state aggregatedStatus : option Js.str) : Js.str :=
  if from_option Js.truthy false aggregatedStatus then
    if decide (aggregatedStatus = Some (u "done")) then u "checked"
    else if decide (aggregatedStatus = Some (u "in-progress")) then u "in-progress"
    else if decide (aggregatedStatus = Some (u "partial")) then u "partial"
    else u "unchecked"
  else
    if decide (state = Some (u "done")) then u "checked"
    else if decide (state = Some (u "partial")) then u "partial"
    else if decide (state = Some (u "incomplete")) then u "incomplete"
    else if decide (state = Some (u "in-progress")) then u "in-progress"
    else if decide (state = Some (u "blocked")) then u "blocked"
    else u "unchecked".

(** The [checkboxClass] that [renderTaskList] computes for an item. *)
Definition checkboxClass (item : HierarchyItem) : Js.str :=
  let hasChildren := nonEmpty (children item) in
  match type item with
  | Heading => getCheckboxClass (statusText <$> aggregatedStatus item) None
  | Task =>
      getCheckboxClass (stateText <$> state item)
                       (if hasChildren then statusText <$> aggregatedStatus item
                        else None)
  end.

(** * Vocabulary of the specification *)

(** ** Trees *)

(** The nodes of a subtree, the node itself first. *)
Fixpoint nodes (item : HierarchyItem) : list HierarchyItem :=
  match item with
  | mkItem _ _ _ _ _ _ _ cs _ => item :: (cs ≫= nodes)
  end.

(** All nodes of a forest. *)
Definition allNodes (items : list HierarchyItem) : list HierarchyItem :=
  items ≫= nodes.

(** The transitive descendants of a node, the node itself excluded. *)
Definition descendants (item : HierarchyItem) : list HierarchyItem :=
  allNodes (children item).

Definition isTask (item : HierarchyItem) : Prop := type item = Task.

Global Instance isTask_dec item : Decision (isTask item).
Proof. unfold isTask. apply _. Defined.

(** What the extractor writes into an item: every field but the two that
    later passes fill in ([children] is kept apart). *)
Definition core (item : HierarchyItem)
  : Js.str * ItemType * Js.str * option TaskState * nat * Z :=
  (id item, type item, text item, state item, line item, level item).

(** The subtree of [item], [item] included, contains a Task. *)
Definition containsTask (item : HierarchyItem) : bool :=
  bool_decide (Exists isTask (nodes item)).

(** The branch filter as the specification words it: drop every node that
    has no task anywhere within it, keep the others in their order, and
    flag them. *)
Fixpoint prunedItem (item : HierarchyItem) : HierarchyItem :=
  match item with
  | mkItem i ty tx st ag ln lv cs _ =>
      mkItem i ty tx st ag ln lv
             (omap (λ c, if containsTask c then Some (prunedItem c) else None) cs)
             (Some true)
  end.

Definition pruned (items : list HierarchyItem) : list HierarchyItem :=
  omap (λ c, if containsTask c then Some (prunedItem c) else None) items.

(** The aggregated status as the specification words it, from the
    descendant tasks of a node. *)
Definition aggregateSpec (ts : list HierarchyItem) : AggregatedStatus.t :=
  if bool_decide (ts = []) then AggregatedStatus.Pending
  else if bool_decide (Forall (λ t, state t = Some Done) ts) then AggregatedStatus.Done
  else if bool_decide (Exists (λ t, state t = Some Done) ts) then AggregatedStatus.Partial
  else AggregatedStatus.Pending.

(** What [calculateAggregatedStatus] leaves on every node of a tree whose
    nodes had no status before. *)
Definition aggregated (n : HierarchyItem) : Prop :=
  aggregatedStatus n
  = if nonEmpty (children n)
    then Some (aggregateSpec (filter isTask (descendants n)))
    else None.

(** ** The flat list *)

Definition opensList (token : Token) : Prop :=
  tok_type token = u "bullet_list_open" ∨ tok_type token = u "ordered_list_open".

Definition closesList (token : Token) : Prop :=
  tok_type token = u "bullet_list_close" ∨ tok_type token = u "ordered_list_close".

Global Instance opensList_dec token : Decision (opensList token).
Proof. unfold opensList. apply _. Defined.
Global Instance closesList_dec token : Decision (closesList token).
Proof. unfold closesList. apply _. Defined.

(** The list nesting depth after the tokens [before]: the lists entered
    less the lists left. *)
Definition nestingDepth (before : list Token) : Z :=
  Z.of_nat (length (filter opensList before))
  - Z.of_nat (length (filter closesList before)).

Definition isHeadingEntry (entry : FlatItem) : Prop :=
  type (f_item entry) = Heading.

Global Instance isHeadingEntry_dec entry : Decision (isHeadingEntry entry).
Proof. unfold isHeadingEntry. apply _. Defined.

(** The level of the nearest heading among the items [emitted] so far,
    0 when there is none. *)
Definition nearestHeadingLevel (emitted : list FlatItem) : Z :=
  match last (filter isHeadingEntry emitted) with
  | Some heading => level (f_item heading)
  | None => 0
  end.

(** An item as the extractor creates it. *)
Definition extracted (entry : FlatItem) : Prop :=
  children (f_item entry) = []
  ∧ aggregatedStatus (f_item entry) = None
  ∧ hasTaskDescendants (f_item entry) = None
  ∧ level (f_item entry) = f_level entry
  ∧ (type (f_item entry) = Task → is_Some (state (f_item entry))).

(** The level of a checklist item: the level of the nearest heading
    emitted before it plus the nesting depth at its token. *)
Definition taskLevelOK (tokens : list Token) (emitted : list FlatItem)
    (entry : FlatItem) : Prop :=
  type (f_item entry) = Task →
  ∃ i token,
    tokens !! i = Some token
    ∧ hasType "list_item_open" token = true
    ∧ level (f_item entry)
      = nearestHeadingLevel emitted + nestingDepth (take i tokens).

(** What holds of the flat list at every turn of the loop. *)
Definition flatOK (tokens : list Token) (flat : list FlatItem) : Prop :=
  ∀ k entry, flat !! k = Some entry →
    extracted entry ∧ taskLevelOK tokens (take k flat) entry.

(** ** Token streams for the examples

    The tokens markdown-it produces for a few lines of markdown, reduced
    to the fields that are read. *)

Module Examples.

Definition plain (type tag : string) : Token :=
  mkToken (u type) (u tag) None None [] None.

Definition textToken (content : Js.str) : Token :=
  mkToken (u "text") [] None None content None.

Definition inlineToken (content : Js.str) (inline : list Token) : Token :=
  mkToken (u "inline") [] None None content (Some inline).

Definition headingOpen (tag : string) (firstLine : nat) : Token :=
  mkToken (u "heading_open") (u tag) None (Some (firstLine, S firstLine)) [] None.

(** A list item; [task] says whether the task-list plugin marked it. *)
Definition listItemOpen (firstLine : nat) (task : bool) : Token :=
  mkToken (u "list_item_open") (u "li")
          (if task then Some [(u "class", u "task-list-item")] else None)
          (Some (firstLine, S firstLine)) [] None.

Definition htmlInline (content : Js.str) : Token :=
  mkToken (u "html_inline") [] None None content None.

(** The [<input>] element that the task-list plugin inserts (with
    [enabled: true] it has no [disabled] attribute). *)
Definition checkbox (checked : bool) : Token :=
  htmlInline
    (u "<input class=" ++ [34%N] ++ u "task-list-item-checkbox" ++ [34%N]
     ++ (if checked then u " " ++ checkedAttr else [])
     ++ u "type=" ++ [34%N] ++ u "checkbox" ++ [34%N] ++ u ">").

(** The children of the inline token of a standard checklist item (with
    [label: true]): the label, the checkbox, the text. *)
Definition checklistInline (checked : bool) (text : string) : list Token :=
  [htmlInline (u "<label>"); checkbox checked; textToken (u text);
   htmlInline (u "</label>")].

(** A list item with its paragraph, as five tokens. *)
Definition listItem (firstLine : nat) (task : bool) (content : Js.str)
    (inline : list Token) : list Token :=
  [listItemOpen firstLine task; plain "paragraph_open" "p";
   inlineToken content inline;
   plain "paragraph_close" "p"; plain "list_item_close" "li"].

Definition heading (tag : string) (firstLine : nat) (content : string) : list Token :=
  [headingOpen tag firstLine; inlineToken (u content) [textToken (u content)];
   plain "heading_close" tag].

(** ["- [>] Ship it"] *)
Definition arrowItem : list Token :=
  [plain "bullet_list_open" "ul"]
  ++ listItem 0 false (u "[>] Ship it") [textToken (u "[>] Ship it")]
  ++ [plain "bullet_list_close" "ul"].

(** ["## Section"], ["- [-] Doing"] *)
Definition dashItem : list Token :=
  heading "h2" 0 "Section"
  ++ [plain "bullet_list_open" "ul"]
  ++ listItem 1 false (u "[-] Doing") [textToken (u "[-] Doing")]
  ++ [plain "bullet_list_close" "ul"].

(** ["# Title"], ["## Section"], ["- [ ] A"], ["- [x] B"] *)
Definition sectionWithTwoTasks : list Token :=
  heading "h1" 0 "Title"
  ++ heading "h2" 1 "Section"
  ++ [plain "bullet_list_open" "ul"]
  ++ listItem 2 true (u " A") (checklistInline false " A")
  ++ listItem 3 true (u " B") (checklistInline true " B")
  ++ [plain "bullet_list_close" "ul"].

(** ["## Empty"] *)
Definition emptySection : list Token := heading "h2" 0 "Empty".

(** ["## Work"], ["- [x] A"], ["  - [ ] B"], ["### Notes"], ["- plain"],
    ["## Later"], ["- [!] C"]: a task below a task, a heading whose only
    list item is no checklist item, and a second section. *)
Definition nestedPlan : list Token :=
  heading "h2" 0 "Work"
  ++ [plain "bullet_list_open" "ul"; listItemOpen 1 true;
      plain "paragraph_open" "p";
      inlineToken (u " A") (checklistInline true " A");
      plain "paragraph_close" "p";
      plain "bullet_list_open" "ul"]
  ++ listItem 2 true (u " B") (checklistInline false " B")
  ++ [plain "bullet_list_close" "ul"; plain "list_item_close" "li";
      plain "bullet_list_close" "ul"]
  ++ heading "h3" 3 "Notes"
  ++ [plain "bullet_list_open" "ul"]
  ++ listItem 4 false (u "plain") [textToken (u "plain")]
  ++ [plain "bullet_list_close" "ul"]
  ++ heading "h2" 5 "Later"
  ++ [plain "bullet_list_open" "ul"]
  ++ listItem 6 false (u "[!] C") [textToken (u "[!] C")]
  ++ [plain "bullet_list_close" "ul"].

(** The fields of a node that the examples show, with its subtree. *)
Inductive Outline :=
| outline (type : ItemType) (text : string) (state : option TaskState)
          (status : option AggregatedStatus.t) (level : Z)
          (children : list Outline).

Definition textOf (s : Js.str) : string :=
  string_of_list_ascii ((λ c, ascii_of_N c) <$> s).

Fixpoint outlineOf (item : HierarchyItem) : Outline :=
  match item with
  | mkItem _ ty tx st ag _ lv cs _ =>
      outline ty (textOf tx) st ag lv (outlineOf <$> cs)
  end.

(** The title, the subtitle, the forest and the counts of a plan. *)
Definition summary (result : outcome ParsedPlan)
  : option (string * string * list Outline * nat * StateCount) :=
  match result with
  | Returned p =>
      Some (textOf (title p), textOf (subtitle p), outlineOf <$> tasks p,
            totalCount p, stateCount p)
  | Thrown _ => None
  end.

Definition emptyPlan : ParsedPlan :=
  mkPlan (u "Untitled Plan") (u "PLAN.md") (u "PLAN.md") [] 0
         (mkStateCount 0 0 0 0).

End Examples.

(** ** The hierarchy *)

(** The level of the item at position [j]. *)
Definition levelAt (flat : list FlatItem) (j : nat) : Z :=
  default 0 (f_level <$> flat !! j).

(** [p] is the nearest position before [c] whose level is strictly
    smaller than the level of [c]. *)
Definition isParent (flat : list FlatItem) (p c : nat) : Prop :=
  (p < c < length flat)%nat
  ∧ levelAt flat p < levelAt flat c
  ∧ ∀ m, (p < m < c)%nat → levelAt flat c ≤ levelAt flat m.

(** No position before [c] has a strictly smaller level. *)
Definition isRoot (flat : list FlatItem) (c : nat) : Prop :=
  (c < length flat)%nat
  ∧ ∀ m, (m < c)%nat → levelAt flat c ≤ levelAt flat m.

(** The search for the parent, backwards from position [n - 1]. *)
Fixpoint searchBack (flat : list FlatItem) (lc : Z) (n : nat) : option nat :=
  match n with
  | O => None
  | S j => if bool_decide (levelAt flat j < lc) then Some j
           else searchBack flat lc j
  end.

Definition nearestSmaller (flat : list FlatItem) (c : nat) : option nat :=
  searchBack flat (levelAt flat c) c.

(** An item without its subtree. *)
Definition shell (item : HierarchyItem) : HierarchyItem := withChildren item [].

(** The frame pushed for the item at position [j]. *)
Definition frameOf (flat : list FlatItem) (j : nat) : Frame :=
  mkFrame (levelAt flat j) (ChildrenOf j).

(** [m] lies after the item of the top frame (after nothing when only the
    sentinel is left). *)
Definition above (js : list nat) (m : nat) : Prop :=
  match js with
  | j :: _ => (j < m)%nat
  | [] => True
  end.

(** The frames of the stack, top first, by the position of their item:
    between a frame and the frame below it no item has a smaller level
    than the frame. *)
Fixpoint goodStack (flat : list FlatItem) (js : list nat) : Prop :=
  match js with
  | [] => True
  | j :: below =>
      (∀ m, above below m → (m < j)%nat → levelAt flat j ≤ levelAt flat m)
      ∧ goodStack flat below
  end.

(** The frames left by the [while] loop. *)
Fixpoint pops (flat : list FlatItem) (level : Z) (js : list nat) : list nat :=
  match js with
  | j :: below =>
      if bool_decide (level ≤ levelAt flat j) then pops flat level below else js
  | [] => []
  end.

(** The arrays once the first [k] items are placed. *)
Definition placed (flat : list FlatItem) (k : nat) (store : Store) : Prop :=
  root store = filter (λ c, nearestSmaller flat c = None) (seq 0 k)
  ∧ childrenOf store
    = (λ p, filter (λ c, nearestSmaller flat c = Some p) (seq 0 k))
        <$> seq 0 (length flat)
  ∧ root store ++ concat (childrenOf store) ≡ₚ seq 0 k.

(** What holds of the stack and the store before the turn of item [k]. *)
Definition building (flat : list FlatItem) (k : nat)
    (st : list Frame * Store) : Prop :=
  ∃ js,
    st.1 = (frameOf flat <$> js) ++ [mkFrame 0 RootArray]
    ∧ Forall (λ j, (j < k)%nat) js
    ∧ goodStack flat js
    ∧ (∀ m, above js m → ¬ (m < k)%nat)
    ∧ placed flat k st.2.

(** ** Counting *)

Definition total (counts : StateCount) : nat :=
  (pending counts + done counts + inProgress counts + blocked counts)%nat.

(** A node that [countTasks] counts. *)
Definition counted (item : HierarchyItem) : Prop :=
  type item = Task ∧ is_Some (state item).

Global Instance counted_dec item : Decision (counted item).
Proof. unfold counted. apply _. Defined.

(** The number of checklist items of a flat list: one for each Task,
    nothing for a Heading. *)
Definition taskCount (flat : list FlatItem) : nat :=
  sum_list_with (λ entry, match type (f_item entry) with
                          | Task => 1
                          | Heading => 0
                          end)%nat flat.

(** ** What the extractor emits, token by token *)

(** The conditions under which the heading branch pushes an item. *)
Definition headingAt (tokens : list Token) (i : nat) (token : Token) : bool :=
  hasType "heading_open" token
  && match Js.parseInt (Js.substring 1 (tok_tag token)) with
     | Some headingLevel => bool_decide (2 ≤ headingLevel)
     | None => false
     end
  && match tokens !! (i + 1)%nat with
     | Some contentToken => hasType "inline" contentToken
     | None => false
     end.

(** The conditions under which the task branch pushes an item. *)
Definition taskAt (tokens : list Token) (i : nat) (token : Token) : bool :=
  hasType "list_item_open" token
  && match tokens !! (i + 2)%nat with
     | Some contentToken =>
         match (if hasType "inline" contentToken then tok_children contentToken
                else None) with
         | Some inline =>
             match checkboxOf token contentToken inline with
             | (Some _, text) => Js.truthy text
             | (None, _) => false
             end
         | None => false
         end
     | None => false
     end.

(** The token at position [i] makes the extractor push an item. *)
Definition emits (tokens : list Token) (i : nat) : Prop :=
  ∃ token, tokens !! i = Some token
           ∧ headingAt tokens i token || taskAt tokens i token = true.

Global Instance emits_dec tokens i : Decision (emits tokens i).
Proof.
  unfold emits. destruct (tokens !! i) as [token|].
  - destruct (headingAt tokens i token || taskAt tokens i token) eqn:Hb.
    + left. by exists token.
    + right. intros (t & [= <-] & Ht). congruence.
  - right. by intros (t & [=] & _).
Defined.

(** [entry] is the heading built from the token at position [i]. *)
Definition headingFrom (tokens : list Token) (filePath : Js.str) (i : nat)
    (token : Token) (entry : FlatItem) : Prop :=
  ∃ headingLevel contentToken,
    hasType "heading_open" token = true
    ∧ Js.parseInt (Js.substring 1 (tok_tag token)) = Some headingLevel
    ∧ 2 ≤ headingLevel
    ∧ tokens !! (i + 1)%nat = Some contentToken
    ∧ hasType "inline" contentToken = true
    ∧ entry
      = mkFlat (mkItem (itemId filePath (lineNumberOf token i)) Heading
                       (tok_content contentToken) None None
                       (lineNumberOf token i) headingLevel [] None)
               headingLevel.

(** [entry] is the task built from the token at position [i], when
    [emitted] are the items pushed before it: its level is the level of
    the nearest heading among them, 0 when there is none, plus the list
    nesting depth at the token. *)
Definition taskFrom (tokens : list Token) (filePath : Js.str) (i : nat)
    (token : Token) (emitted : list FlatItem) (entry : FlatItem) : Prop :=
  ∃ contentToken inline state text,
    hasType "list_item_open" token = true
    ∧ tokens !! (i + 2)%nat = Some contentToken
    ∧ hasType "inline" contentToken = true
    ∧ tok_children contentToken = Some inline
    ∧ checkboxOf token contentToken inline = (Some state, text)
    ∧ text ≠ []
    ∧ entry
      = mkFlat (mkItem (itemId filePath (lineNumberOf token i)) Task text
                       (Some state) None (lineNumberOf token i)
                       (nearestHeadingLevel emitted + nestingDepth (take i tokens))
                       [] None)
               (nearestHeadingLevel emitted + nestingDepth (take i tokens)).

(** [entry] is the item built from the token at position [i], pushed
    after the items [emitted]. *)
Definition emittedAt (tokens : list Token) (filePath : Js.str) (i : nat)
    (emitted : list FlatItem) (entry : FlatItem) : Prop :=
  ∃ token, tokens !! i = Some token
           ∧ (headingFrom tokens filePath i token entry
              ∨ taskFrom tokens filePath i token emitted entry).

(** [flat] holds one item for each of the [positions], in their order:
    the [k]-th item is the one built from the token at the [k]-th
    position, pushed after the [k] items before it. *)
Definition traced (tokens : list Token) (filePath : Js.str)
    (positions : list nat) (flat : list FlatItem) : Prop :=
  length flat = length positions
  ∧ ∀ k i entry,
      positions !! k = Some i → flat !! k = Some entry →
      emittedAt tokens filePath i (take k flat) entry.

(** ** The nodes of a plan *)

(** What holds of every item that [parsePlan] creates for the file
    [filePath]: its id is made of the path and the line; a heading has a
    level of at least 2 and no state; a task has a state and a text that is
    not empty and has no white space at either end. *)
Definition wellFormedNode (filePath : Js.str) (item : HierarchyItem) : Prop :=
  id item = itemId filePath (line item)
  ∧ (type item = Heading → 2 ≤ level item ∧ state item = None)
  ∧ (type item = Task →
     is_Some (state item) ∧ text item ≠ [] ∧ Js.trim (text item) = text item).

(** Every child of the node has a greater level than the node. *)
Definition steep (item : HierarchyItem) : Prop :=
  Forall (λ c, level item < level c) (children item).

(** ** The histogram, state by state *)

(** [counts[s]]: the field of the histogram that [counts[item.state]++]
    increments for the state [s]. *)
Definition countOf (s : TaskState) (counts : StateCount) : nat :=
  match s with
  | Pending => pending counts
  | Done => done counts
  | InProgress => inProgress counts
  | Blocked => blocked counts
  end.

(** A Task in the state [s]. *)
Definition inState (s : TaskState) (item : HierarchyItem) : Prop :=
  type item = Task ∧ state item = Some s.

Global Instance inState_dec s item : Decision (inState s item).
Proof. unfold inState. apply _. Defined.

(** ** The marking *)

(** The tree with the flag of every node set to whether the subtree of
    the node contains a Task, and nothing else changed. *)
Fixpoint flaggedItem (item : HierarchyItem) : HierarchyItem :=
  match item with
  | mkItem i ty tx st ag ln lv cs _ =>
      mkItem i ty tx st ag ln lv (flaggedItem <$> cs) (Some (containsTask item))
  end.

(** ** Title and subtitle *)

(** The characters at which [filePath.split(/[/\\]/)] cuts. *)
Definition isSeparator (c : N) : bool := ((c =? 47) || (c =? 92))%N.

(** White space within a line. *)
Definition blank (s : Js.str) : Prop :=
  Forall (λ c, Js.isWhiteSpace c = true ∧ c ≠ 10%N) s.

(** ** Standard checklist items *)

(** The test with which the extractor looks for the [<input>] element
    among the children of the inline token. *)
Definition isCheckbox (c : Token) : bool :=
  hasType "html_inline" c
  && Js.includes (u "task-list-item-checkbox") (tok_content c).

(** The text of the children that are no HTML, joined and trimmed. *)
Definition visibleText (inline : list Token) : Js.str :=
  Js.trim (Js.join (tok_content <$>
                      filter (λ c, tok_type c ≠ u "html_inline") inline)).

(** ** The provider *)

(** The call that took the provider from [p] to [p'] posted [messages] to
    the view, and nothing when there is no view. *)
Definition postedBy {Mtime} (p p' : Provider.t Mtime)
    (messages : list Provider.Message) : Prop :=
  Provider._view p' = (λ posted, posted ++ messages) <$> Provider._view p.

(** The files that [_discoverPlanFiles] finds. *)
Definition discovered {Mtime} (env : Provider.Environment Mtime)
  : list Provider.Uri :=
  match Provider.workspaceFolder env with
  | Some _ => Provider.findPlanFiles env
  | None => []
  end.

(** The file that [refreshView] reloads when [current] is the current
    file and [files] are the files found: [current], unless it is no
    longer among the files and there is another one. *)
Definition refreshTarget (files : list Provider.Uri) (current : Provider.Uri)
  : Provider.Uri :=
  match files with
  | first :: _ =>
      if existsb (λ f, bool_decide (Provider.fsPath f = Provider.fsPath current))
                 files
      then current else first
  | [] => current
  end.

(** A provider with a view, one plan file and an empty cache; a file
    system on which every [stat] and every [readFile] gives the same
    answer. *)
Module ProviderExamples.

Definition planUri : Provider.Uri := Provider.mkUri (u "/work/PLAN.md").

Definition disk (mtimeMs : outcome Z) (content : outcome Js.str)
  : Provider.Environment Z :=
  Provider.mkEnvironment (λ _, mtimeMs) (λ _, content)
                         (λ _, Returned (u "PLAN.md"))
                         (Some (Provider.mkUri (u "/work"))) [planUri].

Definition withCache (c : PlanCache.t Z) : Provider.t Z :=
  Provider.mkProvider (Some []) c [planUri] None false.

Definition cached (mtimeMs : Z) (plan : ParsedPlan) : PlanCache.t Z :=
  PlanCache.mkCache (<[u "/work/PLAN.md" := PlanCache.mkEntry mtimeMs plan]> ∅) [].

End ProviderExamples.

(** * Properties *)

(** ** Lists *)

Lemma filter_none {A} (P : A → Prop) `{∀ x, Decision (P x)} (l : list A) :
  Forall (λ x, ¬ P x) l → filter P l = [].
Proof.
  induction 1 as [|x l Hx _ IH]; [done|]. by rewrite filter_cons_False.
Qed.

Lemma filter_ext_in {A} (P Q : A → Prop)
    `{∀ x, Decision (P x)} `{∀ x, Decision (Q x)} (l : list A) :
  (∀ x, x ∈ l → P x ↔ Q x) → filter P l = filter Q l.
Proof.
  induction l as [|x l IH]; intros Hiff; [done|].
  rewrite !filter_cons. rewrite IH by (intros y Hy; apply Hiff; by right).
  destruct (decide (P x)) as [Hx|Hx].
  - rewrite decide_True; [done|]. apply Hiff; [left|done].
  - rewrite decide_False; [done|]. intros HQ. apply Hx, Hiff; [left|done].
Qed.

(** ** Trees *)

Lemma HierarchyItem_forest_ind (P : HierarchyItem → Prop) :
  (∀ i ty tx st ag ln lv cs h,
      Forall P cs → P (mkItem i ty tx st ag ln lv cs h)) →
  ∀ item, P item.
Proof.
  intros step. fix IH 1. intros [i ty tx st ag ln lv cs h].
  apply step. induction cs as [|c cs IHcs]; constructor; [apply IH | exact IHcs].
Qed.

Lemma nodes_unfold item : nodes item = item :: allNodes (children item).
Proof. by destruct item. Qed.

Lemma nonEmpty_false {A} (l : list A) : nonEmpty l = false → l = [].
Proof. by destruct l. Qed.

Lemma containsTask_unfold item :
  containsTask item
  = bool_decide (isTask item) || existsb containsTask (children item).
Proof.
  unfold containsTask at 1. rewrite nodes_unfold.
  apply eq_true_iff_eq. rewrite orb_true_iff, !bool_decide_eq_true.
  rewrite Exists_cons, existsb_exists. unfold allNodes.
  rewrite Exists_exists. setoid_rewrite list_elem_of_bind.
  unfold containsTask. setoid_rewrite bool_decide_eq_true.
  setoid_rewrite Exists_exists. setoid_rewrite <- list_elem_of_In.
  naive_solver.
Qed.

(** ** The branch filter *)

Lemma markItem_unfold item :
  markItem item
  = match type item with
    | Task =>
        (mkItem (id item) Task (text item) (state item) (aggregatedStatus item)
                (line item) (level item) (markTaskDescendants (children item)).1
                (Some true), true)
    | Heading =>
        let r := markTaskDescendants (children item) in
        if nonEmpty (children item)
        then (mkItem (id item) Heading (text item) (state item)
                     (aggregatedStatus item) (line item) (level item) r.1
                     (Some r.2), r.2)
        else (mkItem (id item) Heading (text item) (state item)
                     (aggregatedStatus item) (line item) (level item) []
                     (Some false), false)
    end.
Proof.
  destruct item as [i ty tx st ag ln lv cs h]; csimpl.
  destruct ty; [by destruct cs | by destruct cs].
Qed.

(** The value [markTaskDescendants] returns for an item says whether its
    subtree contains a task, and that is the flag it stores. *)
Lemma markItem_flag item :
  (markItem item).2 = containsTask item
  ∧ hasTaskDescendants (markItem item).1 = Some (containsTask item).
Proof.
  induction item as [i ty tx st ag ln lv cs h IH] using HierarchyItem_forest_ind.
  rewrite markItem_unfold, containsTask_unfold; csimpl.
  assert (existsb snd (markItem <$> cs) = existsb containsTask cs) as Hcs.
  { induction IH as [|c cs' [Hc _] _ IHcs]; [done|]. csimpl. by rewrite Hc, IHcs. }
  destruct ty; csimpl.
  - destruct cs; csimpl in *; [done|]. by rewrite Hcs.
  - done.
Qed.

Lemma kept_markItem item : kept (markItem item).1 = containsTask item.
Proof.
  unfold kept. rewrite (proj2 (markItem_flag item)). by destruct (containsTask item).
Qed.

Lemma filterItem_unfold item :
  filterItem item = withChildren item (filterTaskBranches (children item)).
Proof. by destruct item. Qed.

(** [filterTaskBranches] is the [filter] followed by the [map] of the
    source. *)
Lemma filterTaskBranches_filter_map items :
  filterTaskBranches items
  = (λ item, withChildren item (filterTaskBranches (children item)))
      <$> filter (λ item, kept item = true) items.
Proof.
  unfold filterTaskBranches at 1.
  induction items as [|c items IH]; [done|].
  rewrite filter_cons. csimpl. destruct (kept c) eqn:Hk.
  - rewrite decide_True by done. csimpl. by rewrite IH, filterItem_unfold.
  - rewrite decide_False by done. exact IH.
Qed.

Lemma pruned_filter_map items :
  pruned items
  = (λ item, withChildren (prunedItem item) (pruned (children item)))
      <$> filter (λ item, containsTask item = true) items.
Proof.
  unfold pruned at 1.
  induction items as [|c items IH]; [done|].
  rewrite filter_cons. csimpl. destruct (containsTask c) eqn:Hk.
  - rewrite decide_True by done. csimpl. rewrite IH. by destruct c.
  - rewrite decide_False by done. exact IH.
Qed.

Lemma filter_mark_item item :
  containsTask item = true →
  filterItem (markItem item).1 = prunedItem item.
Proof.
  induction item as [i ty tx st ag ln lv cs h IH] using HierarchyItem_forest_ind.
  assert (omap (λ c, if kept c then Some (filterItem c) else None) (markItem <$> cs).*1
          = omap (λ c, if containsTask c then Some (prunedItem c) else None) cs) as Hcs.
  { induction IH as [|c cs' Hc _ IHcs]; [done|].
    csimpl. rewrite kept_markItem. destruct (containsTask c) eqn:Hk.
    - by rewrite Hc, IHcs.
    - exact IHcs. }
  intros Hitem.
  pose proof (markItem_flag (mkItem i ty tx st ag ln lv cs h)) as [_ Hflag].
  rewrite Hitem in Hflag.
  rewrite markItem_unfold in *; csimpl in *.
  destruct ty; csimpl in *.
  - destruct cs as [|c cs]; csimpl in *.
    + by rewrite containsTask_unfold in Hitem.
    + injection Hflag as ->. unfold filterTaskBranches. by rewrite Hcs.
  - unfold filterTaskBranches. by rewrite Hcs.
Qed.

Lemma filter_mark items :
  filterTaskBranches (markTaskDescendants items).1 = pruned items.
Proof.
  unfold filterTaskBranches, markTaskDescendants, pruned; csimpl.
  induction items as [|c items IH]; [done|].
  csimpl. rewrite kept_markItem. destruct (containsTask c) eqn:Hk.
  - by rewrite filter_mark_item, IH.
  - exact IH.
Qed.

Lemma containsTask_prunedItem item :
  containsTask (prunedItem item) = containsTask item.
Proof.
  induction item as [i ty tx st ag ln lv cs h IH] using HierarchyItem_forest_ind.
  rewrite !containsTask_unfold. csimpl. f_equal.
  induction IH as [|c cs' Hc _ IHcs]; [done|].
  csimpl. destruct (containsTask c) eqn:Hk; csimpl.
  - by rewrite Hc.
  - exact IHcs.
Qed.

Lemma pruned_nodes_item item :
  containsTask item = true →
  Forall (λ n, hasTaskDescendants n = Some true ∧ containsTask n = true)
         (nodes (prunedItem item)).
Proof.
  induction item as [i ty tx st ag ln lv cs h IH] using HierarchyItem_forest_ind.
  intros Hitem. change (prunedItem (mkItem i ty tx st ag ln lv cs h))
    with (mkItem i ty tx st ag ln lv (pruned cs) (Some true)).
  rewrite nodes_unfold. constructor.
  - split; [done|].
    change (mkItem i ty tx st ag ln lv (pruned cs) (Some true))
      with (prunedItem (mkItem i ty tx st ag ln lv cs h)).
    by rewrite containsTask_prunedItem.
  - csimpl. unfold allNodes, pruned. clear Hitem.
    induction IH as [|c cs' Hc _ IHcs]; [constructor|].
    csimpl. destruct (containsTask c) eqn:Hk; [|exact IHcs].
    csimpl. apply Forall_app. split; [by apply Hc | exact IHcs].
Qed.

Lemma pruned_nodes items :
  Forall (λ n, hasTaskDescendants n = Some true ∧ containsTask n = true)
         (allNodes (pruned items)).
Proof.
  unfold allNodes, pruned. induction items as [|c items IH]; [constructor|].
  csimpl. destruct (containsTask c) eqn:Hk; [|exact IH].
  csimpl. apply Forall_app. split; [by apply pruned_nodes_item | exact IH].
Qed.

(** The survivors on each level are the items whose subtree contains a
    task, in their order. *)
Lemma core_pruned items :
  core <$> pruned items = core <$> filter (λ c, containsTask c = true) items.
Proof.
  rewrite pruned_filter_map, <- list_fmap_compose.
  apply list_fmap_ext. by intros _ [] _.
Qed.

Lemma no_task_nodes item :
  containsTask item = false → filter isTask (nodes item) = [].
Proof.
  intros Hk. apply bool_decide_eq_false in Hk.
  apply filter_none, Forall_forall. intros n Hn Htask.
  apply Hk, Exists_exists. eauto.
Qed.

(** No task is dropped: the tasks of the pruned forest are the tasks of
    the forest, in the same order. *)
Lemma tasks_prunedItem item :
  core <$> filter isTask (nodes (prunedItem item))
  = core <$> filter isTask (nodes item).
Proof.
  induction item as [i ty tx st ag ln lv cs h IH] using HierarchyItem_forest_ind.
  change (prunedItem (mkItem i ty tx st ag ln lv cs h))
    with (mkItem i ty tx st ag ln lv (pruned cs) (Some true)).
  rewrite !nodes_unfold, !filter_cons. csimpl.
  assert (core <$> filter isTask (allNodes (pruned cs))
          = core <$> filter isTask (allNodes cs)) as Hcs.
  { unfold allNodes, pruned.
    induction IH as [|c cs' Hc _ IHcs]; [done|]. csimpl.
    destruct (containsTask c) eqn:Hk; csimpl.
    - by rewrite !filter_app, !fmap_app, Hc, IHcs.
    - rewrite filter_app, fmap_app, <- IHcs.
      by rewrite (no_task_nodes c Hk). }
  destruct ty.
  - rewrite !decide_False by (by unfold isTask). exact Hcs.
  - rewrite !decide_True by (by unfold isTask). csimpl. by rewrite Hcs.
Qed.

Lemma tasks_pruned items :
  core <$> filter isTask (allNodes (pruned items))
  = core <$> filter isTask (allNodes items).
Proof.
  unfold allNodes, pruned.
  induction items as [|c items IH]; [done|]. csimpl.
  destruct (containsTask c) eqn:Hk; csimpl.
  - by rewrite !filter_app, !fmap_app, tasks_prunedItem, IH.
  - rewrite filter_app, fmap_app, <- IH.
    by rewrite (no_task_nodes c Hk).
Qed.

(** C3. For every forest, marking and then filtering gives the forest
    pruned as the specification says: the nodes whose subtree (the node
    included) contains no Task are removed and no other; every node that
    is left is flagged and has a Task in its subtree; the survivors keep
    their order, on the top level and in every [children] array. *)
Theorem branch_filter_exact (items : list HierarchyItem) :
  let out := filterTaskBranches (markTaskDescendants items).1 in
  out = pruned items
  ∧ Forall (λ n, hasTaskDescendants n = Some true ∧ containsTask n = true)
           (allNodes out)
  ∧ core <$> out = core <$> filter (λ c, containsTask c = true) items
  ∧ (∀ item, children (prunedItem item)
             = (λ c, withChildren (prunedItem c) (pruned (children c)))
                 <$> filter (λ c, containsTask c = true) (children item))
  ∧ core <$> filter isTask (allNodes out)
    = core <$> filter isTask (allNodes items).
Proof.
  intros out. unfold out. rewrite filter_mark.
  split; [done|]. split; [apply pruned_nodes|].
  split; [apply core_pruned|]. split; [|apply tasks_pruned].
  intros [i ty tx st ag ln lv cs h]. apply (pruned_filter_map cs).
Qed.

(** ** The status aggregator *)

Lemma collectDescendantTasks_unfold item :
  collectDescendantTasks item
  = children item ≫= (λ child,
      (if decide (type child = Task) then [child] else [])
      ++ (if nonEmpty (children child) then collectDescendantTasks child else [])).
Proof. by destruct item. Qed.

(** [collectDescendantTasks] gathers the Task nodes among the transitive
    descendants. *)
Lemma collectDescendantTasks_descendants item :
  collectDescendantTasks item = filter isTask (descendants item).
Proof.
  induction item as [i ty tx st ag ln lv cs h IH] using HierarchyItem_forest_ind.
  rewrite collectDescendantTasks_unfold. unfold descendants, allNodes. csimpl.
  induction IH as [|c cs' Hc _ IHcs]; [done|].
  rewrite !bind_cons, filter_app, IHcs. f_equal.
  rewrite nodes_unfold, filter_cons.
  assert ((if nonEmpty (children c) then collectDescendantTasks c else [])
          = filter isTask (allNodes (children c))) as ->.
  { destruct (children c) eqn:Hch; csimpl; [done|].
    rewrite Hc. unfold descendants. by rewrite Hch. }
  destruct (decide (type c = Task)) as [Ht|Ht];
    [by rewrite decide_True | by rewrite decide_False].
Qed.

Lemma filter_all_length {A} (P : A → Prop) `{∀ x, Decision (P x)} (l : list A) :
  length (filter P l) = length l ↔ Forall P l.
Proof.
  induction l as [|x l IH]; [by split|].
  rewrite filter_cons. destruct (decide (P x)) as [Hx|Hx]; csimpl.
  - rewrite Forall_cons. split.
    + intros Hl. split; [done|]. apply IH. lia.
    + intros [_ Hl]. f_equal. by apply IH.
  - pose proof (length_filter P l). split; [lia|].
    intros Hl. by apply Forall_cons in Hl as [? _].
Qed.

Lemma filter_some_length {A} (P : A → Prop) `{∀ x, Decision (P x)} (l : list A) :
  (0 < length (filter P l))%nat ↔ Exists P l.
Proof.
  induction l as [|x l IH].
  - csimpl. rewrite Exists_nil. lia.
  - rewrite filter_cons, Exists_cons. destruct (decide (P x)); csimpl.
    + split; [by left | lia].
    + rewrite IH. naive_solver.
Qed.

(** The counting of the code chooses the status that the specification
    describes. *)
Lemma statusOf_spec ts : statusOf ts = aggregateSpec ts.
Proof.
  unfold statusOf, aggregateSpec.
  destruct ts as [|t ts]; [done|].
  rewrite decide_False, bool_decide_eq_false_2 by done.
  set (l := t :: ts).
  destruct (decide (length (filter (λ t, state t = Some Done) l) = length l))
    as [Hall|Hall].
  - apply filter_all_length in Hall. by rewrite bool_decide_eq_true_2.
  - rewrite bool_decide_eq_false_2 by (by rewrite <- filter_all_length).
    destruct (decide (0 < length (filter (λ t, state t = Some Done) l))%nat)
      as [Hsome|Hsome].
    + apply filter_some_length in Hsome. by rewrite bool_decide_eq_true_2.
    + by rewrite bool_decide_eq_false_2 by (by rewrite <- filter_some_length).
Qed.

Lemma aggregateItem_unfold item :
  aggregateItem item
  = if nonEmpty (children item) then
      let cs' := calculateAggregatedStatus (children item) in
      mkItem (id item) (type item) (text item) (state item)
             (Some (statusOf (collectDescendantTasks (withChildren item cs'))))
             (line item) (level item) cs' (hasTaskDescendants item)
    else item.
Proof. by destruct item. Qed.

Lemma aggregateItem_nodes item :
  Forall (λ n, aggregatedStatus n = None) (nodes item) →
  Forall aggregated (nodes (aggregateItem item)).
Proof.
  induction item as [i ty tx st ag ln lv cs h IH] using HierarchyItem_forest_ind.
  rewrite aggregateItem_unfold, (nodes_unfold (mkItem _ _ _ _ _ _ _ _ _)), Forall_cons.
  csimpl. intros [-> Hcs].
  destruct (nonEmpty cs) eqn:Hne.
  - rewrite nodes_unfold, Forall_cons. csimpl. split.
    + unfold aggregated, calculateAggregatedStatus. csimpl.
      assert (nonEmpty (aggregateItem <$> cs) = true) as -> by (by destruct cs).
      f_equal. by rewrite <- collectDescendantTasks_descendants, <- statusOf_spec.
    + unfold allNodes, calculateAggregatedStatus in *. clear Hne.
      induction IH as [|c' cs' Hc _ IHcs]; [constructor|].
      rewrite bind_cons, Forall_app in Hcs. destruct Hcs as [Hc' Hcs'].
      rewrite fmap_cons, bind_cons, Forall_app. auto.
  - apply nonEmpty_false in Hne as ->. repeat constructor.
Qed.

Lemma calculateAggregatedStatus_nodes items :
  Forall (λ n, aggregatedStatus n = None) (allNodes items) →
  Forall aggregated (allNodes (calculateAggregatedStatus items)).
Proof.
  unfold allNodes, calculateAggregatedStatus.
  induction items as [|c items IH]; [constructor|].
  rewrite fmap_cons, !bind_cons, !Forall_app.
  intros [Hc Hitems]. split; [by apply aggregateItem_nodes | by apply IH].
Qed.

(** ** The plan cache *)

Section CacheProperties.

Context {Mtime : Type} `{EqDecision Mtime}.
Implicit Types (stat : PlanCache.FileSystem Mtime) (c : PlanCache.t Mtime).
Implicit Types (plan : ParsedPlan) (P : Js.str).

(** A lookup never changes the map and never throws. *)
Lemma get_returns stat P c :
  ∃ r c', PlanCache.get stat P c = Returned (r, c')
          ∧ PlanCache.cache c' = PlanCache.cache c.
Proof.
  unfold PlanCache.get, PlanCache.tryCatch, bind.
  destruct (stat P) as [m|e]; [|by eauto].
  destruct (PlanCache.cache c !! P) as [e|]; [|by eauto].
  destruct (decide (PlanCache.mtime e = m)); by eauto.
Qed.

(** A hit needs an entry with the timestamp that [stat] reports now. *)
Lemma get_Some stat P c plan c' :
  PlanCache.get stat P c = Returned (Some plan, c') ↔
  ∃ entry, stat P = Returned (PlanCache.mtime entry)
           ∧ PlanCache.cache c !! P = Some entry
           ∧ PlanCache.parsed entry = plan
           ∧ c' = PlanCache.appendLine (u "Cache hit: " ++ P) c.
Proof.
  unfold PlanCache.get, PlanCache.tryCatch, bind.
  destruct (stat P) as [m|e]; [|naive_solver].
  destruct (PlanCache.cache c !! P) as [e|]; [|naive_solver].
  destruct (decide (PlanCache.mtime e = m)); naive_solver.
Qed.

(** C4. After [set] has stored [plan] for [P] with the timestamp [T] it
    read, a later [get] of [P] returns that plan when the timestamp that
    [stat] reports is still [T], and [null] when it reports another one;
    a [get] of a path that has no entry returns [null]. *)
Theorem cache_set_get stat1 stat2 P plan c T :
  stat1 P = Returned T →
  ∃ c1, PlanCache.set stat1 P plan c = Returned c1
    ∧ PlanCache.cache c1 !! P = Some (PlanCache.mkEntry T plan)
    ∧ (stat2 P = Returned T →
       ∃ c2, PlanCache.get stat2 P c1 = Returned (Some plan, c2))
    ∧ (∀ T', stat2 P = Returned T' → T' ≠ T →
       ∃ c2, PlanCache.get stat2 P c1 = Returned (None, c2))
    ∧ (∀ c0 Q, PlanCache.cache c0 !! Q = None →
       ∃ c2, PlanCache.get stat2 Q c0 = Returned (None, c2)).
Proof.
  intros Hstat. unfold PlanCache.set, PlanCache.tryCatch, bind. rewrite Hstat.
  eexists. split; [done|]. csimpl. rewrite lookup_insert_eq.
  split; [done|]. repeat split.
  - intros Hnow. unfold PlanCache.get, PlanCache.tryCatch, bind. csimpl.
    rewrite Hnow, lookup_insert_eq. csimpl. rewrite decide_True by done. eauto.
  - intros T' Hnow Hne. unfold PlanCache.get, PlanCache.tryCatch, bind. csimpl.
    rewrite Hnow, lookup_insert_eq. csimpl. rewrite decide_False by done. eauto.
  - intros c0 Q Hnone. unfold PlanCache.get, PlanCache.tryCatch, bind.
    rewrite Hnone. destruct (stat2 Q); eauto.
Qed.

(** C7. When [stat] fails for [P], [get] returns [null] and [set]
    completes, neither throws, and the map is left as it was. *)
Theorem cache_stat_failure stat P plan c error :
  stat P = Thrown error →
  (∃ c', PlanCache.get stat P c = Returned (None, c')
         ∧ PlanCache.cache c' = PlanCache.cache c)
  ∧ (∃ c', PlanCache.set stat P plan c = Returned c'
           ∧ PlanCache.cache c' = PlanCache.cache c).
Proof.
  intros Hstat.
  unfold PlanCache.get, PlanCache.set, PlanCache.tryCatch, bind.
  rewrite Hstat. split; eexists; (split; [reflexivity|done]).
Qed.

End CacheProperties.

(** ** The extractor *)

Lemma nestingDepth_snoc before token :
  nestingDepth (before ++ [token])
  = nestingDepth before
    + (if decide (opensList token) then 1 else 0)
    - (if decide (closesList token) then 1 else 0).
Proof.
  unfold nestingDepth. rewrite !filter_app, !length_app, !filter_cons, !filter_nil.
  destruct (decide (opensList token)), (decide (closesList token)); csimpl; lia.
Qed.

Lemma nestingDepth_item before token :
  hasType "list_item_open" token = true →
  nestingDepth (before ++ [token]) = nestingDepth before.
Proof.
  intros Hty%bool_decide_eq_true. rewrite nestingDepth_snoc.
  assert (¬ opensList token ∧ ¬ closesList token) as [Ho Hc].
  { unfold closesList, opensList. rewrite Hty.
    split; intros [Heq|Heq]; vm_compute in Heq; discriminate. }
  rewrite (decide_False _ _ Ho), (decide_False _ _ Hc). lia.
Qed.

Lemma trackListDepth_spec token st :
  trackListDepth token st
  = mkExtract (flatItems st)
      (listDepth st + (if decide (opensList token) then 1 else 0)
       - (if decide (closesList token) then 1 else 0))
      (lineCounter st).
Proof.
  unfold trackListDepth, hasType.
  assert (∀ a b : Js.str,
    bool_decide (tok_type token = a) || bool_decide (tok_type token = b)
    = bool_decide (tok_type token = a ∨ tok_type token = b)) as Hor.
  { intros a b. apply eq_true_iff_eq.
    by rewrite orb_true_iff, !bool_decide_eq_true. }
  rewrite !Hor. fold (opensList token) (closesList token).
  destruct st as [flat depth counter]; csimpl.
  repeat case_bool_decide; repeat case_decide; csimpl; try tauto; f_equal; lia.
Qed.

Lemma nearestHeadingLevel_snoc emitted entry :
  nearestHeadingLevel (emitted ++ [entry])
  = if decide (type (f_item entry) = Heading) then level (f_item entry)
    else nearestHeadingLevel emitted.
Proof.
  unfold nearestHeadingLevel. rewrite filter_app, filter_cons, filter_nil.
  destruct (decide (type (f_item entry) = Heading)) as [Hh|Hh].
  - rewrite decide_True by done. by rewrite last_snoc.
  - rewrite decide_False by done. by rewrite app_nil_r.
Qed.

(** The backwards loop finds the level of the nearest heading, and its
    reads stay inside the array. *)
Lemma lastHeadingLevel_spec flat n :
  (n ≤ length flat)%nat →
  Forall (λ e, level (f_item e) = f_level e) flat →
  lastHeadingLevel flat n = Returned (nearestHeadingLevel (take n flat)).
Proof.
  intros Hn Hlevels. induction n as [|j IH]; [done|].
  destruct (lookup_lt_is_Some_2 flat j) as [entry Hentry]; [lia|].
  rewrite (take_S_r _ _ _ Hentry), nearestHeadingLevel_snoc.
  csimpl. rewrite Hentry. csimpl.
  destruct (decide (type (f_item entry) = Heading)).
  - f_equal. symmetry. eapply (Forall_lookup_1 _ _ _ _ Hlevels Hentry).
  - apply IH. lia.
Qed.

Lemma flatOK_nil tokens : flatOK tokens [].
Proof. by intros k entry. Qed.

Lemma flatOK_snoc tokens flat entry :
  flatOK tokens flat → extracted entry → taskLevelOK tokens flat entry →
  flatOK tokens (flat ++ [entry]).
Proof.
  intros Hflat He Hlevel k e Hk.
  destruct (decide (k < length flat)%nat) as [Hlt|Hge].
  - rewrite lookup_app_l in Hk by done. rewrite take_app_le by lia.
    by apply Hflat.
  - apply lookup_lt_Some in Hk as Hlen. rewrite length_app in Hlen. csimpl in *.
    assert (k = length flat) as -> by lia.
    rewrite list_lookup_middle in Hk by done. injection Hk as <-.
    rewrite take_app_le, firstn_all by lia. done.
Qed.

Lemma flatOK_levels tokens flat :
  flatOK tokens flat → Forall (λ e, level (f_item e) = f_level e) flat.
Proof.
  intros Hflat. apply Forall_lookup. intros k e Hk.
  by destruct (Hflat k e Hk) as [(_ & _ & _ & ? & _) _].
Qed.

(** The heading branch appends at most one entry, a heading. *)
Lemma extractHeading_spec tokens filePath i token st :
  ∃ new,
    extractHeading tokens filePath i token st
    = mkExtract (flatItems st ++ new) (listDepth st) (lineCounter st)
    ∧ (new = [] ∨ ∃ e, new = [e] ∧ type (f_item e) = Heading ∧ extracted e).
Proof.
  unfold extractHeading.
  assert (∃ new, st = mkExtract (flatItems st ++ new) (listDepth st) (lineCounter st)
                 ∧ (new = [] ∨ ∃ e, new = [e] ∧ type (f_item e) = Heading
                                    ∧ extracted e)) as Hsame.
  { exists []. rewrite app_nil_r. split; [by destruct st | by left]. }
  destruct (hasType "heading_open" token); [|done].
  destruct (Js.parseInt _) as [headingLevel|]; [|done].
  destruct (2 <=? headingLevel); [|done].
  destruct (tokens !! (i + 1)%nat) as [contentToken|]; [|done].
  destruct (hasType "inline" contentToken); [|done].
  eexists [_]. split; [done|]. right. eexists. split; [done|].
  repeat split; done.
Qed.

(** The task branch returns, and appends at most one entry, a task whose
    level is the level of the last heading plus [listDepth]. *)
Lemma extractTask_spec tokens filePath i token st :
  Forall (λ e, level (f_item e) = f_level e) (flatItems st) →
  ∃ new,
    extractTask tokens filePath i token st
    = Returned (mkExtract (flatItems st ++ new) (listDepth st) (lineCounter st))
    ∧ (new = [] ∨
       ∃ e, new = [e] ∧ type (f_item e) = Task ∧ extracted e
            ∧ hasType "list_item_open" token = true
            ∧ level (f_item e)
              = nearestHeadingLevel (flatItems st) + listDepth st).
Proof.
  intros Hlevels. unfold extractTask.
  assert (∃ new,
    Returned st
    = Returned (mkExtract (flatItems st ++ new) (listDepth st) (lineCounter st))
    ∧ (new = [] ∨
       ∃ e, new = [e] ∧ type (f_item e) = Task ∧ extracted e
            ∧ hasType "list_item_open" token = true
            ∧ level (f_item e)
              = nearestHeadingLevel (flatItems st) + listDepth st)) as Hsame.
  { exists []. rewrite app_nil_r. split; [by destruct st | by left]. }
  destruct (hasType "list_item_open" token) eqn:Hitem; [|done].
  destruct (tokens !! (i + 2)%nat) as [contentToken|]; [|done].
  destruct (if hasType "inline" contentToken then tok_children contentToken
            else None) as [inline|]; [|done].
  destruct (checkboxOf token contentToken inline) as [[state|] text]; [|done].
  destruct (Js.truthy text); [|done].
  rewrite lastHeadingLevel_spec, firstn_all by done. csimpl.
  eexists [_]. split; [done|]. right. eexists. split; [done|].
  repeat split; csimpl; eauto.
Qed.

(** One turn of the extractor loop. *)
Lemma extractToken_spec tokens filePath st i token :
  tokens !! i = Some token →
  flatOK tokens (flatItems st) →
  listDepth st = nestingDepth (take i tokens) →
  ∃ st', extractToken tokens filePath st i = Returned st'
    ∧ flatOK tokens (flatItems st')
    ∧ listDepth st' = nestingDepth (take (S i) tokens).
Proof.
  intros Htoken Hflat Hdepth. unfold extractToken. rewrite Htoken. csimpl.
  destruct (extractHeading_spec tokens filePath i token st) as (new1 & -> & Hnew1).
  rewrite trackListDepth_spec. csimpl.
  set (flat1 := flatItems st ++ new1).
  assert (flatOK tokens flat1) as Hflat1.
  { destruct Hnew1 as [->|(e & -> & Hhead & He)].
    - unfold flat1. by rewrite app_nil_r.
    - apply flatOK_snoc; [done..|]. intros Htask. congruence. }
  set (depth1 := listDepth st + _ - _).
  assert (depth1 = nestingDepth (take (S i) tokens)) as Hdepth1.
  { unfold depth1. by rewrite (take_S_r _ _ _ Htoken), nestingDepth_snoc, Hdepth. }
  destruct (extractTask_spec tokens filePath i token
              (mkExtract flat1 depth1 (lineCounter st)))
    as (new2 & -> & Hnew2); [by eapply flatOK_levels|].
  csimpl. eexists. split; [done|]. csimpl. split; [|done].
  destruct Hnew2 as [->|(e & -> & Htask & He & Hitem & Hlevel)].
  - by rewrite app_nil_r.
  - apply flatOK_snoc; [done..|]. intros _. exists i, token.
    split; [done|]. split; [done|]. rewrite Hlevel, Hdepth1.
    by rewrite (take_S_r _ _ _ Htoken), nestingDepth_item.
Qed.

Lemma extract_loop tokens filePath n :
  ∀ start st,
    (start + n ≤ length tokens)%nat →
    flatOK tokens (flatItems st) →
    listDepth st = nestingDepth (take start tokens) →
    ∃ st', forEach (extractToken tokens filePath) (seq start n) st = Returned st'
      ∧ flatOK tokens (flatItems st').
Proof.
  induction n as [|n IH]; intros start st Hlen Hflat Hdepth; [by eauto|].
  destruct (lookup_lt_is_Some_2 tokens start) as [token Htoken]; [lia|].
  destruct (extractToken_spec tokens filePath st start token)
    as (st1 & Hstep & Hflat1 & Hdepth1); [done..|].
  csimpl. rewrite Hstep. csimpl. apply IH; [lia|done..].
Qed.

(** The extractor returns for every token sequence, and every entry of
    its result is as the loop creates it. *)
Lemma extractItems_spec tokens filePath :
  ∃ flat, extractItems tokens filePath = Returned flat ∧ flatOK tokens flat.
Proof.
  destruct (extract_loop tokens filePath (length tokens) 0 (mkExtract [] 0 0))
    as (st & Hloop & Hflat); [done|apply flatOK_nil|done|].
  unfold extractItems. rewrite Hloop. eauto.
Qed.

Lemma lastHeadingLevel_returns flat n :
  (n ≤ length flat)%nat → ∃ z, lastHeadingLevel flat n = Returned z.
Proof.
  intros Hn. induction n as [|j IH]; [by eexists|].
  destruct (lookup_lt_is_Some_2 flat j) as [entry Hentry]; [lia|].
  csimpl. rewrite Hentry. csimpl.
  destruct (decide (type (f_item entry) = Heading)); [by eexists|].
  apply IH. lia.
Qed.

Lemma trimStart_idemp s : Js.trimStart (Js.trimStart s) = Js.trimStart s.
Proof.
  induction s as [|c s IH]; [done|]. csimpl.
  destruct (Js.isWhiteSpace c) eqn:Hc; [done|]. csimpl. by rewrite Hc.
Qed.

Lemma truthy_true s : s ≠ [] → Js.truthy s = true.
Proof. by destruct s. Qed.

Lemma startsWith_app m rest : Js.startsWith m (m ++ rest) = true.
Proof. induction m as [|c m IH]; [done|]. csimpl. by rewrite N.eqb_refl. Qed.

Lemma stripMarker_app m rest : Js.stripMarker m (m ++ rest) = Js.trimStart rest.
Proof. unfold Js.stripMarker. by rewrite startsWith_app, drop_app_length. Qed.

Lemma trim_trimStart s : Js.trim (Js.trimStart s) = Js.trim s.
Proof. unfold Js.trim. by rewrite trimStart_idemp. Qed.

(** The custom markers the parser knows, on a list item the plugin left
    alone. *)
Lemma checkboxOf_custom token contentToken inline marker state rest :
  hasTaskClass token = false →
  (marker, state) ∈ [(u "[-]", InProgress); (u "[!]", Blocked)] →
  tok_content contentToken = marker ++ rest →
  checkboxOf token contentToken inline = (Some state, Js.trim rest).
Proof.
  intros Hclass Hmarker Hcontent. unfold checkboxOf. rewrite Hclass, Hcontent.
  apply list_elem_of_In in Hmarker.
  destruct Hmarker as [[= <- <-]|[[= <- <-]|[]]].
  - by rewrite startsWith_app, stripMarker_app, trim_trimStart.
  - assert (Js.startsWith (u "[-]") (u "[!]" ++ rest) = false) as -> by done.
    by rewrite startsWith_app, stripMarker_app, trim_trimStart.
Qed.

Lemma checkboxOf_arrow token contentToken inline rest :
  hasTaskClass token = false →
  tok_content contentToken = u "[>]" ++ rest →
  checkboxOf token contentToken inline = (None, []).
Proof.
  intros Hclass Hraw. unfold checkboxOf. by rewrite Hclass, Hraw.
Qed.

(** At a list item the heading branch does nothing. *)
Lemma extractHeading_item tokens filePath i token st :
  hasType "list_item_open" token = true →
  extractHeading tokens filePath i token st = st.
Proof.
  intros Hitem%bool_decide_eq_true. unfold extractHeading, hasType.
  by rewrite Hitem.
Qed.

(** C6, as the code has it. On a list item that the task-list plugin left
    unmarked and whose inline token has children: when the raw text is
    [[-]] or [[!]] followed by text that is not blank, the extractor emits
    a Task with state InProgress for [[-]] and Blocked for [[!]], and with
    the marker and the white space around the text stripped; when the raw
    text begins with [[>]] nothing is emitted. *)
Theorem custom_marker_task tokens filePath st i token contentToken inline :
  tokens !! i = Some token →
  hasType "list_item_open" token = true →
  hasTaskClass token = false →
  tokens !! (i + 2)%nat = Some contentToken →
  hasType "inline" contentToken = true →
  tok_children contentToken = Some inline →
  (∀ marker state rest,
      (marker, state) ∈ [(u "[-]", InProgress); (u "[!]", Blocked)] →
      tok_content contentToken = marker ++ rest →
      Js.trim rest ≠ [] →
      ∃ st' taskLevel,
        extractToken tokens filePath st i = Returned st'
        ∧ flatItems st'
          = flatItems st
            ++ [mkFlat (mkItem (itemId filePath (lineNumberOf token (lineCounter st)))
                               Task (Js.trim rest) (Some state) None
                               (lineNumberOf token (lineCounter st)) taskLevel
                               [] None)
                       taskLevel])
  ∧ (∀ rest,
      tok_content contentToken = u "[>]" ++ rest →
      ∃ st', extractToken tokens filePath st i = Returned st'
             ∧ flatItems st' = flatItems st).
Proof.
  intros Htoken Hitem Hclass Hcontent Hinline Hchildren.
  unfold extractToken. rewrite Htoken. csimpl.
  rewrite extractHeading_item, trackListDepth_spec by done.
  unfold extractTask. rewrite Hitem, Hcontent, Hinline, Hchildren. csimpl.
  split.
  - intros marker state rest Hmarker Hraw Htext.
    rewrite (checkboxOf_custom _ _ _ marker state rest) by done.
    rewrite truthy_true by done.
    destruct (lastHeadingLevel_returns (flatItems st) (length (flatItems st)))
      as [headingLevel ->]; [done|].
    csimpl. by eexists _, _.
  - intros rest Hraw.
    rewrite (checkboxOf_arrow _ _ _ rest Hclass Hraw). by eexists.
Qed.

Lemma custom_marker_task_witness :
  ∃ st' taskLevel,
    extractToken Examples.dashItem (u "PLAN.md") (mkExtract [] 1 4) 4 = Returned st'
    ∧ flatItems st'
      = [mkFlat (mkItem (u "PLAN.md:1") Task (u "Doing") (Some InProgress) None
                        1%nat taskLevel [] None) taskLevel].
Proof.
  destruct (custom_marker_task Examples.dashItem (u "PLAN.md") (mkExtract [] 1 4) 4
              (Examples.listItemOpen 1 false)
              (Examples.inlineToken (u "[-] Doing")
                 [Examples.textToken (u "[-] Doing")])
              [Examples.textToken (u "[-] Doing")]
              eq_refl eq_refl eq_refl eq_refl eq_refl eq_refl) as [Hemit _].
  apply (Hemit (u "[-]") InProgress (u " Doing")).
  - apply list_elem_of_here.
  - reflexivity.
  - vm_compute. discriminate.
Defined.

(** Against C6 as the specification words it: a list item that the
    plugin left unmarked and whose raw text begins with [[>]] is not
    emitted. *)
Lemma arrow_marker_not_emitted :
  hasTaskClass (Examples.listItemOpen 0 false) = false
  ∧ Js.startsWith (u "[>]") (u "[>] Ship it") = true
  ∧ extractItems Examples.arrowItem (u "PLAN.md") = Returned [].
Proof. by vm_compute. Qed.

(** ** The hierarchy builder *)

Lemma searchBack_Some flat lc n p :
  searchBack flat lc n = Some p ↔
  (p < n)%nat ∧ levelAt flat p < lc ∧ ∀ m, (p < m < n)%nat → lc ≤ levelAt flat m.
Proof.
  induction n as [|j IH]; csimpl.
  - split; [done|]. lia.
  - case_bool_decide as Hj.
    + split.
      * intros [= <-]. split; [lia|]. split; [done|]. lia.
      * intros (Hp & Hlt & Hbetween).
        destruct (decide (p = j)) as [->|Hne]; [done|].
        specialize (Hbetween j). lia.
    + rewrite IH. split.
      * intros (Hp & Hlt & Hbetween). split; [lia|]. split; [done|].
        intros m Hm. destruct (decide (m = j)) as [->|]; [lia|].
        apply Hbetween. lia.
      * intros (Hp & Hlt & Hbetween).
        assert (p ≠ j) by (intros ->; lia).
        split; [lia|]. split; [done|]. intros m Hm. apply Hbetween. lia.
Qed.

Lemma searchBack_None flat lc n :
  searchBack flat lc n = None ↔ ∀ m, (m < n)%nat → lc ≤ levelAt flat m.
Proof.
  induction n as [|j IH]; csimpl.
  - split; [lia|done].
  - case_bool_decide as Hj.
    + split; [done|]. intros Hall. specialize (Hall j). lia.
    + rewrite IH. split.
      * intros Hall m Hm. destruct (decide (m = j)) as [->|]; [lia|].
        apply Hall. lia.
      * intros Hall m Hm. apply Hall. lia.
Qed.

Lemma nearestSmaller_isParent flat p c :
  (c < length flat)%nat →
  nearestSmaller flat c = Some p ↔ isParent flat p c.
Proof.
  intros Hc. unfold nearestSmaller, isParent. rewrite searchBack_Some.
  naive_solver lia.
Qed.

Lemma nearestSmaller_isRoot flat c :
  (c < length flat)%nat →
  nearestSmaller flat c = None ↔ isRoot flat c.
Proof.
  intros Hc. unfold nearestSmaller, isRoot. rewrite searchBack_None.
  naive_solver.
Qed.

(** The [while] loop never pops the sentinel. *)
Lemma popFrames_frames flat level js :
  popFrames level ((frameOf flat <$> js) ++ [mkFrame 0 RootArray])
  = (frameOf flat <$> pops flat level js) ++ [mkFrame 0 RootArray].
Proof.
  induction js as [|j below IH]; [done|]. csimpl.
  destruct ((frameOf flat <$> below) ++ [mkFrame 0 RootArray]) eqn:Hrest.
  { by destruct below. }
  case_bool_decide; [exact IH | by rewrite <- Hrest].
Qed.

(** After the [while] loop: every item above the top frame has a level
    at least [level], and the top frame's level is smaller. *)
Lemma pops_spec flat level k js :
  goodStack flat js →
  Forall (λ j, (j < k)%nat) js →
  (∀ m, above js m → (m < k)%nat → level ≤ levelAt flat m) →
  goodStack flat (pops flat level js)
  ∧ Forall (λ j, (j < k)%nat) (pops flat level js)
  ∧ (∀ m, above (pops flat level js) m → (m < k)%nat → level ≤ levelAt flat m)
  ∧ match pops flat level js with
    | j :: _ => levelAt flat j < level
    | [] => True
    end.
Proof.
  induction js as [|j below IH]; intros Hgood Hk Hcover; [done|].
  csimpl. destruct Hgood as [Hgap Hgood]. apply Forall_cons in Hk as [Hj Hk].
  case_bool_decide as Hlevel.
  - apply IH; [done..|]. intros m Hm Hmk.
    destruct (decide (m < j)%nat) as [Hlt|Hge].
    + specialize (Hgap m Hm Hlt). lia.
    + destruct (decide (m = j)) as [->|Hne]; [done|].
      apply Hcover; [csimpl; lia | done].
  - csimpl. repeat split; [done..| by constructor | done | lia].
Qed.

(** The frame on top after the [while] loop is the frame of the nearest
    item with a smaller level. *)
Lemma pops_nearestSmaller flat k js :
  (k < length flat)%nat →
  goodStack flat js →
  Forall (λ j, (j < k)%nat) js →
  (∀ m, above js m → ¬ (m < k)%nat) →
  nearestSmaller flat k = head (pops flat (levelAt flat k) js).
Proof.
  intros Hlen Hgood Hk Htop.
  destruct (pops_spec flat (levelAt flat k) k js) as (_ & Hk' & Hcover & Hhead);
    [done..| |].
  { intros m Hm Hmk. by destruct (Htop m). }
  unfold nearestSmaller.
  destruct (pops flat (levelAt flat k) js) as [|j below]; csimpl.
  - apply searchBack_None. intros m Hm. by apply Hcover.
  - apply searchBack_Some. apply Forall_cons in Hk' as [Hj _].
    split; [done|]. split; [done|]. intros m Hm. apply Hcover; [csimpl|]; lia.
Qed.

Lemma filter_seq_S (P : nat → Prop) `{∀ x, Decision (P x)} k :
  filter P (seq 0 (S k)) = filter P (seq 0 k) ++ (if decide (P k) then [k] else []).
Proof.
  rewrite seq_S, filter_app, filter_cons, filter_nil. csimpl. by destruct (decide (P k)).
Qed.

Lemma concat_alter_snoc {A} (a : A) j (l : list (list A)) :
  (j < length l)%nat →
  concat (alter (λ x, x ++ [a]) j l) ≡ₚ a :: concat l.
Proof.
  revert j. induction l as [|x l IH]; intros j Hj; csimpl in *; [lia|].
  destruct j as [|j]; csimpl.
  - rewrite <- app_assoc. csimpl. by rewrite <- Permutation_middle.
  - rewrite IH by lia. by rewrite <- Permutation_middle.
Qed.

(** Placing item [k] into the array of its nearest smaller predecessor
    keeps the arrays what [placed] says. *)
Lemma placed_step flat k store :
  (k < length flat)%nat →
  placed flat k store →
  placed flat (S k)
    (push (match nearestSmaller flat k with
           | Some j => ChildrenOf j
           | None => RootArray
           end) k store).
Proof.
  intros Hk (Hroot & Hkids & Hperm). unfold placed.
  destruct (nearestSmaller flat k) as [j|] eqn:Hparent;
    unfold push; cbn [root childrenOf].
  - assert (j < length flat)%nat as Hj.
    { apply nearestSmaller_isParent in Hparent as [? _]; lia. }
    split; [|split].
    + rewrite filter_seq_S, decide_False, app_nil_r by congruence. done.
    + assert (∀ p, filter (λ c, nearestSmaller flat c = Some p) (seq 0 (S k))
                   = filter (λ c, nearestSmaller flat c = Some p) (seq 0 k)
                     ++ (if decide (p = j) then [k] else [])) as Hnext.
      { intros p. rewrite filter_seq_S, Hparent.
        repeat case_decide; congruence. }
      remember (seq 0 (S k)) as next eqn:Heqnext. clear Heqnext.
      rewrite Hkids. apply list_eq. intros p.
      rewrite list_lookup_alter, !list_lookup_fmap.
      destruct (decide (p < length flat)%nat) as [Hp|Hp].
      * rewrite !lookup_seq_lt by done. csimpl. rewrite Hnext.
        repeat case_decide; subst; rewrite ?app_nil_r; congruence.
      * rewrite !(lookup_seq_ge 0 (length flat) p) by lia.
        case_decide; [lia|done].
    + rewrite concat_alter_snoc by (rewrite Hkids, length_fmap, length_seq; lia).
      rewrite <- Permutation_middle, Hperm, seq_S. apply Permutation_cons_append.
  - split; [|split].
    + rewrite filter_seq_S, decide_True by done. by rewrite Hroot.
    + rewrite Hkids. apply list_fmap_ext. intros _ p _.
      by rewrite filter_seq_S, decide_False, app_nil_r by congruence.
    + rewrite seq_S, <- Hperm, <- !app_assoc.
      apply Permutation_app_head, Permutation_app_comm.
Qed.

(** One turn of [forEach] in [buildHierarchy]: it does not throw, and it
    places the item below its nearest smaller predecessor. *)
Lemma placeItem_spec flat k entry st :
  flat !! k = Some entry →
  building flat k st →
  ∃ st', placeItem st (k, entry) = Returned st' ∧ building flat (S k) st'.
Proof.
  intros Hentry (js & Hstack & Hjs & Hgood & Htop & Hplaced).
  apply lookup_lt_Some in Hentry as Hk.
  assert (f_level entry = levelAt flat k) as Hlevel.
  { unfold levelAt. by rewrite Hentry. }
  unfold placeItem. destruct entry as [item level]. csimpl in *. subst level.
  rewrite Hstack, popFrames_frames.
  pose proof (pops_nearestSmaller flat k js Hk Hgood Hjs Htop) as Hparent.
  destruct (pops_spec flat (levelAt flat k) k js) as (Hgood' & Hjs' & Hcover & _);
    [done..| |].
  { intros m Hm Hmk. by destruct (Htop m). }
  set (js' := pops flat (levelAt flat k) js) in *.
  assert (head ((frameOf flat <$> js') ++ [mkFrame 0 RootArray])
          = Some (mkFrame (match js' with j :: _ => levelAt flat j | [] => 0 end)
                          (match nearestSmaller flat k with
                           | Some j => ChildrenOf j
                           | None => RootArray
                           end))) as ->.
  { rewrite Hparent. by destruct js'. }
  csimpl. eexists. split; [done|].
  exists (k :: js'). split; [done|]. split; [|split; [|split]].
  - apply Forall_cons. split; [lia|].
    eapply Forall_impl; [exact Hjs'|]. csimpl. lia.
  - split; [|done]. intros m Hm Hmk. by apply Hcover.
  - intros m Hm. csimpl in Hm. lia.
  - by apply placed_step.
Qed.

Lemma building_start flat :
  building flat 0 ([mkFrame 0 RootArray], initialStore flat).
Proof.
  exists []. split; [done|]. split; [constructor|]. split; [done|].
  split; [intros m _; lia|]. unfold placed, initialStore. csimpl.
  split; [done|].
  assert ((λ _ : FlatItem, @nil nat) <$> flat
          = (λ _ : nat, []) <$> seq 0 (length flat)) as ->.
  { generalize 0%nat. induction flat as [|e flat IH]; intros a; [done|].
    csimpl. by rewrite (IH (S a)). }
  split; [done|]. generalize 0%nat.
  induction (length flat) as [|n IH]; intros a; [done|]. exact (IH (S a)).
Qed.

Lemma build_loop flat rest :
  ∀ pre st,
    flat = pre ++ rest →
    building flat (length pre) st →
    ∃ st', forEach placeItem (zip (seq (length pre) (length rest)) rest) st
           = Returned st'
           ∧ building flat (length flat) st'.
Proof.
  induction rest as [|entry rest IH]; intros pre st Hflat Hst.
  - rewrite app_nil_r in Hflat. subst pre. csimpl. eauto.
  - change (zip (seq (length pre) (length (entry :: rest))) (entry :: rest))
      with ((length pre, entry) :: zip (seq (S (length pre)) (length rest)) rest).
    cbn [forEach].
    destruct (placeItem_spec flat (length pre) entry st) as (st1 & -> & Hst1);
      [by rewrite Hflat, list_lookup_middle | done |].
    cbn [bind]. specialize (IH (pre ++ [entry]) st1).
    rewrite length_app, Nat.add_1_r in IH. apply IH; [|done].
    by rewrite <- app_assoc.
Qed.

(** [buildHierarchy] returns for every flat list, and leaves every item
    in the array of its nearest smaller predecessor. *)
Lemma buildStore_spec flat :
  ∃ store, buildStore flat = Returned store ∧ placed flat (length flat) store.
Proof.
  destruct (build_loop flat flat [] ([mkFrame 0 RootArray], initialStore flat))
    as (st & Hloop & (_ & _ & _ & _ & _ & Hplaced)); [done|apply building_start|].
  unfold buildStore. csimpl in Hloop. rewrite Hloop. eauto.
Qed.

Lemma filter_seq_sorted (P : nat → Prop) `{∀ x, Decision (P x)} a n :
  StronglySorted lt (filter P (seq a n)).
Proof.
  revert a. induction n as [|n IH]; intros a; [constructor|].
  csimpl. rewrite filter_cons. case_decide; [|apply IH].
  constructor; [apply IH|]. apply Forall_forall. intros c Hc.
  apply list_elem_of_filter in Hc as [_ Hc]. apply elem_of_seq in Hc. lia.
Qed.

Lemma placed_children flat store p names :
  placed flat (length flat) store →
  childrenOf store !! p = Some names →
  (p < length flat)%nat
  ∧ names = filter (λ c, nearestSmaller flat c = Some p) (seq 0 (length flat)).
Proof.
  intros (_ & Hkids & _) Hp. rewrite Hkids, list_lookup_fmap in Hp.
  destruct (seq 0 (length flat) !! p) as [p'|] eqn:Hseq; [|done].
  apply lookup_seq in Hseq as [-> ?]. csimpl in Hp. by injection Hp as <-.
Qed.

Lemma placed_later flat store p names :
  placed flat (length flat) store →
  childrenOf store !! p = Some names →
  Forall (λ c, p < c < length flat)%nat names.
Proof.
  intros Hplaced Hp.
  destruct (placed_children _ _ _ _ Hplaced Hp) as [Hlt ->].
  apply Forall_forall. intros c Hc.
  apply list_elem_of_filter in Hc as [Hc Hseq]. apply elem_of_seq in Hseq.
  apply nearestSmaller_isParent in Hc as [? _]; lia.
Qed.

(** ** From the store to the forest *)

Lemma length_resolveItems cells base :
  length (resolveItems cells base) = length cells.
Proof.
  revert base. induction cells as [|[entry names] rest IH]; intros base; [done|].
  csimpl. by rewrite IH.
Qed.

Lemma itemAt_base base tree later : itemAt base (tree :: later) base = Some tree.
Proof. unfold itemAt. rewrite decide_True by lia. by rewrite Nat.sub_diag. Qed.

Lemma itemAt_later base tree later c :
  (base < c)%nat → itemAt base (tree :: later) c = itemAt (S base) later c.
Proof.
  intros Hc. unfold itemAt. rewrite !decide_True by lia.
  by replace (c - base)%nat with (S (c - S base)) by lia.
Qed.

Lemma shell_withChildren item cs : shell (withChildren item cs) = shell item.
Proof. done. Qed.

(** The trees of the names in [pend] hold every item of [cells] once,
    when [pend] and the arrays of [cells] together name every cell once
    and every array names later cells only. *)
Lemma resolveItems_perm cells :
  ∀ base pend,
    (∀ q entry names, cells !! q = Some (entry, names) →
                      Forall (λ c, base + q < c)%nat names) →
    pend ++ concat cells.*2 ≡ₚ seq base (length cells) →
    shell <$> (omap (itemAt base (resolveItems cells base)) pend ≫= nodes)
    ≡ₚ shell <$> (f_item <$> cells.*1).
Proof.
  induction cells as [|[entry names] rest IH]; intros base pend Hlater Hperm.
  - csimpl in Hperm. rewrite app_nil_r in Hperm.
    by apply Permutation_nil_r in Hperm as ->.
  - csimpl in Hperm.
    assert (Forall (λ c, base < c)%nat names) as Hnames.
    { specialize (Hlater 0%nat entry names eq_refl).
      eapply Forall_impl; [exact Hlater|]. csimpl. lia. }
    assert (Forall (λ c, base < c)%nat (concat rest.*2)) as Hrest.
    { apply Forall_concat, Forall_fmap, Forall_lookup. intros q [e ns] Hq.
      specialize (Hlater (S q) e ns Hq).
      eapply Forall_impl; [exact Hlater|]. csimpl. lia. }
    assert (base ∈ pend) as Hbase.
    { assert (base ∈ pend ++ names ++ concat rest.*2) as Hin
        by (rewrite Hperm; left).
      rewrite !elem_of_app in Hin. destruct Hin as [Hin|[Hin|Hin]]; [done|..].
      - eapply Forall_forall in Hnames; [|exact Hin]. lia.
      - eapply Forall_forall in Hrest; [|exact Hin]. lia. }
    apply elem_of_Permutation in Hbase as [pend' Hpend].
    rewrite Hpend in Hperm. csimpl in Hperm.
    apply Permutation_cons_inv in Hperm.
    assert (Forall (λ c, base < c)%nat pend') as Hpend'.
    { apply Forall_forall. intros c Hc.
      assert (c ∈ seq (S base) (length rest)) as Hseq
        by (rewrite <- Hperm, elem_of_app; by left).
      apply elem_of_seq in Hseq. lia. }
    rewrite Hpend. csimpl. rewrite itemAt_base. csimpl.
    set (later := resolveItems rest (S base)).
    set (tree := withChildren (f_item entry) _).
    assert (omap (itemAt base (tree :: later)) pend'
            = omap (itemAt (S base) later) pend') as ->.
    { apply list_omap_ext, Forall_Forall2_diag.
      eapply Forall_impl; [exact Hpend'|]. intros c Hc. by apply itemAt_later. }
    change (shell (mkItem _ _ _ _ _ _ _ _ _)) with (shell (f_item entry)).
    apply Permutation_skip.
    rewrite <- bind_app, <- omap_app.
    rewrite (Permutation_app_comm names pend').
    apply IH.
    + intros q e ns Hq. specialize (Hlater (S q) e ns Hq).
      eapply Forall_impl; [exact Hlater|]. csimpl. lia.
    + by rewrite <- app_assoc.
Qed.

Lemma placed_length flat store :
  placed flat (length flat) store → length (childrenOf store) = length flat.
Proof. intros (_ & -> & _). by rewrite length_fmap, length_seq. Qed.

(** The forest holds every item of the flat list exactly once. *)
Lemma resolve_nodes flat store :
  placed flat (length flat) store →
  shell <$> allNodes (resolve flat store) ≡ₚ shell <$> (f_item <$> flat).
Proof.
  intros Hplaced. pose proof (placed_length _ _ Hplaced) as Hlen.
  unfold resolve, allNodes.
  rewrite <- (fst_zip flat (childrenOf store)) at 2 by lia.
  apply resolveItems_perm.
  - intros q entry names [_ Hq]%lookup_zip_Some.
    eapply Forall_impl; [exact (placed_later _ _ _ _ Hplaced Hq)|]. csimpl. lia.
  - rewrite snd_zip, length_zip, Hlen, Nat.min_id by lia.
    by destruct Hplaced as (_ & _ & ?).
Qed.

Lemma resolveItems_lookup cells :
  ∀ base q entry names,
    cells !! q = Some (entry, names) →
    resolveItems cells base !! q
    = Some (withChildren (f_item entry)
              (omap (itemAt (S (base + q))
                            (drop (S q) (resolveItems cells base))) names)).
Proof.
  induction cells as [|[e ns] rest IH]; intros base q entry names Hq; [done|].
  destruct q as [|q]; csimpl in *.
  - injection Hq as -> ->. by rewrite Nat.add_0_r.
  - rewrite (IH (S base) q entry names Hq). by rewrite Nat.add_succ_r.
Qed.

Lemma itemAt_drop trees q c :
  (q < c)%nat → itemAt (S q) (drop (S q) trees) c = trees !! c.
Proof.
  intros Hc. unfold itemAt. rewrite decide_True, lookup_drop by lia.
  f_equal. lia.
Qed.

(** The tree of an item has the trees of the names in its array as its
    children, in the order of the array. *)
Lemma resolve_children flat store p entry names :
  placed flat (length flat) store →
  flat !! p = Some entry →
  childrenOf store !! p = Some names →
  let trees := resolveItems (zip flat (childrenOf store)) 0 in
  ∃ kids,
    trees !! p = Some (withChildren (f_item entry) kids)
    ∧ Forall2 (λ c kid, trees !! c = Some kid) names kids.
Proof.
  intros Hplaced Hentry Hnames trees.
  pose proof (placed_length _ _ Hplaced) as Hlen.
  eexists. split.
  - apply resolveItems_lookup. by apply lookup_zip_Some.
  - pose proof (placed_later _ _ _ _ Hplaced Hnames) as Hlater.
    fold trees. csimpl. clear Hnames.
    induction Hlater as [|c names [Hpc Hc] _ IH]; [constructor|].
    csimpl. rewrite itemAt_drop by done.
    destruct (lookup_lt_is_Some_2 trees c) as [kid Hkid].
    { unfold trees. rewrite length_resolveItems, length_zip. lia. }
    rewrite Hkid. by constructor.
Qed.

Lemma resolve_roots flat store :
  placed flat (length flat) store →
  let trees := resolveItems (zip flat (childrenOf store)) 0 in
  Forall2 (λ c tree, trees !! c = Some tree) (root store) (resolve flat store).
Proof.
  intros Hplaced trees. pose proof (placed_length _ _ Hplaced) as Hlen.
  unfold resolve. fold trees.
  assert (Forall (λ c, c < length flat)%nat (root store)) as Hroot.
  { destruct Hplaced as (-> & _). apply Forall_forall. intros c Hc.
    apply list_elem_of_filter in Hc as [_ Hc]. apply elem_of_seq in Hc. lia. }
  induction Hroot as [|c names Hc _ IH]; [constructor|].
  csimpl. unfold itemAt at 1. rewrite decide_True, Nat.sub_0_r by lia.
  destruct (lookup_lt_is_Some_2 trees c) as [tree Htree].
  { unfold trees. rewrite length_resolveItems, length_zip. lia. }
  rewrite Htree. by constructor.
Qed.

(** C2. [buildHierarchy] returns for every flat list. In the forest it
    builds an item is in the [children] array of [p] exactly when [p] is
    the nearest preceding item with a strictly smaller level, and in the
    root array exactly when no preceding item has a strictly smaller
    level; every array holds its items in the order of the input. The
    forest returned is the one these arrays denote. *)
Theorem hierarchy_parent (flatItems : list FlatItem) :
  ∃ store,
    buildStore flatItems = Returned store
    ∧ buildHierarchy flatItems = Returned (resolve flatItems store)
    ∧ length (childrenOf store) = length flatItems
    ∧ (∀ p c names, childrenOf store !! p = Some names →
                    c ∈ names ↔ isParent flatItems p c)
    ∧ (∀ c, c ∈ root store ↔ isRoot flatItems c)
    ∧ StronglySorted lt (root store)
    ∧ Forall (StronglySorted lt) (childrenOf store)
    ∧ let trees := resolveItems (zip flatItems (childrenOf store)) 0 in
      Forall2 (λ c tree, trees !! c = Some tree)
              (root store) (resolve flatItems store)
      ∧ ∀ p entry names,
          flatItems !! p = Some entry →
          childrenOf store !! p = Some names →
          ∃ kids,
            trees !! p = Some (withChildren (f_item entry) kids)
            ∧ Forall2 (λ c kid, trees !! c = Some kid) names kids.
Proof.
  destruct (buildStore_spec flatItems) as (store & Hbuild & Hplaced).
  exists store. split; [done|]. split.
  { unfold buildHierarchy. by rewrite Hbuild. }
  split; [by apply placed_length|]. split; [|split; [|split; [|split; [|split]]]].
  - intros p c names Hnames.
    destruct (placed_children _ _ _ _ Hplaced Hnames) as [Hp ->].
    rewrite list_elem_of_filter, elem_of_seq. split.
    + intros [Hc Hseq]. apply nearestSmaller_isParent in Hc; [done|lia].
    + intros Hc. pose proof Hc as [? _].
      apply nearestSmaller_isParent in Hc; [|lia]. split; [done|lia].
  - intros c. destruct Hplaced as (-> & _).
    rewrite list_elem_of_filter, elem_of_seq. split.
    + intros [Hc Hseq]. apply nearestSmaller_isRoot in Hc; [done|lia].
    + intros Hc. pose proof Hc as [? _].
      apply nearestSmaller_isRoot in Hc; [|lia]. split; [done|lia].
  - destruct Hplaced as (-> & _). apply filter_seq_sorted.
  - destruct Hplaced as (_ & -> & _). apply Forall_fmap, Forall_forall.
    intros p _. apply filter_seq_sorted.
  - by apply resolve_roots.
  - intros p entry names. by apply resolve_children.
Qed.

(** ** Counting *)

Lemma total_countState s counts : total (countState s counts) = S (total counts).
Proof. destruct s; unfold total; csimpl; lia. Qed.

Lemma countItem_unfold item counts :
  countItem item counts
  = let counts :=
      match type item, state item with
      | Task, Some s => countState s counts
      | _, _ => counts
      end in
    if nonEmpty (children item) then countTasks (children item) counts else counts.
Proof. by destruct item. Qed.

(** [countTasks] adds one for every Task node that has a state. *)
Lemma countItem_total item :
  ∀ counts,
    total (countItem item counts)
    = (total counts + length (filter counted (nodes item)))%nat.
Proof.
  induction item as [i ty tx st ag ln lv cs h IH] using HierarchyItem_forest_ind.
  intros counts. rewrite countItem_unfold, nodes_unfold, filter_cons. csimpl.
  set (counts1 := match ty with Heading => counts | Task => _ end).
  assert (total counts1
          = (total counts
             + (if decide (counted (mkItem i ty tx st ag ln lv cs h)) then 1 else 0))%nat)
    as Hself.
  { unfold counts1, counted. csimpl. destruct ty, st as [s|];
      (rewrite decide_True by (split; [done|by eexists]))
      || (rewrite decide_False by (intros [? [? ?]]; congruence));
      rewrite ?total_countState; lia. }
  assert (∀ c0, total (countTasks cs c0)
                = (total c0 + length (filter counted (allNodes cs)))%nat) as Hcs.
  { unfold countTasks, allNodes. clear Hself.
    induction IH as [|c cs' Hc _ IHcs]; intros c0; csimpl; [lia|].
    rewrite IHcs, Hc, filter_app, length_app. lia. }
  destruct (nonEmpty cs) eqn:Hne.
  - rewrite Hcs, Hself. case_decide; csimpl; lia.
  - apply nonEmpty_false in Hne as ->. rewrite Hself. case_decide; csimpl; lia.
Qed.

Lemma countTasks_total items counts :
  total (countTasks items counts)
  = (total counts + length (filter counted (allNodes items)))%nat.
Proof.
  unfold countTasks, allNodes. revert counts.
  induction items as [|c items IH]; intros counts; csimpl; [lia|].
  rewrite IH, countItem_total, filter_app, length_app. lia.
Qed.

(** ** The pipeline of [parsePlan] *)

Lemma tasks_shell (l : list HierarchyItem) :
  core <$> filter isTask (shell <$> l) = core <$> filter isTask l.
Proof.
  induction l as [|n l IH]; [done|]. csimpl. rewrite !filter_cons.
  destruct (decide (type n = Task)) as [Ht|Ht].
  - rewrite !decide_True by done. csimpl. by rewrite IH.
  - by rewrite !decide_False by done.
Qed.

Lemma tasks_perm (l1 l2 : list HierarchyItem) :
  shell <$> l1 ≡ₚ shell <$> l2 →
  core <$> filter isTask l1 ≡ₚ core <$> filter isTask l2.
Proof. intros Hperm. by rewrite <- (tasks_shell l1), <- (tasks_shell l2), Hperm. Qed.

Lemma unaggregated_perm (l1 l2 : list HierarchyItem) :
  shell <$> l1 ≡ₚ shell <$> l2 →
  Forall (λ n, aggregatedStatus n = None) l2 →
  Forall (λ n, aggregatedStatus n = None) l1.
Proof.
  intros Hperm Hl2.
  assert (∀ l, Forall (λ n, aggregatedStatus n = None) l
               ↔ Forall (λ n, aggregatedStatus n = None) (shell <$> l)) as Hshell.
  { intros l. rewrite Forall_fmap.
    split; intros Hl; (eapply Forall_impl; [exact Hl|]); by intros n. }
  apply (proj2 (Hshell l1)). rewrite Hperm. by apply (proj1 (Hshell l2)).
Qed.

Lemma prunedItem_unaggregated item :
  Forall (λ n, aggregatedStatus n = None) (nodes item) →
  Forall (λ n, aggregatedStatus n = None) (nodes (prunedItem item)).
Proof.
  induction item as [i ty tx st ag ln lv cs h IH] using HierarchyItem_forest_ind.
  change (prunedItem (mkItem i ty tx st ag ln lv cs h))
    with (mkItem i ty tx st ag ln lv (pruned cs) (Some true)).
  rewrite !nodes_unfold, !Forall_cons. csimpl. intros [Hag Hcs]. split; [done|].
  unfold allNodes, pruned in *.
  induction IH as [|c cs' Hc _ IHcs]; [constructor|].
  rewrite bind_cons, Forall_app in Hcs. destruct Hcs as [Hc' Hcs'].
  csimpl. destruct (containsTask c); [|by apply IHcs].
  csimpl. apply Forall_app. split; [by apply Hc | by apply IHcs].
Qed.

Lemma pruned_unaggregated items :
  Forall (λ n, aggregatedStatus n = None) (allNodes items) →
  Forall (λ n, aggregatedStatus n = None) (allNodes (pruned items)).
Proof.
  unfold allNodes, pruned. induction items as [|c items IH]; [constructor|].
  rewrite bind_cons, Forall_app. intros [Hc Hitems].
  csimpl. destruct (containsTask c); [|by apply IH].
  csimpl. apply Forall_app. split; [by apply prunedItem_unaggregated | by apply IH].
Qed.

(** The aggregator changes no task. *)
Lemma tasks_aggregateItem item :
  core <$> filter isTask (nodes (aggregateItem item))
  = core <$> filter isTask (nodes item).
Proof.
  induction item as [i ty tx st ag ln lv cs h IH] using HierarchyItem_forest_ind.
  rewrite aggregateItem_unfold. csimpl.
  destruct (nonEmpty cs); [|done].
  rewrite !nodes_unfold, !filter_cons. csimpl.
  assert (core <$> filter isTask (allNodes (calculateAggregatedStatus cs))
          = core <$> filter isTask (allNodes cs)) as Hcs.
  { unfold allNodes, calculateAggregatedStatus.
    induction IH as [|c cs' Hc _ IHcs]; [done|].
    rewrite fmap_cons, !bind_cons, !filter_app, !fmap_app. by rewrite Hc, IHcs. }
  destruct ty.
  - rewrite !decide_False by (by unfold isTask). exact Hcs.
  - rewrite !decide_True by (by unfold isTask). csimpl. by rewrite Hcs.
Qed.

Lemma tasks_calculateAggregatedStatus items :
  core <$> filter isTask (allNodes (calculateAggregatedStatus items))
  = core <$> filter isTask (allNodes items).
Proof.
  unfold allNodes, calculateAggregatedStatus.
  induction items as [|c items IH]; [done|].
  rewrite fmap_cons, !bind_cons, !filter_app, !fmap_app.
  by rewrite tasks_aggregateItem, IH.
Qed.

Lemma flatOK_extracted tokens flat : flatOK tokens flat → Forall extracted flat.
Proof.
  intros Hflat. apply Forall_lookup. intros k e Hk. by destruct (Hflat k e Hk).
Qed.

Lemma taskCount_filter flat :
  length (filter (λ entry, type (f_item entry) = Task) flat) = taskCount flat.
Proof.
  unfold taskCount. induction flat as [|e flat IH]; [done|].
  rewrite filter_cons. csimpl.
  destruct (decide (type (f_item e) = Task)) as [Hty|Hty].
  - csimpl. by rewrite Hty, IH.
  - by destruct (type (f_item e)).
Qed.

(** [parsePlan] returns, and its result is made of the stages in turn. *)
Lemma parsePlan_spec tokenize content filePath :
  ∃ flat store plan,
    extractItems (tokenize content) filePath = Returned flat
    ∧ flatOK (tokenize content) flat
    ∧ buildStore flat = Returned store
    ∧ placed flat (length flat) store
    ∧ parsePlan tokenize content filePath = Returned plan
    ∧ tasks plan = calculateAggregatedStatus (pruned (resolve flat store))
    ∧ totalCount plan = taskCount flat
    ∧ stateCount plan = countTasks (tasks plan) (mkStateCount 0 0 0 0).
Proof.
  destruct (extractItems_spec (tokenize content) filePath) as (flat & Hflat & Hok).
  destruct (buildStore_spec flat) as (store & Hstore & Hplaced).
  exists flat, store. eexists. split; [done|]. split; [done|].
  split; [done|]. split; [done|].
  unfold parsePlan, buildHierarchy. rewrite Hflat. cbn [bind].
  rewrite Hstore. cbn [bind]. rewrite filter_mark, taskCount_filter.
  split; [reflexivity|]. by cbn [tasks totalCount stateCount].
Qed.

Lemma parsed_unaggregated flat store tokens :
  flatOK tokens flat →
  placed flat (length flat) store →
  Forall (λ n, aggregatedStatus n = None) (allNodes (pruned (resolve flat store))).
Proof.
  intros Hok Hplaced. apply pruned_unaggregated.
  eapply unaggregated_perm; [by apply resolve_nodes|].
  apply Forall_fmap. eapply Forall_impl; [by eapply flatOK_extracted|].
  by intros e (_ & ? & _).
Qed.

(** The tasks of the final forest are the tasks of the flat list. *)
Lemma parsed_tasks flat store :
  placed flat (length flat) store →
  core <$> filter isTask
             (allNodes (calculateAggregatedStatus (pruned (resolve flat store))))
  ≡ₚ core <$> filter isTask (f_item <$> flat).
Proof.
  intros Hplaced. rewrite tasks_calculateAggregatedStatus, tasks_pruned.
  by apply tasks_perm, resolve_nodes.
Qed.

Lemma filter_task_entries flat :
  length (filter isTask (f_item <$> flat)) = taskCount flat.
Proof.
  rewrite <- taskCount_filter. induction flat as [|e flat IH]; [done|].
  csimpl. rewrite !filter_cons.
  destruct (decide (type (f_item e) = Task)) as [Hty|Hty].
  - rewrite !decide_True by done. csimpl. by rewrite IH.
  - by rewrite !decide_False by done.
Qed.

Lemma tasks_have_state flat (l : list HierarchyItem) :
  Forall extracted flat →
  core <$> filter isTask l ≡ₚ core <$> filter isTask (f_item <$> flat) →
  filter counted l = filter isTask l.
Proof.
  intros Hflat Hperm. apply filter_ext_in. intros n Hn.
  unfold counted, isTask. split; [by intros [? _]|]. intros Htask. split; [done|].
  assert (core n ∈ core <$> filter isTask l) as Hcore.
  { apply list_elem_of_fmap. exists n. split; [done|].
    by apply list_elem_of_filter. }
  rewrite Hperm in Hcore. apply list_elem_of_fmap in Hcore as (m & Hnm & Hm).
  apply list_elem_of_filter in Hm as [Hmtask Hm].
  apply list_elem_of_fmap in Hm as (e & -> & He).
  eapply Forall_forall in Hflat as (_ & _ & _ & _ & Hstate); [|exact He].
  injection Hnm as _ _ _ -> _ _. by apply Hstate.
Qed.

(** C1. [parsePlan] returns a plan in whose forest every node with at
    least one child carries the status computed from all its transitive
    descendant Task nodes: Pending when there is none, Done when all of
    them are Done, Partial when some but not all are Done, Pending
    otherwise; and every node without children carries no status. *)
Theorem aggregated_status_final
    (tokenize : Js.str → list Token) (content filePath : Js.str) :
  ∃ plan,
    parsePlan tokenize content filePath = Returned plan
    ∧ Forall (λ n, aggregatedStatus n
                   = if nonEmpty (children n)
                     then Some (aggregateSpec (filter isTask (descendants n)))
                     else None)
             (allNodes (tasks plan)).
Proof.
  destruct (parsePlan_spec tokenize content filePath)
    as (flat & store & plan & _ & Hok & _ & Hplaced & Hplan & Htasks & _).
  exists plan. split; [done|]. rewrite Htasks.
  apply calculateAggregatedStatus_nodes. by eapply parsed_unaggregated.
Qed.

Lemma no_task_pruned items :
  filter isTask (allNodes items) = [] → pruned items = [].
Proof.
  unfold allNodes, pruned. induction items as [|c items IH]; [done|].
  rewrite bind_cons, filter_app. intros [Hc Hitems]%app_eq_nil.
  csimpl. rewrite IH by done.
  assert (containsTask c = false) as ->; [|done].
  apply bool_decide_eq_false. intros (n & Hn & Htask)%Exists_exists.
  assert (n ∈ filter isTask (nodes c)) as Hin by (by apply list_elem_of_filter).
  rewrite Hc in Hin. by apply not_elem_of_nil in Hin.
Qed.

(** C8. [parsePlan] returns a plan for every tokenizer, content and path:
    no read of the loops and of the stack is out of range. An empty token
    stream gives a plan without tasks, and a document without checklist
    items gives an empty forest. *)
Theorem parsePlan_total
    (tokenize : Js.str → list Token) (content filePath : Js.str) :
  ∃ plan,
    parsePlan tokenize content filePath = Returned plan
    ∧ (tokenize content = [] → totalCount plan = 0%nat)
    ∧ (totalCount plan = 0%nat → tasks plan = []).
Proof.
  destruct (parsePlan_spec tokenize content filePath)
    as (flat & store & plan & Hflat & Hok & _ & Hplaced & Hplan & Htasks & Htotal & _).
  exists plan. split; [done|]. split.
  - intros Hempty. rewrite Hempty in Hflat. injection Hflat as <-.
    by rewrite Htotal.
  - intros Hzero. rewrite Htasks.
    enough (pruned (resolve flat store) = []) as -> by done.
    apply no_task_pruned.
    pose proof (tasks_perm _ _ (resolve_nodes _ _ Hplaced)) as Hperm.
    apply Permutation_length in Hperm.
    rewrite !length_fmap, filter_task_entries, <- Htotal, Hzero in Hperm.
    by apply nil_length_inv.
Qed.

(** C9. The [totalCount] of the plan is the number of Task entries of
    the extractor's flat list: every Task counts once, no Heading counts,
    so that with the headings it makes up the length of the list. *)
Theorem total_count_flat
    (tokenize : Js.str → list Token) (content filePath : Js.str) :
  ∃ flat plan,
    extractItems (tokenize content) filePath = Returned flat
    ∧ parsePlan tokenize content filePath = Returned plan
    ∧ totalCount plan = taskCount flat
    ∧ (totalCount plan + length (filter isHeadingEntry flat))%nat = length flat.
Proof.
  destruct (parsePlan_spec tokenize content filePath)
    as (flat & store & plan & Hflat & _ & _ & _ & Hplan & _ & Htotal & _).
  exists flat, plan. split; [done|]. split; [done|]. split; [done|].
  rewrite Htotal. unfold taskCount. clear.
  induction flat as [|e flat IH]; [done|].
  rewrite filter_cons. unfold isHeadingEntry at 1. csimpl.
  destruct (decide (type (f_item e) = Heading)) as [Hty|Hty].
  - rewrite Hty. csimpl. lia.
  - destruct (type (f_item e)); [done|]. csimpl. lia.
Qed.

(** C10. The branch filter removes no Task: the Task nodes of the final
    forest are the Task entries of the flat list, each once; hence the
    four counts of the histogram, taken over the final forest, add up to
    [totalCount], taken over the flat list. *)
Theorem histogram_total
    (tokenize : Js.str → list Token) (content filePath : Js.str) :
  ∃ flat plan,
    extractItems (tokenize content) filePath = Returned flat
    ∧ parsePlan tokenize content filePath = Returned plan
    ∧ core <$> filter isTask (allNodes (tasks plan))
      ≡ₚ core <$> filter isTask (f_item <$> flat)
    ∧ (pending (stateCount plan) + done (stateCount plan)
       + inProgress (stateCount plan) + blocked (stateCount plan))%nat
      = totalCount plan.
Proof.
  destruct (parsePlan_spec tokenize content filePath)
    as (flat & store & plan & Hflat & Hok & _ & Hplaced & Hplan & Htasks
        & Htotal & Hcounts).
  exists flat, plan. split; [done|]. split; [done|].
  pose proof (parsed_tasks flat store Hplaced) as Hperm.
  rewrite <- Htasks in Hperm. split; [done|].
  change (total (stateCount plan) = totalCount plan).
  rewrite Hcounts, countTasks_total, Htotal.
  rewrite (tasks_have_state flat) by (by eauto using flatOK_extracted).
  apply Permutation_length in Hperm.
  rewrite !length_fmap, filter_task_entries in Hperm. by rewrite Hperm.
Qed.

(** ** The cache on a concrete file system *)

Lemma cache_set_get_witness :
  ∃ c1 c2,
    PlanCache.set (λ _, Returned 1700000000000) (u "PLAN.md")
                  Examples.emptyPlan PlanCache.new = Returned c1
    ∧ PlanCache.get (λ _, Returned 1700000000000) (u "PLAN.md") c1
      = Returned (Some Examples.emptyPlan, c2).
Proof.
  destruct (cache_set_get (Mtime := Z)
              (λ _, Returned 1700000000000) (λ _, Returned 1700000000000)
              (u "PLAN.md") Examples.emptyPlan PlanCache.new 1700000000000
              eq_refl)
    as (c1 & Hset & _ & Hhit & _).
  destruct (Hhit eq_refl) as [c2 Hget].
  exists c1, c2. split; [exact Hset | exact Hget].
Defined.

Lemma cache_stat_failure_witness :
  (∃ c', PlanCache.get (Mtime := Z) (λ _, Thrown (SystemError (u "ENOENT")))
                       (u "PLAN.md") PlanCache.new = Returned (None, c')
         ∧ PlanCache.cache c' = ∅)
  ∧ (∃ c', PlanCache.set (Mtime := Z) (λ _, Thrown (SystemError (u "ENOENT")))
                         (u "PLAN.md") Examples.emptyPlan PlanCache.new
           = Returned c'
           ∧ PlanCache.cache c' = ∅).
Proof.
  exact (cache_stat_failure (Mtime := Z)
           (λ _, Thrown (SystemError (u "ENOENT"))) (u "PLAN.md")
           Examples.emptyPlan PlanCache.new (SystemError (u "ENOENT")) eq_refl).
Defined.

(** ** Worked examples *)

(** A section with a pending and a done task is Partial. *)
Example section_with_two_tasks :
  Examples.summary (parsePlan (λ _, Examples.sectionWithTwoTasks)
                              (u "# Title") (u "docs/PLAN.md"))
  = Some ("Title", "PLAN.md",
          [Examples.outline Heading "Section" None
             (Some AggregatedStatus.Partial) 2
             [Examples.outline Task "A" (Some Pending) None 3 [];
              Examples.outline Task "B" (Some Done) None 3 []]],
          2%nat, mkStateCount 1 1 0 0).
Proof. by vm_compute. Qed.

(** A heading without checklist items is pruned. *)
Example empty_section :
  Examples.summary (parsePlan (λ _, Examples.emptySection)
                              (u "## Empty") (u "PLAN.md"))
  = Some ("Empty", "PLAN.md", [], 0%nat, mkStateCount 0 0 0 0).
Proof. by vm_compute. Qed.

(** A task below a task, a pruned sub-heading, and a custom marker. *)
Example nested_plan :
  Examples.summary (parsePlan (λ _, Examples.nestedPlan) [] (u "PLAN.md"))
  = Some ("Untitled Plan", "PLAN.md",
          [Examples.outline Heading "Work" None
             (Some AggregatedStatus.Partial) 2
             [Examples.outline Task "A" (Some Done)
                (Some AggregatedStatus.Pending) 3
                [Examples.outline Task "B" (Some Pending) None 4 []]];
           Examples.outline Heading "Later" None
             (Some AggregatedStatus.Pending) 2
             [Examples.outline Task "C" (Some Blocked) None 3 []]],
          3%nat, mkStateCount 1 1 0 1).
Proof. by vm_compute. Qed.

(** The store that [buildHierarchy] leaves for the levels 2, 3, 4, 3, 2, 5. *)
Example store_of_levels :
  buildStore ((λ l, mkFlat (mkItem [] Task [] None None 0 l [] None) l)
                <$> [2; 3; 4; 3; 2; 5])
  = Returned (mkStore [0; 4]%nat [[1; 3]; [2]; []; []; [5]; []]%nat).
Proof. by vm_compute. Qed.

(** * Further properties *)

(** ** The plan cache: [invalidate], [clear] and how the calls compose *)

Section CacheLaws.

Context {Mtime : Type} `{EqDecision Mtime}.
Implicit Types (stat : PlanCache.FileSystem Mtime) (c : PlanCache.t Mtime).
Implicit Types (plan : ParsedPlan) (P Q : Js.str).

Lemma get_miss stat P c :
  PlanCache.cache c !! P = None →
  ∃ c', PlanCache.get stat P c = Returned (None, c')
        ∧ PlanCache.cache c' = PlanCache.cache c.
Proof.
  intros Hnone. unfold PlanCache.get, PlanCache.tryCatch, bind. rewrite Hnone.
  destruct (stat P); by eexists.
Qed.

(** The result of a lookup depends on the entry of the path alone. *)
Lemma get_local stat P c1 c2 r :
  PlanCache.cache c1 !! P = PlanCache.cache c2 !! P →
  (∃ c', PlanCache.get stat P c1 = Returned (r, c')) →
  ∃ c', PlanCache.get stat P c2 = Returned (r, c').
Proof.
  unfold PlanCache.get, PlanCache.tryCatch, bind. intros <-.
  destruct (stat P) as [m|e]; [|intros [c' [= <- _]]; by eexists].
  destruct (PlanCache.cache c1 !! P) as [entry|];
    [|intros [c' [= <- _]]; by eexists].
  destruct (decide (PlanCache.mtime entry = m)); intros [c' [= <- _]]; by eexists.
Qed.

(** X1. A lookup returns a plan exactly when the path has an entry whose
    stored timestamp is the one [stat] reports now, and then it is the
    plan of that entry; in particular never when [stat] fails. *)
Theorem get_hit_exactly stat P c plan :
  (∃ c', PlanCache.get stat P c = Returned (Some plan, c')) ↔
  ∃ entry, PlanCache.cache c !! P = Some entry
           ∧ stat P = Returned (PlanCache.mtime entry)
           ∧ PlanCache.parsed entry = plan.
Proof.
  unfold PlanCache.get, PlanCache.tryCatch, bind.
  destruct (stat P) as [m|e]; [|naive_solver].
  destruct (PlanCache.cache c !! P) as [entry|]; [|naive_solver].
  destruct (decide (PlanCache.mtime entry = m)); naive_solver.
Qed.

(** X2. A lookup leaves the map as it is, and asked again on the same
    file system it gives the same answer. *)
Theorem get_repeatable stat P c :
  ∃ r c1 c2,
    PlanCache.get stat P c = Returned (r, c1)
    ∧ PlanCache.cache c1 = PlanCache.cache c
    ∧ PlanCache.get stat P c1 = Returned (r, c2).
Proof.
  destruct (get_returns stat P c) as (r & c1 & Hget & Hcache).
  destruct (get_local stat P c c1 r) as [c2 Hget2];
    [by rewrite Hcache | by eexists |].
  by exists r, c1, c2.
Qed.

(** X3. [invalidate] removes the entry of its path and no other: a lookup
    of the path misses afterwards whatever [stat] reports, the entries of
    the other paths stay, and for a path without an entry nothing changes,
    the log included. *)
Theorem invalidate_forgets stat P c :
  (∃ c', PlanCache.get stat P (PlanCache.invalidate P c) = Returned (None, c'))
  ∧ (∀ Q, Q ≠ P →
       PlanCache.cache (PlanCache.invalidate P c) !! Q = PlanCache.cache c !! Q)
  ∧ (PlanCache.cache c !! P = None → PlanCache.invalidate P c = c).
Proof.
  unfold PlanCache.invalidate.
  destruct (PlanCache.cache c !! P) as [entry|] eqn:Hentry.
  - split; [|split; [|done]].
    + destruct (get_miss stat P
                  (PlanCache.appendLine (u "Cache invalidated: " ++ P)
                     (PlanCache.mkCache (delete P (PlanCache.cache c))
                                        (PlanCache.outputChannel c))))
        as (c' & Hget & _); [apply lookup_delete_eq|]. by eexists.
    + intros Q HQ. cbn [PlanCache.cache PlanCache.appendLine].
      by rewrite lookup_delete_ne.
  - split; [|done]. destruct (get_miss stat P c Hentry) as (c' & Hget & _).
    by eexists.
Qed.

(** X4. After [clear] the map is empty and every lookup misses. *)
Theorem clear_forgets_all stat P c :
  PlanCache.cache (PlanCache.clear c) = ∅
  ∧ ∃ c', PlanCache.get stat P (PlanCache.clear c) = Returned (None, c').
Proof.
  split; [done|].
  destruct (get_miss stat P (PlanCache.clear c)) as (c' & Hget & _);
    [apply lookup_empty|]. by eexists.
Qed.

(** X5. [set] touches the entry of its own path only: whether [stat]
    succeeds or fails, the entries of the other paths and the answers to
    lookups of them are the same before and after. *)
Theorem set_frame stat P plan c :
  ∃ c1,
    PlanCache.set stat P plan c = Returned c1
    ∧ ∀ Q, Q ≠ P →
        PlanCache.cache c1 !! Q = PlanCache.cache c !! Q
        ∧ ∀ stat' r,
            (∃ c', PlanCache.get stat' Q c = Returned (r, c')) →
            ∃ c', PlanCache.get stat' Q c1 = Returned (r, c').
Proof.
  unfold PlanCache.set, PlanCache.tryCatch, bind.
  destruct (stat P) as [m|e]; eexists; (split; [done|]); intros Q HQ.
  - assert (PlanCache.cache
              (PlanCache.appendLine (u "Cache updated: " ++ P)
                 (PlanCache.mkCache
                    (<[P := PlanCache.mkEntry m plan]> (PlanCache.cache c))
                    (PlanCache.outputChannel c))) !! Q
            = PlanCache.cache c !! Q) as Hsame
      by (cbn [PlanCache.cache PlanCache.appendLine];
          by rewrite lookup_insert_ne).
    split; [done|]. intros stat' r. by apply get_local.
  - split; [done|]. intros stat' r. by apply get_local.
Qed.

(** X6. The last [set] wins: a second [set] for the same path replaces
    the plan and the timestamp of the first, and a lookup on the file
    system of the second returns the second plan. *)
Theorem set_overwrites stat1 stat2 P plan1 plan2 c T1 T2 :
  stat1 P = Returned T1 →
  stat2 P = Returned T2 →
  ∃ c1 c2 c3,
    PlanCache.set stat1 P plan1 c = Returned c1
    ∧ PlanCache.set stat2 P plan2 c1 = Returned c2
    ∧ PlanCache.cache c2 !! P = Some (PlanCache.mkEntry T2 plan2)
    ∧ PlanCache.cache c2 = <[P := PlanCache.mkEntry T2 plan2]> (PlanCache.cache c)
    ∧ PlanCache.get stat2 P c2 = Returned (Some plan2, c3).
Proof.
  intros Hstat1 Hstat2.
  unfold PlanCache.set, PlanCache.get, PlanCache.tryCatch, bind.
  rewrite Hstat1, Hstat2.
  eexists _, _, _. split; [done|]. split; [done|].
  cbn [PlanCache.cache PlanCache.appendLine PlanCache.outputChannel].
  rewrite lookup_insert_eq, insert_insert_eq. split; [done|]. split; [done|].
  cbn [PlanCache.mtime PlanCache.parsed]. by rewrite decide_True.
Qed.

End CacheLaws.

Lemma set_overwrites_witness :
  ∃ c1 c2 c3,
    PlanCache.set (λ _, Returned 1) (u "PLAN.md") Examples.emptyPlan
                  PlanCache.new = Returned c1
    ∧ PlanCache.set (λ _, Returned 2) (u "PLAN.md") Examples.emptyPlan c1
      = Returned c2
    ∧ PlanCache.cache c2 !! u "PLAN.md"
      = Some (PlanCache.mkEntry 2 Examples.emptyPlan)
    ∧ PlanCache.cache c2
      = <[u "PLAN.md" := PlanCache.mkEntry 2 Examples.emptyPlan]> ∅
    ∧ PlanCache.get (λ _, Returned 2) (u "PLAN.md") c2
      = Returned (Some Examples.emptyPlan, c3).
Proof.
  exact (set_overwrites (Mtime := Z) (λ _, Returned 1) (λ _, Returned 2)
           (u "PLAN.md") Examples.emptyPlan Examples.emptyPlan PlanCache.new
           1 2 eq_refl eq_refl).
Defined.

(** ** The extractor, token by token *)

Lemma truthy_false s : Js.truthy s = false → s = [].
Proof. by destruct s. Qed.

Lemma extractHeading_trace tokens filePath i token st :
  lineCounter st = i →
  ∃ new,
    extractHeading tokens filePath i token st
    = mkExtract (flatItems st ++ new) (listDepth st) (lineCounter st)
    ∧ if headingAt tokens i token
      then ∃ e, new = [e] ∧ headingFrom tokens filePath i token e
      else new = [].
Proof.
  intros <-. unfold extractHeading, headingAt.
  assert (∃ new, st = mkExtract (flatItems st ++ new) (listDepth st) (lineCounter st)
                 ∧ new = []) as Hsame.
  { exists []. rewrite app_nil_r. by destruct st. }
  destruct (hasType "heading_open" token) eqn:Hopen; [|done].
  destruct (Js.parseInt _) as [headingLevel|] eqn:Hparse; [|done].
  cbn [andb]. destruct (Z.leb_spec 2 headingLevel) as [Hle|Hlt].
  - rewrite bool_decide_eq_true_2 by done.
    destruct (tokens !! _) as [contentToken|] eqn:Hnext; [|done].
    destruct (hasType "inline" contentToken) eqn:Hinline; [|done].
    eexists [_]. split; [done|]. eexists. split; [done|].
    by exists headingLevel, contentToken.
  - rewrite bool_decide_eq_false_2 by lia. done.
Qed.

Lemma extractTask_trace tokens filePath i token st :
  lineCounter st = i →
  Forall (λ e, level (f_item e) = f_level e) (flatItems st) →
  (hasType "list_item_open" token = true →
   listDepth st = nestingDepth (take i tokens)) →
  ∃ new,
    extractTask tokens filePath i token st
    = Returned (mkExtract (flatItems st ++ new) (listDepth st) (lineCounter st))
    ∧ if taskAt tokens i token
      then ∃ e, new = [e] ∧ taskFrom tokens filePath i token (flatItems st) e
      else new = [].
Proof.
  intros <- Hlevels Hdepth. unfold extractTask, taskAt.
  assert (∃ new,
    Returned st
    = Returned (mkExtract (flatItems st ++ new) (listDepth st) (lineCounter st))
    ∧ new = []) as Hsame.
  { exists []. rewrite app_nil_r. by destruct st. }
  destruct (hasType "list_item_open" token) eqn:Hitem; [|done].
  destruct (tokens !! _) as [contentToken|] eqn:Hnext; [|done].
  destruct (hasType "inline" contentToken) eqn:Hinline; [|done].
  destruct (tok_children contentToken) as [inline|] eqn:Hchildren; [|done].
  destruct (checkboxOf token contentToken inline) as [[state|] text] eqn:Hbox;
    [|done].
  cbn [andb]. destruct (Js.truthy text) eqn:Htext; [|done].
  rewrite lastHeadingLevel_spec, firstn_all by done.
  cbn [bind]. rewrite (Hdepth eq_refl).
  eexists [_]. split; [done|]. eexists. split; [done|].
  exists contentToken, inline, state, text.
  repeat split; try done. by destruct text.
Qed.

Lemma headingFrom_level tokens filePath i token entry :
  headingFrom tokens filePath i token entry →
  type (f_item entry) = Heading ∧ level (f_item entry) = f_level entry.
Proof. by intros (lvl & ct & _ & _ & _ & _ & _ & ->). Qed.

Lemma taskFrom_level tokens filePath i token emitted entry :
  taskFrom tokens filePath i token emitted entry →
  type (f_item entry) = Task
  ∧ level (f_item entry) = f_level entry
  ∧ level (f_item entry)
    = nearestHeadingLevel emitted + nestingDepth (take i tokens).
Proof. by intros (ct & inline & state & text & _ & _ & _ & _ & _ & _ & ->). Qed.

(** One turn of the loop pushes one item when the conditions of one of
    the two branches hold at the token, and none otherwise. *)
Lemma extractToken_trace tokens filePath st i token :
  tokens !! i = Some token →
  lineCounter st = i →
  listDepth st = nestingDepth (take i tokens) →
  Forall (λ e, level (f_item e) = f_level e) (flatItems st) →
  ∃ st' new,
    extractToken tokens filePath st i = Returned st'
    ∧ lineCounter st' = S i
    ∧ listDepth st' = nestingDepth (take (S i) tokens)
    ∧ flatItems st' = flatItems st ++ new
    ∧ Forall2 (λ j e, emittedAt tokens filePath j (flatItems st) e)
              (if decide (emits tokens i) then [i] else []) new.
Proof.
  intros Htoken Hcounter Hdepth Hlevels.
  unfold extractToken. rewrite Htoken. cbn [deref bind].
  destruct (extractHeading_trace tokens filePath i token st Hcounter)
    as (new1 & -> & Hnew1).
  rewrite trackListDepth_spec. cbn [flatItems listDepth lineCounter].
  set (depth1 := listDepth st + _ - _).
  assert (depth1 = nestingDepth (take (S i) tokens)) as Hdepth1.
  { unfold depth1. by rewrite (take_S_r _ _ _ Htoken), nestingDepth_snoc, Hdepth. }
  assert (hasType "list_item_open" token = true →
          depth1 = nestingDepth (take i tokens)) as Hitem.
  { intros Hopen. rewrite Hdepth1, (take_S_r _ _ _ Htoken).
    by apply nestingDepth_item. }
  assert (headingAt tokens i token = true → taskAt tokens i token = false)
    as Hexclusive.
  { unfold headingAt, taskAt, hasType.
    intros [[Hopen%bool_decide_eq_true _]%andb_true_iff _]%andb_true_iff.
    by rewrite Hopen. }
  destruct (headingAt tokens i token) eqn:Hheading.
  - destruct Hnew1 as (e & -> & He).
    pose proof (headingFrom_level _ _ _ _ _ He) as [_ Hlevel].
    destruct (extractTask_trace tokens filePath i token
                (mkExtract (flatItems st ++ [e]) depth1 (lineCounter st)))
      as (new2 & -> & Hnew2); [done| |done|].
    { apply Forall_app. split; [done|]. by constructor. }
    rewrite Hexclusive in Hnew2 by done. subst new2.
    cbn [bind flatItems listDepth lineCounter]. eexists _, [e].
    split; [done|]. split; [exact (f_equal S Hcounter)|]. split; [done|].
    split; [by rewrite app_nil_r|].
    rewrite decide_True by (exists token; by rewrite Hheading).
    repeat constructor. exists token. split; [done|]. by left.
  - subst new1. rewrite app_nil_r.
    destruct (extractTask_trace tokens filePath i token
                (mkExtract (flatItems st) depth1 (lineCounter st)))
      as (new2 & -> & Hnew2); [done..|].
    cbn [bind flatItems listDepth lineCounter] in *. eexists _, new2.
    split; [done|]. split; [exact (f_equal S Hcounter)|]. split; [done|].
    split; [done|].
    destruct (taskAt tokens i token) eqn:Htask.
    + destruct Hnew2 as (e & -> & He).
      rewrite decide_True by (exists token; by rewrite Hheading, Htask).
      repeat constructor. exists token. split; [done|]. by right.
    + subst new2. rewrite decide_False; [constructor|].
      intros (t & Ht & Hb). rewrite Htoken in Ht. injection Ht as <-.
      by rewrite Hheading, Htask in Hb.
Qed.

Lemma traced_nil tokens filePath : traced tokens filePath [] [].
Proof. split; [done|]. by intros k i entry. Qed.

Lemma traced_snoc tokens filePath positions flat i entry :
  traced tokens filePath positions flat →
  emittedAt tokens filePath i flat entry →
  traced tokens filePath (positions ++ [i]) (flat ++ [entry]).
Proof.
  intros [Hlen Hall] Hentry. split; [by rewrite !length_app, Hlen|].
  intros k j e Hj He.
  destruct (decide (k < length flat)%nat) as [Hlt|Hge].
  - rewrite lookup_app_l in Hj by lia. rewrite lookup_app_l in He by done.
    rewrite take_app_le by lia. by apply Hall.
  - apply lookup_lt_Some in He as Hk. rewrite length_app in Hk. cbn in Hk.
    assert (k = length flat) as -> by lia.
    rewrite list_lookup_middle in He by done. injection He as <-.
    rewrite list_lookup_middle in Hj by done. injection Hj as <-.
    by rewrite take_app_le, firstn_all by lia.
Qed.

Lemma traced_levels tokens filePath positions flat :
  traced tokens filePath positions flat →
  Forall (λ e, level (f_item e) = f_level e) flat.
Proof.
  intros [Hlen Hall]. apply Forall_lookup. intros k entry Hentry.
  destruct (lookup_lt_is_Some_2 positions k) as [i Hi].
  { rewrite <- Hlen. by eapply lookup_lt_Some. }
  destruct (Hall k i entry Hi Hentry) as (token & _ & [Hheading|Htask]).
  - by apply headingFrom_level in Hheading as [_ ?].
  - by apply taskFrom_level in Htask as (_ & ? & _).
Qed.

Lemma trace_loop tokens filePath n :
  ∀ start st,
    (start + n ≤ length tokens)%nat →
    lineCounter st = start →
    listDepth st = nestingDepth (take start tokens) →
    traced tokens filePath (filter (emits tokens) (seq 0 start)) (flatItems st) →
    ∃ st',
      forEach (extractToken tokens filePath) (seq start n) st = Returned st'
      ∧ traced tokens filePath (filter (emits tokens) (seq 0 (start + n)))
               (flatItems st').
Proof.
  induction n as [|n IH]; intros start st Hlen Hcounter Hdepth Htraced.
  - exists st. by rewrite Nat.add_0_r.
  - destruct (lookup_lt_is_Some_2 tokens start) as [token Htoken]; [lia|].
    destruct (extractToken_trace tokens filePath st start token Htoken Hcounter
                Hdepth (traced_levels _ _ _ _ Htraced))
      as (st1 & new1 & Hstep & Hcounter1 & Hdepth1 & Hflat1 & Hnew1).
    destruct (IH (S start) st1) as (st2 & Hloop & Htraced2); [lia|done|done| |].
    + rewrite filter_seq_S, Hflat1.
      destruct (decide (emits tokens start)) as [Hemit|Hemit].
      * apply Forall2_cons_inv_l in Hnew1 as (e1 & rest & He1 & Hrest & ->).
        apply Forall2_nil_inv_l in Hrest as ->. by apply traced_snoc.
      * apply Forall2_nil_inv_l in Hnew1 as ->. by rewrite !app_nil_r.
    + exists st2. cbn [seq forEach]. rewrite Hstep. cbn [bind].
      split; [done|]. by rewrite Nat.add_succ_r.
Qed.

Lemma extraction_trace_lemma (tokens : list Token) (filePath : Js.str) :
  ∃ flat,
    extractItems tokens filePath = Returned flat
    ∧ traced tokens filePath (filter (emits tokens) (seq 0 (length tokens))) flat.
Proof.
  destruct (trace_loop tokens filePath (length tokens) 0 (mkExtract [] 0 0))
    as (st & Hloop & Htraced); [done..|apply traced_nil|].
  unfold extractItems. rewrite Hloop. cbn [bind]. by exists (flatItems st).
Qed.

(** X7. The flat list has exactly one entry for each token at which the
    conditions of the heading branch or of the task branch hold, in the
    order of the tokens, and each entry is the item built from its token:
    the line is the first line of the token's [map] or, without a map,
    the index of the token; the id is the path, a colon and the line; the
    level of a heading is the number in its tag, and the level of a task
    is the level of the nearest heading among the entries before it, 0
    when there is none, plus the list nesting depth at its token. *)
Theorem extraction_trace (tokens : list Token) (filePath : Js.str) :
  ∃ flat,
    extractItems tokens filePath = Returned flat
    ∧ let positions := filter (emits tokens) (seq 0 (length tokens)) in
      length flat = length positions
      ∧ ∀ k i entry,
          positions !! k = Some i → flat !! k = Some entry →
          ∃ token,
            tokens !! i = Some token
            ∧ (headingFrom tokens filePath i token entry
               ∨ taskFrom tokens filePath i token (take k flat) entry).
Proof.
  destruct (extraction_trace_lemma tokens filePath) as (flat & Hflat & Hlen & Hall).
  exists flat. split; [done|]. split; [done|].
  intros k i entry Hi Hentry. exact (Hall k i entry Hi Hentry).
Qed.


(** ** Trimming *)

Lemma trimStart_snoc s c :
  Js.isWhiteSpace c = false → Js.trimStart (s ++ [c]) = Js.trimStart s ++ [c].
Proof.
  intros Hc. induction s as [|a s IH]; cbn [app Js.trimStart].
  - by rewrite Hc.
  - by destruct (Js.isWhiteSpace a).
Qed.

Lemma trimStart_head s :
  match Js.trimStart s with
  | c :: _ => Js.isWhiteSpace c = false
  | [] => True
  end.
Proof.
  induction s as [|a s IH]; [done|]. cbn [Js.trimStart].
  by destruct (Js.isWhiteSpace a) eqn:Ha.
Qed.

Lemma trimEnd_cons c s :
  Js.isWhiteSpace c = false → Js.trimEnd (c :: s) = c :: Js.trimEnd s.
Proof.
  intros Hc. unfold Js.trimEnd.
  by rewrite reverse_cons, trimStart_snoc, reverse_snoc.
Qed.

Lemma trimEnd_idemp s : Js.trimEnd (Js.trimEnd s) = Js.trimEnd s.
Proof. unfold Js.trimEnd. by rewrite reverse_involutive, trimStart_idemp. Qed.

(** [trim] leaves a trimmed string as it is. *)
Lemma trim_idemp s : Js.trim (Js.trim s) = Js.trim s.
Proof.
  unfold Js.trim. pose proof (trimStart_head s) as Hhead.
  destruct (Js.trimStart s) as [|c r]; [done|].
  rewrite trimEnd_cons by done. cbn [Js.trimStart]. rewrite Hhead.
  by rewrite <- trimEnd_cons, trimEnd_idemp.
Qed.

Lemma checkboxOf_trimmed token contentToken inline state text :
  checkboxOf token contentToken inline = (Some state, text) →
  Js.trim text = text.
Proof.
  unfold checkboxOf. destruct (hasTaskClass token).
  - intros [= _ <-]. apply trim_idemp.
  - destruct (Js.startsWith (u "[-]") _); [intros [= _ <-]; apply trim_idemp|].
    destruct (Js.startsWith (u "[!]") _); [intros [= _ <-]; apply trim_idemp|].
    done.
Qed.

(** ** The nodes of a plan *)

Lemma emittedAt_wellFormed tokens filePath i emitted entry :
  emittedAt tokens filePath i emitted entry →
  wellFormedNode filePath (f_item entry).
Proof.
  intros (token & _ & [Hheading|Htask]).
  - destruct Hheading as (lvl & ct & _ & _ & Hlvl & _ & _ & ->).
    split; [done|]. split; [done|]. by intros [=].
  - destruct Htask as (ct & inline & state & text & _ & _ & _ & _
                       & Hbox & Htext & ->).
    split; [done|]. split; [by intros [=]|]. intros _.
    split; [by eexists|]. split; [done|]. by eapply checkboxOf_trimmed.
Qed.

Lemma wellFormedNode_core filePath n m :
  core n = core m → wellFormedNode filePath m → wellFormedNode filePath n.
Proof.
  destruct n, m. intros [= -> -> -> -> -> ->]. done.
Qed.

(** The pruned forest holds nodes of the forest, in their order. *)
Lemma cores_prunedItem item :
  core <$> nodes (prunedItem item) `sublist_of` core <$> nodes item.
Proof.
  induction item as [i ty tx st ag ln lv cs h IH] using HierarchyItem_forest_ind.
  change (prunedItem (mkItem i ty tx st ag ln lv cs h))
    with (mkItem i ty tx st ag ln lv (pruned cs) (Some true)).
  rewrite !nodes_unfold, !fmap_cons. apply sublist_skip.
  cbn [children]. unfold allNodes, pruned.
  induction IH as [|c cs' Hc _ IHcs]; [done|].
  rewrite bind_cons, fmap_app. csimpl. destruct (containsTask c); csimpl.
  - rewrite fmap_app. by apply sublist_app.
  - by apply sublist_inserts_l.
Qed.

Lemma cores_pruned items :
  core <$> allNodes (pruned items) `sublist_of` core <$> allNodes items.
Proof.
  unfold allNodes, pruned. induction items as [|c items IH]; [done|].
  rewrite bind_cons, fmap_app. csimpl. destruct (containsTask c); csimpl.
  - rewrite fmap_app. apply sublist_app; [apply cores_prunedItem | done].
  - by apply sublist_inserts_l.
Qed.

(** The aggregator changes nothing that the extractor wrote. *)
Lemma cores_aggregateItem item :
  core <$> nodes (aggregateItem item) = core <$> nodes item.
Proof.
  induction item as [i ty tx st ag ln lv cs h IH] using HierarchyItem_forest_ind.
  rewrite aggregateItem_unfold. cbn [children].
  destruct (nonEmpty cs); [|done].
  rewrite !nodes_unfold, !fmap_cons. cbn [children]. f_equal.
  unfold allNodes, calculateAggregatedStatus.
  induction IH as [|c cs' Hc _ IHcs]; [done|].
  rewrite fmap_cons, !bind_cons, !fmap_app. by rewrite Hc, IHcs.
Qed.

Lemma cores_calculateAggregatedStatus items :
  core <$> allNodes (calculateAggregatedStatus items) = core <$> allNodes items.
Proof.
  unfold allNodes, calculateAggregatedStatus.
  induction items as [|c items IH]; [done|].
  rewrite fmap_cons, !bind_cons, !fmap_app. by rewrite cores_aggregateItem, IH.
Qed.

(** Every node of the final forest is an item of the flat list. *)
Lemma parsed_nodes flat store n :
  placed flat (length flat) store →
  n ∈ allNodes (calculateAggregatedStatus (pruned (resolve flat store))) →
  ∃ entry, entry ∈ flat ∧ core n = core (f_item entry).
Proof.
  intros Hplaced Hn.
  assert (core n ∈ core <$> allNodes (resolve flat store)) as Hcore.
  { eapply elem_of_sublist; [|apply cores_pruned].
    rewrite <- cores_calculateAggregatedStatus. by apply list_elem_of_fmap_2. }
  apply list_elem_of_fmap in Hcore as (m & Hnm & Hm).
  apply (list_elem_of_fmap_2 shell) in Hm.
  rewrite (resolve_nodes _ _ Hplaced) in Hm.
  apply list_elem_of_fmap in Hm as (x & Hmx & Hx).
  apply list_elem_of_fmap in Hx as (entry & -> & Hentry).
  exists entry. split; [done|]. rewrite Hnm.
  change (core m) with (core (shell m)). by rewrite Hmx.
Qed.

Lemma extracted_wellFormed tokens filePath flat :
  extractItems tokens filePath = Returned flat →
  Forall (λ entry, wellFormedNode filePath (f_item entry)) flat.
Proof.
  intros Hflat.
  destruct (extraction_trace_lemma tokens filePath)
    as (flat' & Hflat' & Hlen & Hall).
  rewrite Hflat in Hflat'. injection Hflat' as <-. clear Hflat.
  apply Forall_lookup. intros k entry Hentry.
  destruct (lookup_lt_is_Some_2
              (filter (emits tokens) (seq 0 (length tokens))) k) as [i Hi].
  { rewrite <- Hlen. by eapply lookup_lt_Some. }
  eapply emittedAt_wellFormed. exact (Hall k i entry Hi Hentry).
Qed.

(** X8. In the plan that [parsePlan] returns every node has the id made
    of the path and its line; every heading has a level of at least 2 and
    no state, so a level-1 heading never appears; every task has a state
    and a text that is not empty and has no white space at either end. *)
Theorem plan_nodes_wellFormed
    (tokenize : Js.str → list Token) (content path : Js.str) :
  ∃ plan,
    parsePlan tokenize content path = Returned plan
    ∧ filePath plan = path
    ∧ Forall (wellFormedNode path) (allNodes (tasks plan)).
Proof.
  destruct (parsePlan_spec tokenize content path)
    as (flat & store & plan & Hflat & _ & _ & Hplaced & Hplan & Htasks & _).
  exists plan. split; [done|]. split.
  { unfold parsePlan, buildHierarchy, bind in Hplan.
    destruct (extractItems _ _); [|done]. destruct (buildStore _); [|done].
    by injection Hplan as <-. }
  rewrite Htasks. apply Forall_forall. intros n Hn.
  destruct (parsed_nodes flat store n Hplaced Hn) as (entry & Hentry & Hcore).
  eapply wellFormedNode_core; [exact Hcore|].
  pose proof (extracted_wellFormed _ _ _ Hflat) as Hall.
  by eapply Forall_forall in Hall.
Qed.

(** ** Leaves, descendants and status in the final forest *)

Lemma nodes_aggregateItem item :
  nodes (aggregateItem item) = aggregateItem <$> nodes item.
Proof.
  induction item as [i ty tx st ag ln lv cs h IH] using HierarchyItem_forest_ind.
  rewrite (nodes_unfold (mkItem _ _ _ _ _ _ _ _ _)), fmap_cons, nodes_unfold.
  f_equal. rewrite aggregateItem_unfold. cbn [children].
  destruct (nonEmpty cs) eqn:Hne; cbn [children].
  - unfold allNodes, calculateAggregatedStatus.
    induction IH as [|c cs' Hc _ IHcs]; [done|].
    rewrite fmap_cons, !bind_cons, fmap_app, Hc. f_equal.
    destruct cs' as [|c' cs']; [done|]. by apply IHcs.
  - by apply nonEmpty_false in Hne as ->.
Qed.

Lemma allNodes_calculateAggregatedStatus items :
  allNodes (calculateAggregatedStatus items) = aggregateItem <$> allNodes items.
Proof.
  unfold allNodes, calculateAggregatedStatus.
  induction items as [|c items IH]; [done|].
  by rewrite fmap_cons, !bind_cons, fmap_app, nodes_aggregateItem, IH.
Qed.

Lemma Exists_filter {A} (P : A → Prop) `{∀ x, Decision (P x)} (l : list A) :
  Exists P l ↔ filter P l ≠ [].
Proof.
  induction l as [|x l IH]; [by rewrite Exists_nil|].
  rewrite Exists_cons, filter_cons. destruct (decide (P x)); naive_solver.
Qed.

Lemma containsTask_aggregateItem item :
  containsTask (aggregateItem item) = containsTask item.
Proof.
  unfold containsTask. apply bool_decide_ext. rewrite !Exists_filter.
  pose proof (tasks_aggregateItem item) as Hcores.
  split; intros Hne Hnil; apply Hne.
  - rewrite Hnil in Hcores. by apply fmap_nil_inv in Hcores.
  - rewrite Hnil in Hcores. symmetry in Hcores. by apply fmap_nil_inv in Hcores.
Qed.

(** The children of a node of a forest are nodes of the forest. *)
Lemma nodes_closed (S : HierarchyItem → Prop) :
  (∀ t, S t → Forall S (children t)) →
  ∀ t, S t → Forall S (nodes t).
Proof.
  intros Hclosed.
  induction t as [i ty tx st ag ln lv cs h IH] using HierarchyItem_forest_ind.
  intros Ht. rewrite nodes_unfold. constructor; [done|].
  pose proof (Hclosed _ Ht) as Hcs. cbn [children] in *. unfold allNodes.
  clear Ht. induction IH as [|c cs' Hc _ IHcs]; [constructor|].
  apply Forall_cons in Hcs as [Hc' Hcs']. rewrite bind_cons.
  apply Forall_app. split; [by apply Hc | by apply IHcs].
Qed.

Lemma allNodes_children items n :
  n ∈ allNodes items → Forall (λ c, c ∈ allNodes items) (children n).
Proof.
  unfold allNodes. intros (t & Hn & Ht)%list_elem_of_bind.
  enough (Forall (λ c, c ∈ nodes t) (children n)) as Hin.
  { eapply Forall_impl; [exact Hin|]. intros c Hc.
    apply list_elem_of_bind. exists t. split; [exact Hc | exact Ht]. }
  clear Ht. revert n Hn.
  induction t as [i ty tx st ag ln lv cs h IH] using HierarchyItem_forest_ind.
  intros n. rewrite nodes_unfold. intros [->|Hn]%elem_of_cons.
  - cbn [children]. apply Forall_forall. intros c Hc. right.
    apply list_elem_of_bind. exists c. split; [|done].
    rewrite nodes_unfold. left.
  - unfold allNodes in Hn. cbn [children] in Hn.
    apply list_elem_of_bind in Hn as (c & Hn & Hc).
    eapply Forall_forall in IH; [|exact Hc].
    eapply Forall_impl; [exact (IH n Hn)|]. intros d Hd. right.
    apply list_elem_of_bind. exists c. split; [exact Hd | exact Hc].
Qed.

Lemma parsed_containsTask flat store :
  Forall (λ n, containsTask n = true)
         (allNodes (calculateAggregatedStatus (pruned (resolve flat store)))).
Proof.
  rewrite allNodes_calculateAggregatedStatus. apply Forall_fmap.
  eapply Forall_impl; [apply pruned_nodes|]. intros n [_ Hn]. cbn.
  by rewrite containsTask_aggregateItem.
Qed.

(** What holds of every node of the final forest. *)
Lemma parsed_status flat store tokens :
  flatOK tokens flat →
  placed flat (length flat) store →
  Forall
    (λ n,
       if nonEmpty (children n) then
         Exists isTask (descendants n)
         ∧ aggregatedStatus n
           = Some (let ts := filter isTask (descendants n) in
                   if bool_decide (Forall (λ t, state t = Some Done) ts)
                   then AggregatedStatus.Done
                   else if bool_decide (Exists (λ t, state t = Some Done) ts)
                        then AggregatedStatus.Partial
                        else AggregatedStatus.Pending)
       else type n = Task ∧ aggregatedStatus n = None)
    (allNodes (calculateAggregatedStatus (pruned (resolve flat store)))).
Proof.
  intros Hok Hplaced.
  pose proof (calculateAggregatedStatus_nodes _
                (parsed_unaggregated _ _ _ Hok Hplaced)) as Hagg.
  pose proof (parsed_containsTask flat store) as Htask.
  apply Forall_forall. intros n Hn.
  pose proof (allNodes_children _ _ Hn) as Hchildren.
  eapply Forall_forall in Hagg; [|exact Hn]. unfold aggregated in Hagg.
  pose proof Htask as Hself. eapply Forall_forall in Hself; [|exact Hn].
  destruct (children n) as [|c cs] eqn:Hcs; cbn [nonEmpty] in *.
  - split; [|done]. rewrite containsTask_unfold, Hcs in Hself.
    cbn [existsb] in Hself. rewrite orb_false_r in Hself.
    by apply bool_decide_eq_true in Hself.
  - assert (Exists isTask (descendants n)) as Hsome.
    { unfold descendants. rewrite Hcs. unfold allNodes. rewrite bind_cons.
      apply Exists_app. left. apply Forall_cons in Hchildren as [Hc _].
      eapply Forall_forall in Htask; [|exact Hc].
      by apply bool_decide_eq_true in Htask. }
    split; [done|]. rewrite Hagg. unfold aggregateSpec.
    by rewrite bool_decide_eq_false_2 by (by apply Exists_filter).
Qed.

(** X9. In the plan that [parsePlan] returns every leaf is a Task, so
    every heading has children; and every node with children has at least
    one Task among its descendants, so that its status is Done exactly
    when all of them are Done, Pending exactly when none is, and Partial
    otherwise: the case of a node without descendant tasks does not
    arise. *)
Theorem plan_leaves_and_status
    (tokenize : Js.str → list Token) (content path : Js.str) :
  ∃ plan,
    parsePlan tokenize content path = Returned plan
    ∧ Forall
        (λ n,
           if nonEmpty (children n) then
             Exists isTask (descendants n)
             ∧ aggregatedStatus n
               = Some (let ts := filter isTask (descendants n) in
                       if bool_decide (Forall (λ t, state t = Some Done) ts)
                       then AggregatedStatus.Done
                       else if bool_decide (Exists (λ t, state t = Some Done) ts)
                            then AggregatedStatus.Partial
                            else AggregatedStatus.Pending)
           else type n = Task ∧ aggregatedStatus n = None)
        (allNodes (tasks plan)).
Proof.
  destruct (parsePlan_spec tokenize content path)
    as (flat & store & plan & _ & Hok & _ & Hplaced & Hplan & Htasks & _).
  exists plan. split; [done|]. rewrite Htasks.
  by eapply parsed_status.
Qed.

(** ** Levels in the forest *)

Lemma resolve_tree_level flat store tokens p tree :
  flatOK tokens flat →
  placed flat (length flat) store →
  resolveItems (zip flat (childrenOf store)) 0 !! p = Some tree →
  level tree = levelAt flat p.
Proof.
  intros Hok Hplaced Htree.
  pose proof (placed_length _ _ Hplaced) as Hlen.
  assert (p < length flat)%nat as Hp.
  { apply lookup_lt_Some in Htree.
    rewrite length_resolveItems, length_zip in Htree. lia. }
  destruct (lookup_lt_is_Some_2 flat p) as [entry Hentry]; [done|].
  destruct (lookup_lt_is_Some_2 (childrenOf store) p) as [names Hnames]; [lia|].
  rewrite (resolveItems_lookup _ 0 p entry names) in Htree
    by (by apply lookup_zip_Some).
  injection Htree as <-. cbn [withChildren level]. unfold levelAt.
  rewrite Hentry. by destruct (Hok p entry Hentry) as [(_ & _ & _ & ? & _) _].
Qed.

(** In the forest that [buildHierarchy] returns every child has a
    greater level than its parent. *)
Lemma resolve_trees_levels flat store tokens :
  flatOK tokens flat →
  placed flat (length flat) store →
  let trees := resolveItems (zip flat (childrenOf store)) 0 in
  ∀ p tree, trees !! p = Some tree →
            Forall (λ c, level tree < level c ∧ ∃ q, trees !! q = Some c)
                   (children tree).
Proof.
  intros Hok Hplaced trees p tree Htree.
  pose proof (placed_length _ _ Hplaced) as Hlen.
  pose proof (resolve_tree_level _ _ _ _ _ Hok Hplaced Htree) as Hlevel.
  assert (p < length flat)%nat as Hp.
  { apply lookup_lt_Some in Htree. unfold trees in Htree.
    rewrite length_resolveItems, length_zip in Htree. lia. }
  destruct (lookup_lt_is_Some_2 flat p) as [entry Hentry]; [done|].
  destruct (lookup_lt_is_Some_2 (childrenOf store) p) as [names Hnames]; [lia|].
  destruct (resolve_children _ _ _ _ _ Hplaced Hentry Hnames)
    as (kids & Htree' & Hkids).
  fold trees in Htree', Hkids. rewrite Htree in Htree'.
  injection Htree' as Heq. rewrite Hlevel. rewrite Heq. cbn [children withChildren].
  destruct (placed_children _ _ _ _ Hplaced Hnames) as [_ Hfilter].
  assert (Forall (λ c, isParent flat p c) names) as Hparents.
  { rewrite Hfilter. apply Forall_forall. intros c Hc.
    apply list_elem_of_filter in Hc as [Hc Hseq]. apply elem_of_seq in Hseq.
    apply nearestSmaller_isParent in Hc; [done|lia]. }
  clear Hfilter Hnames Htree Heq Hlevel.
  induction Hkids as [|c kid names kids Hkid _ IH]; [constructor|].
  apply Forall_cons in Hparents as [(Hc & Hlt & _) Hparents].
  constructor; [|by apply IH]. split; [|by exists c].
  by rewrite (resolve_tree_level _ _ _ _ _ Hok Hplaced Hkid).
Qed.

Lemma resolve_steep flat store tokens :
  flatOK tokens flat →
  placed flat (length flat) store →
  Forall steep (allNodes (resolve flat store)).
Proof.
  intros Hok Hplaced.
  set (trees := resolveItems (zip flat (childrenOf store)) 0).
  set (S := λ t, ∃ q, trees !! q = Some t).
  assert (∀ t, S t → Forall S (children t)) as Hclosed.
  { intros t [q Hq].
    eapply Forall_impl; [exact (resolve_trees_levels _ _ _ Hok Hplaced q t Hq)|].
    by intros c [_ Hc]. }
  assert (Forall S (allNodes (resolve flat store))) as Hall.
  { unfold allNodes. apply Forall_bind.
    pose proof (resolve_roots _ _ Hplaced) as Hroots. fold trees in Hroots.
    induction Hroots as [|c t names ts Ht _ IH]; constructor; [|done].
    apply nodes_closed; [done|]. by exists c. }
  eapply Forall_impl; [exact Hall|]. intros t [q Hq]. unfold steep.
  eapply Forall_impl; [exact (resolve_trees_levels _ _ _ Hok Hplaced q t Hq)|].
  by intros c [Hc _].
Qed.

Lemma level_prunedItem item : level (prunedItem item) = level item.
Proof. by destruct item. Qed.

Lemma prunedItem_steep item :
  Forall steep (nodes item) → Forall steep (nodes (prunedItem item)).
Proof.
  induction item as [i ty tx st ag ln lv cs h IH] using HierarchyItem_forest_ind.
  change (prunedItem (mkItem i ty tx st ag ln lv cs h))
    with (mkItem i ty tx st ag ln lv (pruned cs) (Some true)).
  rewrite !nodes_unfold, !Forall_cons. cbn [children]. intros [Hself Hcs].
  unfold steep in Hself. cbn [children level] in Hself. split.
  - unfold steep. cbn [children level]. unfold pruned. clear IH Hcs.
    induction Hself as [|c cs' Hc _ IHcs]; [constructor|].
    csimpl. destruct (containsTask c); [|done].
    constructor; [by rewrite level_prunedItem | done].
  - unfold allNodes, pruned in *. clear Hself.
    induction IH as [|c cs' Hc _ IHcs]; [constructor|].
    rewrite bind_cons, Forall_app in Hcs. destruct Hcs as [Hc' Hcs'].
    csimpl. destruct (containsTask c); [|by apply IHcs].
    csimpl. apply Forall_app. split; [by apply Hc | by apply IHcs].
Qed.

Lemma pruned_steep items :
  Forall steep (allNodes items) → Forall steep (allNodes (pruned items)).
Proof.
  unfold allNodes, pruned. induction items as [|c items IH]; [constructor|].
  rewrite bind_cons, Forall_app. intros [Hc Hitems].
  csimpl. destruct (containsTask c); [|by apply IH].
  csimpl. apply Forall_app. split; [by apply prunedItem_steep | by apply IH].
Qed.

Lemma level_aggregateItem item : level (aggregateItem item) = level item.
Proof. rewrite aggregateItem_unfold. by destruct (nonEmpty (children item)). Qed.

Lemma children_aggregateItem item :
  children (aggregateItem item) = aggregateItem <$> children item.
Proof.
  rewrite aggregateItem_unfold. destruct (children item) eqn:Hcs; [|done].
  cbn [nonEmpty]. by rewrite Hcs.
Qed.

Lemma aggregateItem_steep item : steep item → steep (aggregateItem item).
Proof.
  unfold steep. rewrite children_aggregateItem, level_aggregateItem, Forall_fmap.
  intros H. eapply Forall_impl; [exact H|].
  intros c Hc. cbn. by rewrite level_aggregateItem.
Qed.

(** X10. In the plan that [parsePlan] returns the level of every child is
    strictly greater than the level of its parent. *)
Theorem plan_levels_increase
    (tokenize : Js.str → list Token) (content path : Js.str) :
  ∃ plan,
    parsePlan tokenize content path = Returned plan
    ∧ Forall (λ n, Forall (λ c, level n < level c) (children n))
             (allNodes (tasks plan)).
Proof.
  destruct (parsePlan_spec tokenize content path)
    as (flat & store & plan & _ & Hok & _ & Hplaced & Hplan & Htasks & _).
  exists plan. split; [done|]. rewrite Htasks.
  rewrite allNodes_calculateAggregatedStatus. apply Forall_fmap.
  eapply Forall_impl; [by eapply pruned_steep, resolve_steep|].
  intros n Hn. by apply aggregateItem_steep.
Qed.

(** ** The histogram, state by state *)

Lemma countOf_countState s s' counts :
  countOf s (countState s' counts)
  = (countOf s counts + (if decide (s' = s) then 1 else 0))%nat.
Proof. destruct s, s'; csimpl; lia. Qed.

Lemma countItem_state s item :
  ∀ counts,
    countOf s (countItem item counts)
    = (countOf s counts + length (filter (inState s) (nodes item)))%nat.
Proof.
  induction item as [i ty tx st ag ln lv cs h IH] using HierarchyItem_forest_ind.
  intros counts. rewrite countItem_unfold, nodes_unfold, filter_cons. csimpl.
  set (counts1 := match ty with Heading => counts | Task => _ end).
  assert (countOf s counts1
          = (countOf s counts
             + (if decide (inState s (mkItem i ty tx st ag ln lv cs h)) then 1 else 0))%nat)
    as Hself.
  { unfold counts1, inState. csimpl. destruct ty, st as [s'|].
    - rewrite decide_False by (by intros [? ?]). lia.
    - rewrite decide_False by (by intros [? ?]). lia.
    - rewrite countOf_countState. destruct (decide (s' = s)) as [->|Hs].
      + by rewrite decide_True by done.
      + by rewrite decide_False by (intros [_ [=]]; done).
    - rewrite decide_False by (by intros [? ?]). lia. }
  assert (∀ c0, countOf s (countTasks cs c0)
                = (countOf s c0 + length (filter (inState s) (allNodes cs)))%nat) as Hcs.
  { unfold countTasks, allNodes. clear Hself.
    induction IH as [|c cs' Hc _ IHcs]; intros c0; csimpl; [lia|].
    rewrite IHcs, Hc, filter_app, length_app. lia. }
  destruct (nonEmpty cs) eqn:Hne.
  - rewrite Hcs, Hself. case_decide; csimpl; lia.
  - apply nonEmpty_false in Hne as ->. rewrite Hself. case_decide; csimpl; lia.
Qed.

Lemma countTasks_state s items counts :
  countOf s (countTasks items counts)
  = (countOf s counts + length (filter (inState s) (allNodes items)))%nat.
Proof.
  unfold countTasks, allNodes. revert counts.
  induction items as [|c items IH]; intros counts; csimpl; [lia|].
  rewrite IH, countItem_state, filter_app, length_app. lia.
Qed.

(** Whether a Task is in the state [s] can be read off its [core]. *)
Lemma inState_core s (l : list HierarchyItem) :
  length (filter (inState s) l)
  = length (filter (λ k, k.1.1.2 = Some s) (core <$> filter isTask l)).
Proof.
  induction l as [|n l IH]; [done|]. rewrite !filter_cons.
  destruct (decide (isTask n)) as [Ht|Ht].
  - csimpl. rewrite filter_cons. cbn [core fst snd].
    destruct (decide (state n = Some s)) as [Hs|Hs].
    + rewrite decide_True by done. csimpl. by rewrite IH.
    + rewrite decide_False by (by intros [_ ?]). done.
  - rewrite decide_False by (by intros [? _]). done.
Qed.

Lemma inState_perm s (l1 l2 : list HierarchyItem) :
  core <$> filter isTask l1 ≡ₚ core <$> filter isTask l2 →
  length (filter (inState s) l1) = length (filter (inState s) l2).
Proof. intros Hperm. by rewrite !inState_core, Hperm. Qed.

Lemma inState_entries s flat :
  length (filter (inState s) (f_item <$> flat))
  = length (filter (λ entry, inState s (f_item entry)) flat).
Proof.
  induction flat as [|e flat IH]; [done|]. csimpl. rewrite !filter_cons.
  destruct (decide (inState s (f_item e))); csimpl; by rewrite IH.
Qed.

(** X11. Every field of the histogram that [parsePlan] returns is the
    number of Tasks in that state that the extractor emitted: no task is
    lost or moved to another state by the hierarchy builder, the branch
    filter or the aggregator. *)
Theorem histogram_per_state
    (tokenize : Js.str → list Token) (content path : Js.str) :
  ∃ flat plan,
    extractItems (tokenize content) path = Returned flat
    ∧ parsePlan tokenize content path = Returned plan
    ∧ ∀ s, countOf s (stateCount plan)
           = length (filter (λ entry, type (f_item entry) = Task
                                      ∧ state (f_item entry) = Some s) flat).
Proof.
  destruct (parsePlan_spec tokenize content path)
    as (flat & store & plan & Hflat & Hok & _ & Hplaced & Hplan & Htasks & _ & Hcounts).
  exists flat, plan. split; [done|]. split; [done|]. intros s.
  rewrite Hcounts, countTasks_state, Htasks.
  rewrite (inState_perm s _ _ (parsed_tasks _ _ Hplaced)), inState_entries.
  by destruct s.
Qed.

(** ** The marking and the filter on their own *)

Lemma existsb_containsTask items :
  existsb containsTask items = bool_decide (Exists isTask (allNodes items)).
Proof.
  apply eq_true_iff_eq. rewrite existsb_exists, bool_decide_eq_true.
  unfold allNodes. rewrite Exists_exists. setoid_rewrite list_elem_of_bind.
  unfold containsTask. setoid_rewrite bool_decide_eq_true.
  setoid_rewrite Exists_exists. setoid_rewrite <- list_elem_of_In.
  naive_solver.
Qed.

Lemma markItem_flagged item :
  markItem item = (flaggedItem item, containsTask item).
Proof.
  induction item as [i ty tx st ag ln lv cs h IH] using HierarchyItem_forest_ind.
  assert ((markItem <$> cs).*1 = flaggedItem <$> cs) as Hfst.
  { induction IH as [|c cs' Hc _ IHcs]; [done|]. csimpl. by rewrite Hc, IHcs. }
  assert (existsb snd (markItem <$> cs) = existsb containsTask cs) as Hsnd.
  { clear Hfst.
    induction IH as [|c cs' Hc _ IHcs]; [done|]. csimpl. by rewrite Hc, IHcs. }
  rewrite markItem_unfold. unfold markTaskDescendants. cbn [type children fst snd
    id text state aggregatedStatus line level].
  rewrite Hfst, Hsnd.
  change (flaggedItem (mkItem i ty tx st ag ln lv cs h))
    with (mkItem i ty tx st ag ln lv (flaggedItem <$> cs)
                 (Some (containsTask (mkItem i ty tx st ag ln lv cs h)))).
  rewrite containsTask_unfold. cbn [children]. unfold isTask. cbn [type].
  destruct ty.
  - rewrite bool_decide_eq_false_2 by done. by destruct cs.
  - by rewrite bool_decide_eq_true_2 by done.
Qed.

Lemma containsTask_flaggedItem item :
  containsTask (flaggedItem item) = containsTask item.
Proof.
  induction item as [i ty tx st ag ln lv cs h IH] using HierarchyItem_forest_ind.
  change (flaggedItem (mkItem i ty tx st ag ln lv cs h))
    with (mkItem i ty tx st ag ln lv (flaggedItem <$> cs)
                 (Some (containsTask (mkItem i ty tx st ag ln lv cs h)))).
  rewrite !containsTask_unfold. cbn [children]. unfold isTask. cbn [type]. f_equal.
  induction IH as [|c cs' Hc _ IHcs]; [done|]. csimpl. by rewrite Hc, IHcs.
Qed.

Lemma flaggedItem_idemp item : flaggedItem (flaggedItem item) = flaggedItem item.
Proof.
  induction item as [i ty tx st ag ln lv cs h IH] using HierarchyItem_forest_ind.
  pose proof (containsTask_flaggedItem (mkItem i ty tx st ag ln lv cs h)) as Hk.
  change (flaggedItem (mkItem i ty tx st ag ln lv cs h))
    with (mkItem i ty tx st ag ln lv (flaggedItem <$> cs)
                 (Some (containsTask (mkItem i ty tx st ag ln lv cs h)))) in *.
  set (k := containsTask (mkItem i ty tx st ag ln lv cs h)) in *.
  change (flaggedItem (mkItem i ty tx st ag ln lv (flaggedItem <$> cs) (Some k)))
    with (mkItem i ty tx st ag ln lv (flaggedItem <$> (flaggedItem <$> cs))
                 (Some (containsTask
                          (mkItem i ty tx st ag ln lv (flaggedItem <$> cs) (Some k))))).
  rewrite Hk. f_equal.
  clear Hk. induction IH as [|c cs' Hc _ IHcs]; [done|]. csimpl. by rewrite Hc, IHcs.
Qed.

Lemma markTaskDescendants_flagged items :
  markTaskDescendants items
  = (flaggedItem <$> items, bool_decide (Exists isTask (allNodes items))).
Proof.
  unfold markTaskDescendants. rewrite <- existsb_containsTask. f_equal.
  - induction items as [|c items IH]; [done|].
    csimpl. by rewrite markItem_flagged, IH.
  - induction items as [|c items IH]; [done|].
    csimpl. by rewrite markItem_flagged, IH.
Qed.

(** X12. [markTaskDescendants] returns whether the forest contains a Task
    anywhere, and leaves the forest with the flag of every node set to
    whether the subtree of that node contains a Task, whatever the flags
    were before, and with nothing else changed; marking a marked forest
    again gives the same forest and the same answer. *)
Theorem mark_sets_flags (items : list HierarchyItem) :
  markTaskDescendants items
  = (flaggedItem <$> items, bool_decide (Exists isTask (allNodes items)))
  ∧ markTaskDescendants (markTaskDescendants items).1 = markTaskDescendants items.
Proof.
  split; [apply markTaskDescendants_flagged|].
  rewrite !markTaskDescendants_flagged. cbn [fst]. f_equal.
  - rewrite <- list_fmap_compose. apply list_fmap_ext.
    intros _ c _. apply flaggedItem_idemp.
  - rewrite <- !existsb_containsTask.
    induction items as [|c items IH]; [done|].
    csimpl. by rewrite containsTask_flaggedItem, IH.
Qed.

Lemma filterItem_kept item :
  Forall (λ n, kept n = true) (nodes item) → filterItem item = item.
Proof.
  induction item as [i ty tx st ag ln lv cs h IH] using HierarchyItem_forest_ind.
  rewrite nodes_unfold, Forall_cons. cbn [children]. intros [_ Hcs].
  change (filterItem (mkItem i ty tx st ag ln lv cs h))
    with (mkItem i ty tx st ag ln lv
                 (omap (λ c, if kept c then Some (filterItem c) else None) cs) h).
  f_equal. unfold allNodes in Hcs.
  induction IH as [|c cs' Hc _ IHcs]; [done|].
  rewrite bind_cons, Forall_app in Hcs. destruct Hcs as [Hc' Hcs'].
  csimpl. assert (kept c = true) as ->.
  { rewrite nodes_unfold in Hc'. by apply Forall_cons in Hc' as [? _]. }
  csimpl. by rewrite Hc, IHcs.
Qed.

Lemma filterTaskBranches_kept items :
  Forall (λ n, kept n = true) (allNodes items) → filterTaskBranches items = items.
Proof.
  unfold filterTaskBranches, allNodes.
  induction items as [|c items IH]; [done|].
  rewrite bind_cons, Forall_app. intros [Hc Hitems].
  csimpl. assert (kept c = true) as ->.
  { rewrite nodes_unfold in Hc. by apply Forall_cons in Hc as [? _]. }
  csimpl. by rewrite filterItem_kept, IH.
Qed.

(** X13. Filtering is a projection: [filterTaskBranches] returns a forest
    it has filtered unchanged, and on a forest none of whose roots carries
    a true flag (one that has not been marked, for instance) it returns
    the empty forest. *)
Theorem filter_twice (items : list HierarchyItem) :
  (let out := filterTaskBranches (markTaskDescendants items).1 in
   filterTaskBranches out = out)
  ∧ (Forall (λ root, hasTaskDescendants root ≠ Some true) items →
     filterTaskBranches items = []).
Proof.
  split.
  - cbn zeta. rewrite filter_mark. apply filterTaskBranches_kept.
    eapply Forall_impl; [apply pruned_nodes|].
    intros n [Hflag _]. unfold kept. by rewrite Hflag.
  - unfold filterTaskBranches. induction 1 as [|c cs Hc _ IH]; [done|].
    csimpl. unfold kept at 1. destruct (hasTaskDescendants c) as [[]|]; done.
Qed.

(** ** Title and subtitle *)

Lemma parsePlan_header tokenize content path :
  ∃ plan,
    parsePlan tokenize content path = Returned plan
    ∧ title plan
      = (let firstLine := Js.trim (Js.stripHeadingMarker (Js.firstLine content)) in
         if Js.truthy firstLine then firstLine else u "Untitled Plan")
    ∧ subtitle plan
      = (if Js.truthy (Js.lastSegment path) then Js.lastSegment path else path).
Proof.
  destruct (parsePlan_spec tokenize content path)
    as (flat & store & plan & _ & _ & _ & _ & Hplan & _).
  exists plan. split; [done|].
  unfold parsePlan, buildHierarchy, bind in Hplan.
  destruct (extractItems _ _); [|done]. destruct (buildStore _); [|done].
  by injection Hplan as <-.
Qed.

Lemma trimStart_Forall (P : N → Prop) s : Forall P s → Forall P (Js.trimStart s).
Proof.
  induction 1 as [|c s Hc Hs IH]; [constructor|]. cbn [Js.trimStart].
  destruct (Js.isWhiteSpace c); [done | by constructor].
Qed.

Lemma trimEnd_Forall (P : N → Prop) s : Forall P s → Forall P (Js.trimEnd s).
Proof.
  intros Hs. unfold Js.trimEnd. by apply Forall_reverse, trimStart_Forall, Forall_reverse.
Qed.

Lemma dropHashes_Forall (P : N → Prop) s : Forall P s → Forall P (Js.dropHashes s).
Proof.
  induction 1 as [|c s Hc Hs IH]; [constructor|]. cbn [Js.dropHashes].
  destruct (c =? 35)%N; [done | by constructor].
Qed.

Lemma firstLine_Forall s : Forall (λ c, c ≠ 10%N) (Js.firstLine s).
Proof.
  induction s as [|c s IH]; [constructor|]. cbn [Js.firstLine].
  destruct (c =? 10)%N eqn:Hc; [constructor|].
  constructor; [|done]. by apply N.eqb_neq.
Qed.

Lemma firstLine_app line rest :
  Forall (λ c, c ≠ 10%N) line →
  rest = [] ∨ head rest = Some 10%N →
  Js.firstLine (line ++ rest) = line.
Proof.
  intros Hline Hrest. induction Hline as [|c line Hc _ IH]; cbn [app Js.firstLine].
  - destruct Hrest as [->|Hrest]; [done|].
    destruct rest as [|d rest]; [done|]. by injection Hrest as ->.
  - apply N.eqb_neq in Hc. by rewrite Hc, IH.
Qed.

Lemma trimStart_blank spaces s :
  Forall (λ c, Js.isWhiteSpace c = true) spaces →
  Js.trimStart (spaces ++ s) = Js.trimStart s.
Proof.
  induction 1 as [|c spaces Hc _ IH]; [done|]. cbn [app Js.trimStart]. by rewrite Hc.
Qed.

Lemma trimEnd_blank s trailing :
  Forall (λ c, Js.isWhiteSpace c = true) trailing →
  Js.trimEnd (s ++ trailing) = Js.trimEnd s.
Proof.
  intros Hws. unfold Js.trimEnd. rewrite reverse_app, trimStart_blank; [done|].
  by apply Forall_reverse.
Qed.

(** A string that [trim] leaves alone and that is not empty begins and
    ends with a character that is not white space. *)
Lemma trimmed_ends body :
  body ≠ [] → Js.trim body = body →
  Js.trimStart body = body ∧ Js.trimEnd body = body.
Proof.
  intros Hne Htrim. unfold Js.trim in Htrim.
  pose proof (trimStart_head body) as Hhead.
  destruct (Js.trimStart body) as [|c r] eqn:Hstart.
  - by rewrite <- Htrim in Hne.
  - rewrite trimEnd_cons in Htrim by done.
    assert (Js.trimStart body = body) as Hsame.
    { destruct body as [|b body']; [done|]. injection Htrim as <- _.
      cbn [Js.trimStart]. by rewrite Hhead. }
    rewrite Hsame in Hstart. subst body. split; [done|].
    by rewrite trimEnd_cons.
Qed.

Lemma trim_padded spaces body trailing :
  Forall (λ c, Js.isWhiteSpace c = true) spaces →
  Forall (λ c, Js.isWhiteSpace c = true) trailing →
  body ≠ [] → Js.trim body = body →
  Js.trim (spaces ++ body ++ trailing) = body.
Proof.
  intros Hspaces Htrailing Hne Htrim.
  destruct (trimmed_ends body Hne Htrim) as [Hstart Hend].
  unfold Js.trim. rewrite trimStart_blank by done.
  assert (Js.trimStart (body ++ trailing) = body ++ trailing) as ->.
  { destruct body as [|b body']; [done|]. cbn [app Js.trimStart] in *.
    destruct (Js.isWhiteSpace b) eqn:Hb; [|done].
    exfalso. pose proof (trimStart_head body') as Hhead. rewrite Hstart in Hhead.
    congruence. }
  by rewrite trimEnd_blank.
Qed.

Lemma dropHashes_app hashes s :
  Forall (λ c, c = 35%N) hashes →
  Js.dropHashes (hashes ++ s) = Js.dropHashes s.
Proof. induction 1 as [|c hashes -> _ IH]; [done|]. by cbn [app Js.dropHashes N.eqb Pos.eqb]. Qed.

Lemma dropHashes_other s : head s ≠ Some 35%N → Js.dropHashes s = s.
Proof.
  destruct s as [|c s]; [done|]. cbn [head Js.dropHashes]. intros Hc.
  destruct (c =? 35)%N eqn:Heq; [|done]. apply N.eqb_eq in Heq. congruence.
Qed.

Lemma startsWith_hash s :
  Js.startsWith (u "#") s = bool_decide (head s = Some 35%N).
Proof.
  destruct s as [|c s]; [done|]. change (u "#") with [35%N].
  cbn [Js.startsWith head]. rewrite andb_true_r, N.eqb_sym.
  destruct (c =? 35)%N eqn:Heq.
  - apply N.eqb_eq in Heq as ->. done.
  - apply N.eqb_neq in Heq. rewrite bool_decide_eq_false_2; [done|]. congruence.
Qed.

(** X15. When the first line of the content is a run of [#], white space,
    a text, and white space, the title is the text: the heading marker
    and the surrounding white space are stripped, and what follows the
    first line feed plays no part. *)
Theorem title_of_heading_line
    (tokenize : Js.str → list Token)
    (hashes spaces body trailing rest path : Js.str) :
  Forall (λ c, c = 35%N) hashes →
  blank spaces →
  blank trailing →
  body ≠ [] →
  Js.trim body = body →
  Forall (λ c, c ≠ 10%N) body →
  head body ≠ Some 35%N →
  rest = [] ∨ head rest = Some 10%N →
  ∃ plan,
    parsePlan tokenize (hashes ++ spaces ++ body ++ trailing ++ rest) path
    = Returned plan
    ∧ title plan = body.
Proof.
  intros Hhashes Hspaces Htrailing Hne Htrim Hbody Hhead Hrest.
  destruct (parsePlan_header tokenize (hashes ++ spaces ++ body ++ trailing ++ rest) path)
    as (plan & Hplan & Htitle & _).
  exists plan. split; [done|]. rewrite Htitle. cbn zeta.
  assert (Forall (λ c, Js.isWhiteSpace c = true) spaces) as Hws1.
  { eapply Forall_impl; [exact Hspaces|]. by intros c [? _]. }
  assert (Forall (λ c, Js.isWhiteSpace c = true) trailing) as Hws2.
  { eapply Forall_impl; [exact Htrailing|]. by intros c [? _]. }
  assert (Js.firstLine (hashes ++ spaces ++ body ++ trailing ++ rest)
          = hashes ++ spaces ++ body ++ trailing) as ->.
  { replace (hashes ++ spaces ++ body ++ trailing ++ rest)
      with ((hashes ++ spaces ++ body ++ trailing) ++ rest)
      by (by rewrite <- !app_assoc).
    apply firstLine_app; [|done]. rewrite !Forall_app. repeat split.
    - eapply Forall_impl; [exact Hhashes|]. by intros c ->.
    - eapply Forall_impl; [exact Hspaces|]. by intros c [_ ?].
    - done.
    - eapply Forall_impl; [exact Htrailing|]. by intros c [_ ?]. }
  assert (head (spaces ++ body ++ trailing) ≠ Some 35%N) as Hx.
  { destruct Hws1 as [|c spaces' Hc _].
    - destruct body; [done|]. exact Hhead.
    - cbn [app head]. intros [= ->]. by vm_compute in Hc. }
  assert (Js.trim (Js.stripHeadingMarker (hashes ++ spaces ++ body ++ trailing)) = body)
    as ->.
  { unfold Js.stripHeadingMarker. rewrite startsWith_hash.
    destruct Hhashes as [|c hashes' -> Hhashes].
    - cbn [app]. rewrite bool_decide_eq_false_2 by done. by apply trim_padded.
    - rewrite bool_decide_eq_true_2 by done.
      rewrite (dropHashes_app (35%N :: hashes')) by (by constructor).
      rewrite dropHashes_other by done.
      unfold Js.trim. rewrite trimStart_idemp. by apply trim_padded. }
  by destruct body.
Qed.

Lemma title_of_heading_line_witness :
  ∃ plan,
    parsePlan (λ _, [])
              (u "##" ++ u " " ++ u "Release plan" ++ u "  "
               ++ (10%N :: u "- [ ] first")) (u "docs/PLAN.md")
    = Returned plan
    ∧ title plan = u "Release plan".
Proof.
  apply (title_of_heading_line (λ _, []) (u "##") (u " ") (u "Release plan")
           (u "  ") (10%N :: u "- [ ] first") (u "docs/PLAN.md")).
  - refine (bool_decide_unpack _ _). by vm_compute.
  - unfold blank. refine (bool_decide_unpack _ _). by vm_compute.
  - unfold blank. refine (bool_decide_unpack _ _). by vm_compute.
  - by vm_compute.
  - by vm_compute.
  - refine (bool_decide_unpack _ _). by vm_compute.
  - by vm_compute.
  - by right.
Defined.

Lemma trimStart_all_blank s :
  Forall (λ c, Js.isWhiteSpace c = true) s → Js.trimStart s = [].
Proof. induction 1 as [|c s Hc _ IH]; [done|]. cbn [Js.trimStart]. by rewrite Hc. Qed.

Lemma head_blank spaces : blank spaces → head spaces ≠ Some 35%N.
Proof.
  destruct 1 as [|c spaces [Hc _] _]; [done|].
  cbn [head]. intros [= ->]. by vm_compute in Hc.
Qed.

(** X14. The title of the plan that [parsePlan] returns is never empty,
    has no white space at either end and is a single line; it is
    [Untitled Plan] when the first line of the content is blank or holds
    a heading marker alone. *)
Theorem title_shape (tokenize : Js.str → list Token) (content path : Js.str) :
  ∃ plan,
    parsePlan tokenize content path = Returned plan
    ∧ title plan ≠ []
    ∧ Js.trim (title plan) = title plan
    ∧ Forall (λ c, c ≠ 10%N) (title plan)
    ∧ ∀ hashes spaces rest,
        content = hashes ++ spaces ++ rest →
        Forall (λ c, c = 35%N) hashes →
        blank spaces →
        rest = [] ∨ head rest = Some 10%N →
        title plan = u "Untitled Plan".
Proof.
  destruct (parsePlan_header tokenize content path) as (plan & Hplan & Htitle & _).
  exists plan. split; [done|]. rewrite Htitle. cbn zeta.
  assert (let line := Js.trim (Js.stripHeadingMarker (Js.firstLine content)) in
          let shown := if Js.truthy line then line else u "Untitled Plan" in
          shown ≠ [] ∧ Js.trim shown = shown ∧ Forall (λ c, c ≠ 10%N) shown)
    as Hshape.
  { cbn zeta. destruct (Js.trim _) as [|c r] eqn:Hline; cbn [Js.truthy].
    - split; [by vm_compute|]. split; [by vm_compute|].
      refine (bool_decide_unpack _ _). by vm_compute.
    - rewrite <- Hline. split; [by rewrite Hline|]. split; [apply trim_idemp|].
      unfold Js.trim, Js.stripHeadingMarker.
      apply trimEnd_Forall, trimStart_Forall.
      destruct (Js.startsWith _ _).
      + apply trimStart_Forall, dropHashes_Forall, firstLine_Forall.
      + apply firstLine_Forall. }
  destruct Hshape as (Hne & Htrim & Hline). do 3 (split; [done|]).
  intros hashes spaces rest -> Hhashes Hspaces Hrest.
  assert (Forall (λ c, Js.isWhiteSpace c = true) spaces) as Hws.
  { eapply Forall_impl; [exact Hspaces|]. by intros c [? _]. }
  assert (Js.firstLine (hashes ++ spaces ++ rest) = hashes ++ spaces) as ->.
  { rewrite app_assoc. apply firstLine_app; [|done]. apply Forall_app. split.
    - eapply Forall_impl; [exact Hhashes|]. by intros c ->.
    - eapply Forall_impl; [exact Hspaces|]. by intros c [_ ?]. }
  assert (Js.trim (Js.stripHeadingMarker (hashes ++ spaces)) = []) as ->; [|done].
  unfold Js.stripHeadingMarker. rewrite startsWith_hash.
  pose proof (head_blank spaces Hspaces) as Hhead.
  destruct Hhashes as [|c hashes' -> Hhashes].
  - cbn [app]. rewrite bool_decide_eq_false_2 by done.
    unfold Js.trim. by rewrite (trimStart_all_blank spaces) by done.
  - rewrite bool_decide_eq_true_2 by done.
    rewrite (dropHashes_app (35%N :: hashes')) by (by constructor).
    rewrite dropHashes_other by done.
    unfold Js.trim. by rewrite (trimStart_all_blank spaces) by done.
Qed.

Lemma lastSegment_none s :
  existsb isSeparator s = false → Js.lastSegment s = s.
Proof.
  destruct s as [|c r]; [done|]. cbn [existsb Js.lastSegment].
  intros [Hc Hr]%orb_false_iff. fold isSeparator. unfold isSeparator at 1 in Hc.
  change (existsb (λ d, ((d =? 47) || (d =? 92))%N) r) with (existsb isSeparator r).
  by rewrite Hr, Hc.
Qed.

Lemma lastSegment_app dir sep name :
  isSeparator sep = true →
  existsb isSeparator name = false →
  Js.lastSegment (dir ++ sep :: name) = name.
Proof.
  intros Hsep Hname. induction dir as [|c dir IH]; cbn [app Js.lastSegment].
  - change (existsb (λ d, ((d =? 47) || (d =? 92))%N) name)
      with (existsb isSeparator name).
    rewrite Hname. unfold isSeparator in Hsep. by rewrite Hsep.
  - change (existsb (λ d, ((d =? 47) || (d =? 92))%N) (dir ++ sep :: name))
      with (existsb isSeparator (dir ++ sep :: name)).
    rewrite existsb_app. cbn [existsb]. rewrite Hsep, orb_true_r. exact IH.
Qed.

(** X16. The subtitle is the file name: what follows the last slash or
    backslash of the path, or the whole path when it has neither; a path
    that ends in a separator has no file name, and the subtitle is then
    the whole path. *)
Theorem subtitle_file_name
    (tokenize : Js.str → list Token) (content path name : Js.str) :
  existsb isSeparator name = false →
  path = name ∨ (∃ dir sep, path = dir ++ sep :: name ∧ isSeparator sep = true) →
  ∃ plan,
    parsePlan tokenize content path = Returned plan
    ∧ subtitle plan = if Js.truthy name then name else path.
Proof.
  intros Hname Hpath.
  destruct (parsePlan_header tokenize content path) as (plan & Hplan & _ & Hsub).
  exists plan. split; [done|]. rewrite Hsub.
  assert (Js.lastSegment path = name) as ->; [|done].
  destruct Hpath as [->|(dir & sep & -> & Hsep)].
  - by apply lastSegment_none.
  - by apply lastSegment_app.
Qed.

Lemma subtitle_file_name_witness :
  ∃ plan,
    parsePlan (λ _, []) (u "# Release plan") (u "C:\work/docs/PLAN.md")
    = Returned plan
    ∧ subtitle plan = u "PLAN.md".
Proof.
  apply (subtitle_file_name (λ _, []) (u "# Release plan")
           (u "C:\work/docs/PLAN.md") (u "PLAN.md")).
  - by vm_compute.
  - right. exists (u "C:\work/docs"), 47%N. by vm_compute.
Defined.

(** ** Standard checklist items *)

Lemma find_first {A} (f : A → bool) before x after :
  Forall (λ c, f c = false) before → f x = true →
  List.find f (before ++ x :: after) = Some x.
Proof.
  intros Hbefore Hx. induction Hbefore as [|c before Hc _ IH]; cbn [app List.find].
  - by rewrite Hx.
  - by rewrite Hc.
Qed.

Lemma find_none {A} (f : A → bool) l :
  Forall (λ c, f c = false) l → List.find f l = None.
Proof. induction 1 as [|c l Hc _ IH]; [done|]. cbn [List.find]. by rewrite Hc. Qed.

Lemma checkboxOf_standard token contentToken inline :
  hasTaskClass token = true →
  checkboxOf token contentToken inline
  = (match List.find isCheckbox inline with
     | Some c => if Js.includes checkedAttr (tok_content c) then Some Done
                 else Some Pending
     | None => None
     end, visibleText inline).
Proof. intros Hclass. unfold checkboxOf. by rewrite Hclass. Qed.

(** X17. On a list item that the task-list plugin marked and whose inline
    token has children: the state comes from the first checkbox element
    among the children, Done when it carries the checked attribute and
    Pending otherwise, and the text is that of the children that are no
    HTML; an item with no checkbox element, or with no text, emits
    nothing. The raw content of the inline token plays no part. *)
Theorem standard_checkbox_task tokens filePath st i token contentToken inline :
  tokens !! i = Some token →
  hasType "list_item_open" token = true →
  hasTaskClass token = true →
  tokens !! (i + 2)%nat = Some contentToken →
  hasType "inline" contentToken = true →
  tok_children contentToken = Some inline →
  (∀ before box after,
      inline = before ++ box :: after →
      Forall (λ c, isCheckbox c = false) before →
      isCheckbox box = true →
      visibleText inline ≠ [] →
      ∃ st' taskLevel,
        extractToken tokens filePath st i = Returned st'
        ∧ flatItems st'
          = flatItems st
            ++ [mkFlat (mkItem (itemId filePath (lineNumberOf token (lineCounter st)))
                               Task (visibleText inline)
                               (Some (if Js.includes checkedAttr (tok_content box)
                                      then Done else Pending))
                               None (lineNumberOf token (lineCounter st)) taskLevel
                               [] None)
                       taskLevel])
  ∧ (Forall (λ c, isCheckbox c = false) inline ∨ visibleText inline = [] →
     ∃ st', extractToken tokens filePath st i = Returned st'
            ∧ flatItems st' = flatItems st).
Proof.
  intros Htoken Hitem Hclass Hcontent Hinline Hchildren.
  unfold extractToken. rewrite Htoken. csimpl.
  rewrite extractHeading_item, trackListDepth_spec by done.
  unfold extractTask. rewrite Hitem, Hcontent, Hinline, Hchildren. csimpl.
  rewrite checkboxOf_standard by done.
  split.
  - intros before box after -> Hbefore Hbox Htext.
    rewrite (find_first _ _ _ _ Hbefore Hbox).
    destruct (lastHeadingLevel_returns (flatItems st) (length (flatItems st)))
      as [headingLevel Hlevel]; [done|].
    destruct (Js.includes checkedAttr (tok_content box));
      rewrite truthy_true by done; rewrite Hlevel; csimpl; by eexists _, _.
  - intros [Hnone|Htext].
    + rewrite (find_none _ _ Hnone). by eexists.
    + rewrite Htext. destruct (List.find _ _) as [c|]; [|by eexists].
      destruct (Js.includes _ _); by eexists.
Qed.

Lemma standard_checkbox_task_witness :
  ∃ st' taskLevel,
    extractToken Examples.sectionWithTwoTasks (u "PLAN.md") (mkExtract [] 1 12) 12
    = Returned st'
    ∧ flatItems st'
      = [mkFlat (mkItem (u "PLAN.md:3") Task (u "B") (Some Done) None
                        3%nat taskLevel [] None) taskLevel].
Proof.
  destruct (standard_checkbox_task Examples.sectionWithTwoTasks (u "PLAN.md")
              (mkExtract [] 1 12) 12
              (Examples.listItemOpen 3 true)
              (Examples.inlineToken (u " B") (Examples.checklistInline true " B"))
              (Examples.checklistInline true " B")
              eq_refl eq_refl eq_refl eq_refl eq_refl eq_refl) as [Hemit _].
  apply (Hemit [Examples.htmlInline (u "<label>")] (Examples.checkbox true)
               [Examples.textToken (u " B"); Examples.htmlInline (u "</label>")]).
  - reflexivity.
  - by repeat constructor.
  - by vm_compute.
  - vm_compute. discriminate.
Defined.

(** ** The forest in document order *)

(** After an item comes a run of deeper items, up to the first item that
    is not deeper. *)
Lemma next_not_deeper flat a b :
  (a < b)%nat →
  ∃ a', (a < a' ≤ b)%nat
        ∧ (∀ j, (a < j < a')%nat → levelAt flat a < levelAt flat j)
        ∧ (a' = b ∨ levelAt flat a' ≤ levelAt flat a).
Proof.
  intros Hab. induction b as [|b IH]; [lia|].
  destruct (decide (a = b)) as [->|Hne].
  { exists (S b). split; [lia|]. split; [intros; lia | by left]. }
  destruct IH as (a' & Ha' & Hbetween & [->|Hle]); [lia| |].
  - destruct (decide (levelAt flat b ≤ levelAt flat a)) as [Hle|Hgt].
    + exists b. split; [lia|]. split; [done | by right].
    + exists (S b). split; [lia|]. split; [|by left].
      intros j Hj. destruct (decide (j = b)) as [->|]; [lia|]. apply Hbetween. lia.
  - exists a'. split; [lia|]. split; [done | by right].
Qed.

Lemma filter_seq_none (P : nat → Prop) `{∀ x, Decision (P x)} a n :
  (∀ c, (a ≤ c < a + n)%nat → ¬ P c) → filter P (seq a n) = [].
Proof.
  intros Hnone. apply filter_none, Forall_forall. intros c Hc%elem_of_seq.
  apply Hnone. lia.
Qed.

Lemma preorder_segment flat store :
  placed flat (length flat) store →
  let trees := resolveItems (zip flat (childrenOf store)) 0 in
  ∀ m a b k ts,
    (b - a ≤ m)%nat →
    (a ≤ b ≤ length flat)%nat →
    (∀ c, (a ≤ c < b)%nat →
          nearestSmaller flat c = k
          ↔ ∀ j, (a ≤ j < c)%nat → levelAt flat c ≤ levelAt flat j) →
    (b = length flat ∨ ∀ j, (a ≤ j < b)%nat → levelAt flat b ≤ levelAt flat j) →
    Forall2 (λ c t, trees !! c = Some t)
            (filter (λ c, nearestSmaller flat c = k) (seq a (b - a))) ts →
    shell <$> (ts ≫= nodes) = shell <$> (f_item <$> take (b - a) (drop a flat)).
Proof.
  intros Hplaced trees m.
  induction m as [|m IH]; intros a b k ts Hm Hab Htop Hend Hts.
  { replace (b - a)%nat with 0%nat in * by lia. csimpl in Hts.
    by apply Forall2_nil_inv_l in Hts as ->. }
  destruct (decide (a = b)) as [->|Hne].
  { rewrite Nat.sub_diag in *. csimpl in Hts.
    by apply Forall2_nil_inv_l in Hts as ->. }
  destruct (next_not_deeper flat a b) as (a' & Ha' & Hdeeper & Hnext); [lia|].
  assert (a' = length flat ∨ levelAt flat a' ≤ levelAt flat a) as Hnext'.
  { destruct Hnext as [->|Hle]; [|by right].
    destruct Hend as [->|Hend]; [by left|]. right. apply Hend. lia. }
  assert (filter (λ c, nearestSmaller flat c = k) (seq a (b - a))
          = a :: filter (λ c, nearestSmaller flat c = k) (seq a' (b - a')))
    as Hsplit.
  { replace (b - a)%nat with (S ((a' - S a) + (b - a')))%nat by lia.
    cbn [seq]. rewrite seq_app, filter_cons_True, filter_app.
    - rewrite (filter_seq_none _ (S a)); [|].
      + cbn [app]. do 3 f_equal. lia.
      + intros c Hc Hk.
        assert (a ≤ c < b)%nat as Hcb by lia.
        pose proof (proj1 (Htop c Hcb) Hk a) as Hca.
        specialize (Hdeeper c). lia.
    - assert (a ≤ a < b)%nat as Hcb by lia.
      apply (proj2 (Htop a Hcb)). intros j Hj. lia. }
  rewrite Hsplit in Hts.
  apply Forall2_cons_inv_l in Hts as (t & ts' & Ht & Hts' & ->).
  destruct (lookup_lt_is_Some_2 flat a) as [entry Hentry]; [lia|].
  destruct (lookup_lt_is_Some_2 (childrenOf store) a) as [names Hnames].
  { rewrite (placed_length _ _ Hplaced). lia. }
  destruct (resolve_children _ _ _ _ _ Hplaced Hentry Hnames)
    as (kids & Htree & Hkids).
  fold trees in Htree, Hkids. rewrite Htree in Ht. injection Ht as <-.
  destruct (placed_children _ _ _ _ Hplaced Hnames) as [_ ->].
  assert (filter (λ c, nearestSmaller flat c = Some a) (seq 0 (length flat))
          = filter (λ c, nearestSmaller flat c = Some a) (seq (S a) (a' - S a)))
    as Hnames'.
  { replace (length flat) with (S a + ((a' - S a) + (length flat - a')))%nat
      at 1 by lia.
    rewrite !seq_app, !filter_app. cbn [plus].
    rewrite (filter_seq_none _ 0), (filter_seq_none _ (S a + (a' - S a))).
    - by rewrite app_nil_r.
    - intros c Hc Hk. apply nearestSmaller_isParent in Hk as (_ & Hlt & Hbetween); [|lia].
      destruct Hnext' as [->|Hle]; [lia|].
      destruct (decide (c = a')) as [->|]; [lia|].
      specialize (Hbetween a'). lia.
    - intros c Hc Hk. apply nearestSmaller_isParent in Hk as (? & _); lia. }
  rewrite Hnames' in Hkids.
  rewrite bind_cons, fmap_app, nodes_unfold, fmap_cons.
  cbn [children withChildren]. rewrite shell_withChildren.
  unfold allNodes.
  rewrite (IH (S a) a' (Some a) kids); [|lia|lia| | |exact Hkids].
  - rewrite (IH a' b k ts'); [|lia|lia| | |exact Hts'].
    + rewrite (drop_S _ _ _ Hentry).
      replace (b - a)%nat with (S ((a' - S a) + (b - a')))%nat by lia.
      cbn [take fmap list_fmap]. rewrite <- take_take_drop, drop_drop.
      rewrite !fmap_app.
      by replace (S a + (a' - S a))%nat with a' by lia.
    + intros c Hc. rewrite (Htop c) by lia. split.
      * intros Hall j Hj. apply Hall. lia.
      * intros Hall j Hj. destruct (decide (a' ≤ j)%nat); [apply Hall; lia|].
        assert (levelAt flat c ≤ levelAt flat a') as Hca'.
        { destruct (decide (c = a')) as [->|]; [lia|]. apply Hall. lia. }
        assert (levelAt flat a' ≤ levelAt flat a) as Ha'a.
        { destruct Hnext as [->|]; [lia|done]. }
        destruct (decide (j = a)) as [->|]; [lia|].
        specialize (Hdeeper j). lia.
    + destruct Hend as [->|Hend]; [by left|]. right. intros j Hj. apply Hend. lia.
  - intros c Hc. rewrite nearestSmaller_isParent by lia. unfold isParent. split.
    + intros (_ & _ & Hall) j Hj. apply Hall. lia.
    + intros Hall. split; [lia|]. split; [apply Hdeeper; lia|].
      intros j Hj. apply Hall. lia.
  - destruct Hnext' as [->|Hle]; [by left|]. right. intros j Hj.
    specialize (Hdeeper j). lia.
Qed.

Lemma resolve_preorder flat store :
  placed flat (length flat) store →
  shell <$> allNodes (resolve flat store) = shell <$> (f_item <$> flat).
Proof.
  intros Hplaced.
  rewrite <- (take_ge flat (length flat - 0)) at 2 by lia.
  change flat with (drop 0 flat) at 3.
  apply (preorder_segment flat store Hplaced (length flat) 0 (length flat) None).
  - lia.
  - lia.
  - intros c Hc. rewrite nearestSmaller_isRoot by lia. unfold isRoot. split.
    + intros [_ Hall] j Hj. apply Hall. lia.
    + intros Hall. split; [lia|]. intros j Hj. apply Hall. lia.
  - by left.
  - rewrite Nat.sub_0_r. pose proof (resolve_roots _ _ Hplaced) as Hroots.
    destruct Hplaced as (Hroot & _). rewrite Hroot in Hroots. cbn zeta in Hroots.
    set (l := filter _ _). set (l' := filter _ _) in Hroots.
    assert (l = l') as ->; [|done].
    apply filter_ext_in. by intros.
Qed.

(** X18. The forest that [buildHierarchy] returns, read depth first with
    every item before its children, is the flat list in its order: no
    item is lost, repeated or moved, and every item keeps its fields. *)
Theorem hierarchy_document_order (flatItems : list FlatItem) :
  ∃ forest,
    buildHierarchy flatItems = Returned forest
    ∧ shell <$> allNodes forest = shell <$> (f_item <$> flatItems).
Proof.
  destruct (buildStore_spec flatItems) as (store & Hbuild & Hplaced).
  exists (resolve flatItems store). split.
  - unfold buildHierarchy. by rewrite Hbuild.
  - by apply resolve_preorder.
Qed.

Lemma tasks_same_shells (l1 l2 : list HierarchyItem) :
  shell <$> l1 = shell <$> l2 →
  core <$> filter isTask l1 = core <$> filter isTask l2.
Proof. intros Heq. by rewrite <- (tasks_shell l1), <- (tasks_shell l2), Heq. Qed.

(** X19. The tasks of the plan that [parsePlan] returns, read depth first,
    are the tasks that the extractor emitted, in the order of the
    document and with their fields: the branch filter and the aggregator
    neither drop nor reorder a task. *)
Theorem plan_tasks_in_order
    (tokenize : Js.str → list Token) (content path : Js.str) :
  ∃ flat plan,
    extractItems (tokenize content) path = Returned flat
    ∧ parsePlan tokenize content path = Returned plan
    ∧ core <$> filter isTask (allNodes (tasks plan))
      = core <$> filter isTask (f_item <$> flat).
Proof.
  destruct (parsePlan_spec tokenize content path)
    as (flat & store & plan & Hflat & _ & _ & Hplaced & Hplan & Htasks & _).
  exists flat, plan. split; [done|]. split; [done|].
  rewrite Htasks, tasks_calculateAggregatedStatus, tasks_pruned.
  by apply tasks_same_shells, resolve_preorder.
Qed.

(** ** The provider *)

Section ProviderLaws.

Context {Mtime : Type} `{EqDecision Mtime}.
Variable tokenize : Js.str → list Token.

Lemma set_returns (stat : PlanCache.FileSystem Mtime) P plan c :
  ∃ c1, PlanCache.set stat P plan c = Returned c1
        ∧ PlanCache.cache c1
          = match stat P with
            | Returned T => <[P := PlanCache.mkEntry T plan]> (PlanCache.cache c)
            | Thrown _ => PlanCache.cache c
            end.
Proof.
  unfold PlanCache.set, PlanCache.tryCatch, bind.
  destruct (stat P) as [T|e]; by eexists.
Qed.

Ltac run :=
  unfold Provider.bindM, Provider.tryCatchM, Provider.appendLine,
    Provider.onCache, Provider.setCurrentFile, Provider.setPlanFiles,
    Provider.lift, Provider.ret, Provider.read, Provider._sendFileList,
    Provider._postMessage, Provider.appendLine;
  cbn [Provider._view Provider._cache Provider._planFiles
       Provider._currentFile Provider._isInitialized bind].

(** What [_loadPlan] does, by the state of the cache and of the file. *)
Lemma loadPlan_cases_lemma (env : Provider.Environment Mtime) uri
    (p : Provider.t Mtime) :
  let filePath := Provider.fsPath uri in
  let map := PlanCache.cache (Provider._cache p) in
  let hit entry :=
    map !! filePath = Some entry
    ∧ Provider.stat env filePath = Returned (PlanCache.mtime entry) in
  let files := Provider.fileList env (Provider._planFiles p) (Some uri) in
  ∃ p',
    Provider._loadPlan tokenize env uri p = (Returned tt, p')
    ∧ Provider._currentFile p' = Some uri
    ∧ Provider._planFiles p' = Provider._planFiles p
    ∧ Provider._isInitialized p' = Provider._isInitialized p
    ∧ ((∃ entry,
          hit entry
          ∧ postedBy p p' [Provider.UpdatePlan (PlanCache.parsed entry);
                           Provider.FileList files]
          ∧ PlanCache.cache (Provider._cache p') = map)
       ∨ ((∀ entry, ¬ hit entry)
          ∧ ∃ content plan,
              Provider.readFile env filePath = Returned content
              ∧ parsePlan tokenize content filePath = Returned plan
              ∧ postedBy p p' [Provider.UpdatePlan plan; Provider.FileList files]
              ∧ PlanCache.cache (Provider._cache p')
                = match Provider.stat env filePath with
                  | Returned T => <[filePath := PlanCache.mkEntry T plan]> map
                  | Thrown _ => map
                  end)
       ∨ ((∀ entry, ¬ hit entry)
          ∧ ∃ error,
              Provider.readFile env filePath = Thrown error
              ∧ postedBy p p'
                  [Provider.Error (u "Failed to load plan: "
                                   ++ Provider.messageOf error)]
              ∧ PlanCache.cache (Provider._cache p') = map)).
Proof.
  intros filePath map hit files. unfold postedBy.
  destruct (get_returns (Provider.stat env) filePath
              (PlanCache.appendLine (u "[PlanMonitor] Loading plan: " ++ filePath)
                 (Provider._cache p))) as (r & c' & Hget & Hmap).
  change (PlanCache.cache c' = map) in Hmap.
  unfold Provider._loadPlan. run. fold filePath. rewrite Hget.
  destruct r as [plan|].
  - apply get_Some in Hget as (entry & Hstat & Hentry & <- & _).
    destruct (Provider._view p) as [posted|]; cbn.
    + eexists. split; [reflexivity|]. cbn. do 3 (split; [done|]).
      left. exists entry. split; [done|]. split; [|done].
      by rewrite <- !app_assoc.
    + eexists. split; [reflexivity|]. cbn. do 3 (split; [done|]).
      left. exists entry. by split.
  - assert (∀ entry, ¬ hit entry) as Hmiss.
    { intros entry [Hentry Hstat].
      assert (PlanCache.get (Provider.stat env) filePath
                (PlanCache.appendLine
                   (u "[PlanMonitor] Loading plan: " ++ filePath)
                   (Provider._cache p))
              = Returned (Some (PlanCache.parsed entry),
                          PlanCache.appendLine (u "Cache hit: " ++ filePath)
                            (PlanCache.appendLine
                               (u "[PlanMonitor] Loading plan: " ++ filePath)
                               (Provider._cache p)))) as Hhit.
      { apply get_Some. by exists entry. }
      congruence. }
    destruct (Provider.readFile env filePath) as [content|error] eqn:Hread.
    + destruct (parsePlan_spec tokenize content filePath)
        as (_ & _ & plan & _ & _ & _ & _ & Hplan & _).
      rewrite Hplan.
      destruct (set_returns (Provider.stat env) filePath plan
                  (PlanCache.appendLine
                     (u "[PlanMonitor] Parsed " ++ Js.ofNat (totalCount plan)
                      ++ u " tasks")
                     (PlanCache.appendLine
                        (u "[PlanMonitor] File read, "
                         ++ Js.ofNat (length content) ++ u " bytes")
                        (PlanCache.appendLine
                           (u "[PlanMonitor] Cache miss, parsing file") c'))))
        as (c1 & Hset & Hmap1).
      cbn [PlanCache.cache PlanCache.appendLine] in Hmap1. rewrite Hmap in Hmap1.
      cbn [Provider._cache]. rewrite Hset.
      destruct (Provider._view p) as [posted|]; cbn.
      * eexists. split; [reflexivity|]. cbn. do 3 (split; [done|]).
        right. left. split; [done|]. exists content, plan.
        split; [done|]. split; [done|]. split; [|done].
        by rewrite <- !app_assoc.
      * eexists. split; [reflexivity|]. cbn. do 3 (split; [done|]).
        right. left. split; [done|]. by exists content, plan.
    + destruct (Provider._view p) as [posted|]; cbn.
      * eexists. split; [reflexivity|]. cbn. do 3 (split; [done|]).
        right. right. split; [done|]. by exists error.
      * eexists. split; [reflexivity|]. cbn. do 3 (split; [done|]).
        right. right. split; [done|]. by exists error.
Qed.


(** X20. Loading a file whose cache entry carries the timestamp that
    [stat] reports posts the cached plan and the file list, without
    reading or parsing the file (whatever [readFile] would give), and
    leaves the cache map as it is. *)
Theorem loadPlan_hit (env : Provider.Environment Mtime) uri
    (p : Provider.t Mtime) entry :
  PlanCache.cache (Provider._cache p) !! Provider.fsPath uri = Some entry →
  Provider.stat env (Provider.fsPath uri) = Returned (PlanCache.mtime entry) →
  ∃ p',
    Provider._loadPlan tokenize env uri p = (Returned tt, p')
    ∧ postedBy p p'
        [Provider.UpdatePlan (PlanCache.parsed entry);
         Provider.FileList
           (Provider.fileList env (Provider._planFiles p) (Some uri))]
    ∧ PlanCache.cache (Provider._cache p') = PlanCache.cache (Provider._cache p)
    ∧ Provider._currentFile p' = Some uri.
Proof.
  intros Hentry Hstat.
  destruct (loadPlan_cases_lemma env uri p)
    as (p' & Hload & Hcurrent & _ & _ & Hcases).
  exists p'. split; [done|].
  destruct Hcases as [(entry' & [Hentry' _] & Hposted & Hmap)
                     |[[Hmiss _]|[Hmiss _]]].
  - replace entry' with entry in * by congruence. done.
  - destruct (Hmiss entry). by split.
  - destruct (Hmiss entry). by split.
Qed.

(** X21. Loading a file that the cache does not answer for (no entry, a
    stale entry, or [stat] failing) and that can be read posts the plan
    parsed from its content and the file list, and stores that plan under
    the timestamp that [stat] reports; when [stat] fails the plan is
    posted all the same and the cache map stays as it is. *)
Theorem loadPlan_miss (env : Provider.Environment Mtime) uri
    (p : Provider.t Mtime) content :
  (∀ entry,
      PlanCache.cache (Provider._cache p) !! Provider.fsPath uri = Some entry →
      Provider.stat env (Provider.fsPath uri) ≠ Returned (PlanCache.mtime entry)) →
  Provider.readFile env (Provider.fsPath uri) = Returned content →
  ∃ plan p',
    parsePlan tokenize content (Provider.fsPath uri) = Returned plan
    ∧ Provider._loadPlan tokenize env uri p = (Returned tt, p')
    ∧ postedBy p p'
        [Provider.UpdatePlan plan;
         Provider.FileList
           (Provider.fileList env (Provider._planFiles p) (Some uri))]
    ∧ PlanCache.cache (Provider._cache p')
      = match Provider.stat env (Provider.fsPath uri) with
        | Returned T =>
            <[Provider.fsPath uri := PlanCache.mkEntry T plan]>
              (PlanCache.cache (Provider._cache p))
        | Thrown _ => PlanCache.cache (Provider._cache p)
        end.
Proof.
  intros Hmiss Hread.
  destruct (loadPlan_cases_lemma env uri p) as (p' & Hload & _ & _ & _ & Hcases).
  destruct Hcases as [(entry & [Hentry Hstat] & _)
                     |[(_ & content' & plan & Hread' & Hplan & Hposted & Hmap)
                      |(_ & error & Hread' & _)]].
  - by destruct (Hmiss entry Hentry).
  - replace content' with content in * by congruence. by exists plan, p'.
  - congruence.
Qed.

(** X22. Loading a file that the cache does not answer for and that
    cannot be read does not throw: it posts one error message with the
    message of the exception, leaves the cache map as it is, and the file
    has become the current file all the same. *)
Theorem loadPlan_read_failure (env : Provider.Environment Mtime) uri
    (p : Provider.t Mtime) error :
  (∀ entry,
      PlanCache.cache (Provider._cache p) !! Provider.fsPath uri = Some entry →
      Provider.stat env (Provider.fsPath uri) ≠ Returned (PlanCache.mtime entry)) →
  Provider.readFile env (Provider.fsPath uri) = Thrown error →
  ∃ p',
    Provider._loadPlan tokenize env uri p = (Returned tt, p')
    ∧ postedBy p p'
        [Provider.Error (u "Failed to load plan: " ++ Provider.messageOf error)]
    ∧ PlanCache.cache (Provider._cache p') = PlanCache.cache (Provider._cache p)
    ∧ Provider._currentFile p' = Some uri.
Proof.
  intros Hmiss Hread.
  destruct (loadPlan_cases_lemma env uri p)
    as (p' & Hload & Hcurrent & _ & _ & Hcases).
  exists p'. split; [done|].
  destruct Hcases as [(entry & [Hentry Hstat] & _)
                     |[(_ & content & plan & Hread' & _)
                      |(_ & error' & Hread' & Hposted & Hmap)]].
  - by destruct (Hmiss entry Hentry).
  - congruence.
  - replace error' with error in * by congruence. done.
Qed.

(** X23. Loading the same file twice, the file system unchanged and the
    file readable with a timestamp, posts the same plan both times: the
    second load is answered by the cache and leaves its map as the first
    load left it. *)
Theorem loadPlan_twice (env : Provider.Environment Mtime) uri
    (p : Provider.t Mtime) T content :
  Provider.stat env (Provider.fsPath uri) = Returned T →
  Provider.readFile env (Provider.fsPath uri) = Returned content →
  ∃ plan p1 p2,
    Provider._loadPlan tokenize env uri p = (Returned tt, p1)
    ∧ Provider._loadPlan tokenize env uri p1 = (Returned tt, p2)
    ∧ PlanCache.cache (Provider._cache p1) !! Provider.fsPath uri
      = Some (PlanCache.mkEntry T plan)
    ∧ postedBy p p1
        [Provider.UpdatePlan plan;
         Provider.FileList
           (Provider.fileList env (Provider._planFiles p) (Some uri))]
    ∧ postedBy p1 p2
        [Provider.UpdatePlan plan;
         Provider.FileList
           (Provider.fileList env (Provider._planFiles p) (Some uri))]
    ∧ PlanCache.cache (Provider._cache p2) = PlanCache.cache (Provider._cache p1).
Proof.
  intros Hstat Hread.
  destruct (loadPlan_cases_lemma env uri p)
    as (p1 & Hload1 & _ & Hfiles & _ & Hcases).
  assert (∃ plan,
             PlanCache.cache (Provider._cache p1) !! Provider.fsPath uri
             = Some (PlanCache.mkEntry T plan)
             ∧ postedBy p p1
                 [Provider.UpdatePlan plan;
                  Provider.FileList
                    (Provider.fileList env (Provider._planFiles p) (Some uri))])
    as (plan & Hentry1 & Hposted1).
  { destruct Hcases as [(entry & [Hentry Hstat'] & Hposted & Hmap)
                       |[(_ & content' & plan & _ & _ & Hposted & Hmap)
                        |(_ & error & Hread' & _)]].
    - exists (PlanCache.parsed entry). split; [|done].
      rewrite Hmap, Hentry. destruct entry as [T' plan]. cbn in *. congruence.
    - exists plan. split; [|done]. rewrite Hmap, Hstat. apply lookup_insert_eq.
    - congruence. }
  destruct (loadPlan_cases_lemma env uri p1) as (p2 & Hload2 & _ & _ & _ & Hcases2).
  exists plan, p1, p2. do 4 (split; [done|]).
  destruct Hcases2 as [(entry & [Hentry _] & Hposted & Hmap)
                      |[[Hmiss _]|[Hmiss _]]].
  - rewrite Hfiles in Hposted.
    replace entry with (PlanCache.mkEntry T plan) in * by congruence. done.
  - destruct (Hmiss (PlanCache.mkEntry T plan)). by split.
  - destruct (Hmiss (PlanCache.mkEntry T plan)). by split.
Qed.


Lemma logPlanFiles_spec files index (p : Provider.t Mtime) :
  ∃ p',
    Provider.logPlanFiles files index p = (Returned tt, p')
    ∧ Provider._view p' = Provider._view p
    ∧ PlanCache.cache (Provider._cache p') = PlanCache.cache (Provider._cache p)
    ∧ Provider._planFiles p' = Provider._planFiles p
    ∧ Provider._currentFile p' = Provider._currentFile p
    ∧ Provider._isInitialized p' = Provider._isInitialized p.
Proof.
  revert index p. induction files as [|file files IH]; intros index p.
  - by eexists.
  - cbn [Provider.logPlanFiles]. run.
    match goal with
    | |- context [Provider.logPlanFiles files (S index) ?q] =>
        destruct (IH (S index) q) as (p' & -> & Hp')
    end.
    by exists p'.
Qed.

Lemma discoverPlanFiles_spec (env : Provider.Environment Mtime)
    (p : Provider.t Mtime) :
  ∃ p',
    Provider._discoverPlanFiles env p = (Returned tt, p')
    ∧ Provider._view p' = Provider._view p
    ∧ PlanCache.cache (Provider._cache p') = PlanCache.cache (Provider._cache p)
    ∧ Provider._planFiles p' = discovered env
    ∧ Provider._currentFile p' = Provider._currentFile p
    ∧ Provider._isInitialized p' = Provider._isInitialized p.
Proof.
  unfold Provider._discoverPlanFiles, discovered.
  destruct (Provider.workspaceFolder env) as [folder|]; run.
  - match goal with
    | |- context [Provider.logPlanFiles ?fs 0 ?q] =>
        destruct (logPlanFiles_spec fs 0 q) as (p' & -> & Hp')
    end.
    by exists p'.
  - by eexists.
Qed.

Lemma invalidate_map P (c : PlanCache.t Mtime) :
  PlanCache.cache (PlanCache.invalidate P c) = delete P (PlanCache.cache c).
Proof.
  unfold PlanCache.invalidate.
  destruct (PlanCache.cache c !! P) eqn:Hentry; [done|].
  by rewrite delete_id.
Qed.

(** [this._cache.invalidate(file.fsPath); await this._loadPlan(file)] *)
Lemma reload_spec (env : Provider.Environment Mtime) file
    (q : Provider.t Mtime) content :
  Provider.readFile env (Provider.fsPath file) = Returned content →
  ∃ plan p',
    parsePlan tokenize content (Provider.fsPath file) = Returned plan
    ∧ Provider._loadPlan tokenize env file
        (Provider.mkProvider (Provider._view q)
           (PlanCache.invalidate (Provider.fsPath file) (Provider._cache q))
           (Provider._planFiles q) (Provider._currentFile q)
           (Provider._isInitialized q))
      = (Returned tt, p')
    ∧ Provider._view p'
      = (λ posted,
           posted
           ++ [Provider.UpdatePlan plan;
               Provider.FileList
                 (Provider.fileList env (Provider._planFiles q) (Some file))])
          <$> Provider._view q
    ∧ Provider._currentFile p' = Some file
    ∧ Provider._planFiles p' = Provider._planFiles q
    ∧ PlanCache.cache (Provider._cache p')
      = match Provider.stat env (Provider.fsPath file) with
        | Returned T =>
            <[Provider.fsPath file := PlanCache.mkEntry T plan]>
              (PlanCache.cache (Provider._cache q))
        | Thrown _ =>
            delete (Provider.fsPath file) (PlanCache.cache (Provider._cache q))
        end.
Proof.
  intros Hread.
  match goal with
  | |- context [Provider._loadPlan tokenize env file ?q0] =>
      destruct (loadPlan_cases_lemma env file q0)
        as (p' & Hload & Hcurrent & Hfiles & _ & Hcases)
  end.
  unfold postedBy in Hcases.
  cbn [Provider._view Provider._cache Provider._planFiles] in *.
  rewrite invalidate_map in Hcases.
  destruct Hcases as [(entry & [Hentry _] & _)
                     |[(_ & content' & plan & Hread' & Hplan & Hposted & Hmap)
                      |(_ & error & Hread' & _)]].
  - by rewrite lookup_delete_eq in Hentry.
  - replace content' with content in * by congruence.
    exists plan, p'. do 5 (split; [done|]). rewrite Hmap.
    destruct (Provider.stat env _); [|done]. apply insert_delete_eq.
  - congruence.
Qed.

(** X24. [refreshView] never answers from the cache: with a current file,
    it reloads that file (or, when the file is no longer among the files
    found and others are, the first of them, which becomes the current
    file) after dropping its cache entry, so that the plan posted is the
    one parsed from the content read now, whatever the cache held. *)
Theorem refreshView_reparses (env : Provider.Environment Mtime)
    (p : Provider.t Mtime) current content :
  let target := refreshTarget (discovered env) current in
  Provider._currentFile p = Some current →
  Provider.readFile env (Provider.fsPath target) = Returned content →
  ∃ plan p',
    parsePlan tokenize content (Provider.fsPath target) = Returned plan
    ∧ Provider.refreshView tokenize env p = (Returned tt, p')
    ∧ postedBy p p'
        [Provider.UpdatePlan plan;
         Provider.FileList (Provider.fileList env (discovered env) (Some target))]
    ∧ Provider._currentFile p' = Some target
    ∧ Provider._planFiles p' = discovered env
    ∧ PlanCache.cache (Provider._cache p')
      = match Provider.stat env (Provider.fsPath target) with
        | Returned T =>
            <[Provider.fsPath target := PlanCache.mkEntry T plan]>
              (PlanCache.cache (Provider._cache p))
        | Thrown _ =>
            delete (Provider.fsPath target) (PlanCache.cache (Provider._cache p))
        end.
Proof.
  intros target Hcurrent Hread. unfold postedBy.
  unfold Provider.refreshView. run.
  match goal with
  | |- context [Provider._discoverPlanFiles env ?q] =>
      destruct (discoverPlanFiles_spec env q)
        as (q' & -> & Hview & Hmap & Hfiles & Hcur & Hinit)
  end.
  cbn [Provider._view Provider._cache Provider._planFiles Provider._currentFile
       Provider._isInitialized PlanCache.cache PlanCache.appendLine] in *.
  rewrite Hcur, Hcurrent, Hfiles.
  assert (∀ file (q : Provider.t Mtime),
             Provider.readFile env (Provider.fsPath file) = Returned content →
             Provider._view q = Provider._view p →
             PlanCache.cache (Provider._cache q)
             = PlanCache.cache (Provider._cache p) →
             Provider._planFiles q = discovered env →
             Provider._currentFile q = Some file →
             ∃ plan p',
               parsePlan tokenize content (Provider.fsPath file) = Returned plan
               ∧ Provider._loadPlan tokenize env file
                   (Provider.mkProvider (Provider._view q)
                      (PlanCache.invalidate (Provider.fsPath file)
                         (Provider._cache q))
                      (Provider._planFiles q) (Provider._currentFile q)
                      (Provider._isInitialized q))
                 = (Returned tt, p')
               ∧ Provider._view p'
                 = (λ posted,
                      posted
                      ++ [Provider.UpdatePlan plan;
                          Provider.FileList
                            (Provider.fileList env (discovered env) (Some file))])
                     <$> Provider._view p
               ∧ Provider._currentFile p' = Some file
               ∧ Provider._planFiles p' = discovered env
               ∧ PlanCache.cache (Provider._cache p')
                 = match Provider.stat env (Provider.fsPath file) with
                   | Returned T =>
                       <[Provider.fsPath file := PlanCache.mkEntry T plan]>
                         (PlanCache.cache (Provider._cache p))
                   | Thrown _ =>
                       delete (Provider.fsPath file)
                              (PlanCache.cache (Provider._cache p))
                   end) as Hreload.
  { intros file q Hread' Hv Hm Hf Hc.
    destruct (reload_spec env file q content Hread')
      as (plan & p' & Hplan & Hload & Hview' & Hcur' & Hfiles' & Hmap').
    exists plan, p'. rewrite Hv, Hf, Hm in *. done. }
  unfold target, refreshTarget in *. clear target.
  destruct (discovered env) as [|first rest] eqn:Hfound.
  - rewrite Hcur, Hcurrent.
    destruct (Hreload current q' Hread Hview Hmap Hfiles (eq_trans Hcur Hcurrent))
      as (plan & p' & Hplan & -> & Hview' & Hcur' & Hfiles' & Hmap').
    exists plan. eexists. split; [done|]. split; [reflexivity|].
    cbn [Provider._view Provider._cache Provider._planFiles
         Provider._currentFile PlanCache.cache PlanCache.appendLine].
    done.
  - destruct (existsb _ (first :: rest)); cbn [negb].
    + rewrite Hcur, Hcurrent.
      destruct (Hreload current q' Hread Hview Hmap Hfiles (eq_trans Hcur Hcurrent))
        as (plan & p' & Hplan & -> & Hview' & Hcur' & Hfiles' & Hmap').
      exists plan. eexists. split; [done|]. split; [reflexivity|].
      cbn [Provider._view Provider._cache Provider._planFiles
           Provider._currentFile PlanCache.cache PlanCache.appendLine].
      done.
    + cbn [Provider._currentFile].
      destruct (Hreload first
                  (Provider.mkProvider (Provider._view q')
                     (PlanCache.appendLine
                        (u "[PlanMonitor] Current file deleted, switching to first available")
                        (Provider._cache q'))
                     (Provider._planFiles q') (Some first)
                     (Provider._isInitialized q'))
                  Hread Hview Hmap Hfiles eq_refl)
        as (plan & p' & Hplan & Hload & Hview' & Hcur' & Hfiles' & Hmap').
      cbn [Provider._view Provider._cache Provider._planFiles
           Provider._currentFile Provider._isInitialized] in Hload.
      cbn [Provider._view Provider._cache Provider._planFiles
           Provider._currentFile Provider._isInitialized].
      rewrite Hload.
      exists plan. eexists. split; [done|]. split; [reflexivity|].
      cbn [Provider._view Provider._cache Provider._planFiles
           Provider._currentFile PlanCache.cache PlanCache.appendLine].
      done.
Qed.

End ProviderLaws.

Lemma loadPlan_hit_witness :
  ∃ p',
    Provider._loadPlan (λ _, [])
      (ProviderExamples.disk (Returned 7) (Thrown TypeError))
      ProviderExamples.planUri
      (ProviderExamples.withCache (ProviderExamples.cached 7 Examples.emptyPlan))
    = (Returned tt, p')
    ∧ postedBy
        (ProviderExamples.withCache (ProviderExamples.cached 7 Examples.emptyPlan))
        p'
        [Provider.UpdatePlan Examples.emptyPlan;
         Provider.FileList
           [Provider.mkFileEntry (u "/work/PLAN.md") (u "PLAN.md") true]]
    ∧ PlanCache.cache (Provider._cache p')
      = PlanCache.cache (ProviderExamples.cached 7 Examples.emptyPlan)
    ∧ Provider._currentFile p' = Some ProviderExamples.planUri.
Proof.
  exact (loadPlan_hit (λ _, [])
           (ProviderExamples.disk (Returned 7) (Thrown TypeError))
           ProviderExamples.planUri
           (ProviderExamples.withCache
              (ProviderExamples.cached 7 Examples.emptyPlan))
           (PlanCache.mkEntry 7 Examples.emptyPlan)
           (lookup_insert_eq _ _ _) eq_refl).
Defined.

Lemma loadPlan_miss_witness :
  ∃ plan p',
    parsePlan (λ _, []) (u "# Release plan") (u "/work/PLAN.md") = Returned plan
    ∧ Provider._loadPlan (λ _, [])
        (ProviderExamples.disk (Returned 2) (Returned (u "# Release plan")))
        ProviderExamples.planUri
        (ProviderExamples.withCache (ProviderExamples.cached 1 Examples.emptyPlan))
      = (Returned tt, p')
    ∧ postedBy
        (ProviderExamples.withCache (ProviderExamples.cached 1 Examples.emptyPlan))
        p'
        [Provider.UpdatePlan plan;
         Provider.FileList
           [Provider.mkFileEntry (u "/work/PLAN.md") (u "PLAN.md") true]]
    ∧ PlanCache.cache (Provider._cache p')
      = <[u "/work/PLAN.md" := PlanCache.mkEntry 2 plan]>
          (PlanCache.cache (ProviderExamples.cached 1 Examples.emptyPlan)).
Proof.
  apply (loadPlan_miss (λ _, [])
           (ProviderExamples.disk (Returned 2) (Returned (u "# Release plan")))
           ProviderExamples.planUri
           (ProviderExamples.withCache
              (ProviderExamples.cached 1 Examples.emptyPlan))
           (u "# Release plan")).
  - intros entry Hentry Hstat.
    cbn [ProviderExamples.withCache ProviderExamples.cached Provider._cache
         PlanCache.cache ProviderExamples.planUri Provider.fsPath] in Hentry.
    rewrite lookup_insert_eq in Hentry. injection Hentry as <-. discriminate.
  - reflexivity.
Defined.

Lemma loadPlan_read_failure_witness :
  ∃ p',
    Provider._loadPlan (λ _, [])
      (ProviderExamples.disk (Thrown (SystemError (u "ENOENT")))
                             (Thrown (SystemError (u "ENOENT"))))
      ProviderExamples.planUri
      (ProviderExamples.withCache PlanCache.new)
    = (Returned tt, p')
    ∧ postedBy (ProviderExamples.withCache PlanCache.new) p'
        [Provider.Error (u "Failed to load plan: ENOENT")]
    ∧ PlanCache.cache (Provider._cache p') = ∅
    ∧ Provider._currentFile p' = Some ProviderExamples.planUri.
Proof.
  apply (loadPlan_read_failure (λ _, [])
           (ProviderExamples.disk (Thrown (SystemError (u "ENOENT")))
                                  (Thrown (SystemError (u "ENOENT"))))
           ProviderExamples.planUri
           (ProviderExamples.withCache PlanCache.new)
           (SystemError (u "ENOENT"))).
  - intros entry Hentry.
    cbn [ProviderExamples.withCache Provider._cache PlanCache.new
         PlanCache.cache] in Hentry.
    by rewrite lookup_empty in Hentry.
  - reflexivity.
Defined.

Lemma loadPlan_twice_witness :
  ∃ plan p1 p2,
    Provider._loadPlan (λ _, [])
      (ProviderExamples.disk (Returned 2) (Returned (u "# Release plan")))
      ProviderExamples.planUri (ProviderExamples.withCache PlanCache.new)
    = (Returned tt, p1)
    ∧ Provider._loadPlan (λ _, [])
        (ProviderExamples.disk (Returned 2) (Returned (u "# Release plan")))
        ProviderExamples.planUri p1
      = (Returned tt, p2)
    ∧ PlanCache.cache (Provider._cache p1) !! u "/work/PLAN.md"
      = Some (PlanCache.mkEntry 2 plan)
    ∧ postedBy (ProviderExamples.withCache PlanCache.new) p1
        [Provider.UpdatePlan plan;
         Provider.FileList
           [Provider.mkFileEntry (u "/work/PLAN.md") (u "PLAN.md") true]]
    ∧ postedBy p1 p2
        [Provider.UpdatePlan plan;
         Provider.FileList
           [Provider.mkFileEntry (u "/work/PLAN.md") (u "PLAN.md") true]]
    ∧ PlanCache.cache (Provider._cache p2) = PlanCache.cache (Provider._cache p1).
Proof.
  exact (loadPlan_twice (λ _, [])
           (ProviderExamples.disk (Returned 2) (Returned (u "# Release plan")))
           ProviderExamples.planUri (ProviderExamples.withCache PlanCache.new)
           2 (u "# Release plan") eq_refl eq_refl).
Defined.

Lemma refreshView_reparses_witness :
  ∃ plan p',
    parsePlan (λ _, []) (u "# Release plan") (u "/work/PLAN.md") = Returned plan
    ∧ Provider.refreshView (λ _, [])
        (ProviderExamples.disk (Returned 7) (Returned (u "# Release plan")))
        (Provider.mkProvider (Some [])
           (ProviderExamples.cached 7 Examples.emptyPlan) []
           (Some (Provider.mkUri (u "/work/OLD.md"))) true)
      = (Returned tt, p')
    ∧ postedBy
        (Provider.mkProvider (Some [])
           (ProviderExamples.cached 7 Examples.emptyPlan) []
           (Some (Provider.mkUri (u "/work/OLD.md"))) true)
        p'
        [Provider.UpdatePlan plan;
         Provider.FileList
           [Provider.mkFileEntry (u "/work/PLAN.md") (u "PLAN.md") true]]
    ∧ Provider._currentFile p' = Some ProviderExamples.planUri
    ∧ Provider._planFiles p' = [ProviderExamples.planUri]
    ∧ PlanCache.cache (Provider._cache p')
      = <[u "/work/PLAN.md" := PlanCache.mkEntry 7 plan]>
          (PlanCache.cache (ProviderExamples.cached 7 Examples.emptyPlan)).
Proof.
  exact (refreshView_reparses (λ _, [])
           (ProviderExamples.disk (Returned 7) (Returned (u "# Release plan")))
           (Provider.mkProvider (Some [])
              (ProviderExamples.cached 7 Examples.emptyPlan) []
              (Some (Provider.mkUri (u "/work/OLD.md"))) true)
           (Provider.mkUri (u "/work/OLD.md")) (u "# Release plan")
           eq_refl eq_refl).
Defined.

(** ** The webview: what a checkbox shows *)

Lemma checkboxClass_parent item a :
  nonEmpty (children item) = true →
  aggregatedStatus item = Some a →
  checkboxClass item
  = match a with
    | AggregatedStatus.Done => u "checked"
    | AggregatedStatus.Partial => u "partial"
    | AggregatedStatus.Pending => u "unchecked"
    end.
Proof.
  intros Hne Ha. unfold checkboxClass. rewrite Hne, Ha.
  destruct (type item), a; by vm_compute.
Qed.

Lemma checkboxClass_leaf item :
  nonEmpty (children item) = false →
  type item = Task →
  checkboxClass item
  = match state item with
    | Some Done => u "checked"
    | Some InProgress => u "in-progress"
    | Some Blocked => u "blocked"
    | _ => u "unchecked"
    end.
Proof.
  intros Hne Hty. unfold checkboxClass. rewrite Hne, Hty.
  destruct (state item) as [[]|]; by vm_compute.
Qed.

(** X25. What the webview shows for the plan that [parsePlan] returns: the
    checkbox of an item with children, heading or task, shows the tasks
    below it and not the item's own state: checked exactly when all of
    them are Done, partial exactly when some but not all are, unchecked
    exactly when none is; the checkbox of an item without children shows
    the state of the task. *)
Theorem checkbox_shows_subtree
    (tokenize : Js.str → list Token) (content path : Js.str) :
  ∃ plan,
    parsePlan tokenize content path = Returned plan
    ∧ Forall
        (λ n,
           if nonEmpty (children n) then
             let ts := filter isTask (descendants n) in
             (checkboxClass n = u "checked"
              ↔ Forall (λ t, state t = Some Done) ts)
             ∧ (checkboxClass n = u "partial"
                ↔ Exists (λ t, state t = Some Done) ts
                  ∧ ¬ Forall (λ t, state t = Some Done) ts)
             ∧ (checkboxClass n = u "unchecked"
                ↔ ¬ Exists (λ t, state t = Some Done) ts)
           else
             checkboxClass n
             = match state n with
               | Some Done => u "checked"
               | Some InProgress => u "in-progress"
               | Some Blocked => u "blocked"
               | _ => u "unchecked"
               end)
        (allNodes (tasks plan)).
Proof.
  destruct (parsePlan_spec tokenize content path)
    as (flat & store & plan & _ & Hok & _ & Hplaced & Hplan & Htasks & _).
  exists plan. split; [done|]. rewrite Htasks.
  eapply Forall_impl; [by eapply parsed_status|].
  intros n Hn. cbn beta in *.
  destruct (nonEmpty (children n)) eqn:Hne.
  - destruct Hn as [Hsome Hstatus]. cbn zeta in *.
    rewrite (checkboxClass_parent n _ Hne Hstatus).
    set (ts := filter isTask (descendants n)).
    assert (ts ≠ []) as Hts.
    { intros Hnil. apply Exists_exists in Hsome as (t & Ht & Htask).
      assert (t ∈ ts) as Hin by (by apply list_elem_of_filter).
      rewrite Hnil in Hin. by apply not_elem_of_nil in Hin. }
    assert (Forall (λ t, state t = Some Done) ts →
            Exists (λ t, state t = Some Done) ts) as Hall_some.
    { destruct ts as [|t ts']; [done|]. intros [Ht _]%Forall_cons. by left. }
    clear Hstatus.
    destruct (bool_decide (Forall _ ts)) eqn:Hall;
      [apply bool_decide_eq_true in Hall
      |apply bool_decide_eq_false in Hall;
       destruct (bool_decide (Exists _ ts)) eqn:Hex;
       [apply bool_decide_eq_true in Hex | apply bool_decide_eq_false in Hex]].
    + split; [by split|]. split.
      * split; [by vm_compute | by intros [_ ?]].
      * split; [by vm_compute | intros Hno; by destruct Hno; apply Hall_some].
    + split; [split; [by vm_compute | done]|]. split; [by split|].
      split; [by vm_compute | done].
    + split; [split; [by vm_compute | done]|]. split.
      * split; [by vm_compute | by intros [? _]].
      * by split.
  - destruct Hn as [Hty _]. by apply checkboxClass_leaf.
Qed.

(** ** The provider: what a load leaves alone *)

(** X26. [_loadPlan] never throws, whatever the file system does; it
    makes the file the current file, leaves the list of plan files and
    the initialisation flag alone, posts nothing when there is no view,
    and changes the cache for no path but that of the file. *)
Theorem loadPlan_frame `{EqDecision Mtime}
    (tokenize : Js.str → list Token) (env : Provider.Environment Mtime)
    (uri : Provider.Uri) (p : Provider.t Mtime) :
  ∃ p',
    Provider._loadPlan tokenize env uri p = (Returned tt, p')
    ∧ Provider._currentFile p' = Some uri
    ∧ Provider._planFiles p' = Provider._planFiles p
    ∧ Provider._isInitialized p' = Provider._isInitialized p
    ∧ (Provider._view p = None → Provider._view p' = None)
    ∧ ∀ Q, Q ≠ Provider.fsPath uri →
           PlanCache.cache (Provider._cache p') !! Q
           = PlanCache.cache (Provider._cache p) !! Q.
Proof.
  destruct (loadPlan_cases_lemma tokenize env uri p)
    as (p' & Hload & Hcurrent & Hfiles & Hinit & Hcases).
  exists p'. do 4 (split; [done|]). unfold postedBy in Hcases.
  destruct Hcases as [(entry & _ & Hposted & Hmap)
                     |[(_ & content & plan & _ & _ & Hposted & Hmap)
                      |(_ & error & _ & Hposted & Hmap)]].
  - split; [intros Hview; by rewrite Hposted, Hview|]. intros Q _. by rewrite Hmap.
  - split; [intros Hview; by rewrite Hposted, Hview|]. intros Q HQ. rewrite Hmap.
    destruct (Provider.stat env _); [|done]. by rewrite lookup_insert_ne.
  - split; [intros Hview; by rewrite Hposted, Hview|]. intros Q _. by rewrite Hmap.
Qed.

(** ** The provider: initialisation *)

(** What the load that [_initialize] starts posts and caches, told from
    the provider [p] before the call: [q] is the provider when the load
    starts, [p1] when it ends. *)
Lemma initialize_load `{EqDecision Mtime}
    (tokenize : Js.str → list Token) (env : Provider.Environment Mtime)
    (first : Provider.Uri) (p q p1 : Provider.t Mtime) loading :
  Provider._view q = (λ posted, posted ++ [loading]) <$> Provider._view p →
  PlanCache.cache (Provider._cache q) = PlanCache.cache (Provider._cache p) →
  Provider._planFiles q = discovered env →
  Provider._loadPlan tokenize env first q = (Returned tt, p1) →
  let filePath := Provider.fsPath first in
  let map := PlanCache.cache (Provider._cache p) in
  let hit entry :=
    map !! filePath = Some entry
    ∧ Provider.stat env filePath = Returned (PlanCache.mtime entry) in
  let files := Provider.fileList env (discovered env) (Some first) in
  Provider._currentFile p1 = Some first
  ∧ Provider._planFiles p1 = discovered env
  ∧ ((∃ entry,
        hit entry
        ∧ postedBy p p1 [loading; Provider.UpdatePlan (PlanCache.parsed entry);
                         Provider.FileList files]
        ∧ PlanCache.cache (Provider._cache p1) = map)
     ∨ ((∀ entry, ¬ hit entry)
        ∧ ∃ content plan,
            Provider.readFile env filePath = Returned content
            ∧ parsePlan tokenize content filePath = Returned plan
            ∧ postedBy p p1 [loading; Provider.UpdatePlan plan;
                             Provider.FileList files]
            ∧ PlanCache.cache (Provider._cache p1)
              = match Provider.stat env filePath with
                | Returned T => <[filePath := PlanCache.mkEntry T plan]> map
                | Thrown _ => map
                end)
     ∨ ((∀ entry, ¬ hit entry)
        ∧ ∃ error,
            Provider.readFile env filePath = Thrown error
            ∧ postedBy p p1
                [loading;
                 Provider.Error (u "Failed to load plan: "
                                 ++ Provider.messageOf error)]
            ∧ PlanCache.cache (Provider._cache p1) = map)).
Proof.
  intros Hview Hmap Hfiles Hload filePath map hit files.
  destruct (loadPlan_cases_lemma tokenize env first q)
    as (p1' & Hload' & Hcurrent & Hfiles1 & _ & Hcases).
  rewrite Hload in Hload'. injection Hload' as <-.
  unfold postedBy in *. rewrite Hview, Hmap, Hfiles in Hcases.
  split; [done|]. split; [by rewrite Hfiles1|].
  assert (∀ messages,
             Provider._view p1
             = (λ posted, posted ++ messages)
                 <$> ((λ posted, posted ++ [loading]) <$> Provider._view p) →
             Provider._view p1
             = (λ posted, posted ++ loading :: messages) <$> Provider._view p)
    as Hshift.
  { intros messages ->. destruct (Provider._view p) as [posted|]; [|done].
    cbn. by rewrite <- app_assoc. }
  destruct Hcases as [(entry & Hhit & Hposted & Hmap1)
                     |[(Hmiss & content & plan & Hread & Hplan & Hposted & Hmap1)
                      |(Hmiss & error & Hread & Hposted & Hmap1)]].
  - left. exists entry. split; [done|]. split; [by apply Hshift | done].
  - right. left. split; [done|]. exists content, plan.
    split; [done|]. split; [done|]. split; [by apply Hshift | done].
  - right. right. split; [done|]. exists error.
    split; [done|]. split; [by apply Hshift | done].
Qed.

(** X27. [_initialize] always returns with the provider initialised: its
    [catch] never runs, since discovery and loading catch what they
    throw, so that a failed load is reported as a failed load and the
    flag is set all the same. On a provider that is initialised already
    it posts nothing and changes nothing but the log. Otherwise it posts
    the loading message first and then, when no file is found, the empty
    message; when files are found it runs [_loadPlan] on the first of
    them, on a provider [q] that has the cache map of the start, the
    files found and the loading message posted, and ends in the state
    [p1] of that load with the flag set and one more log line: what is
    posted after the loading message and what the cache holds are what
    that load posts and stores, namely the cached plan on a hit, the plan
    parsed from the content read on a miss (then stored under the
    timestamp of the file), and the error of the read otherwise. *)
Theorem initialize_sets_flag `{EqDecision Mtime}
    (tokenize : Js.str → list Token) (env : Provider.Environment Mtime)
    (p : Provider.t Mtime) :
  ∃ p',
    Provider._initialize tokenize env p = (Returned tt, p')
    ∧ Provider._isInitialized p' = true
    ∧ if Provider._isInitialized p then
        Provider._view p' = Provider._view p
        ∧ PlanCache.cache (Provider._cache p') = PlanCache.cache (Provider._cache p)
        ∧ Provider._planFiles p' = Provider._planFiles p
        ∧ Provider._currentFile p' = Provider._currentFile p
      else
        let loading := Provider.Loading (u "Discovering PLAN*.md files...") in
        Provider._planFiles p' = discovered env
        ∧ match discovered env with
          | [] =>
              postedBy p p'
                [loading; Provider.Empty (u "No PLAN*.md files found in workspace")]
              ∧ Provider._currentFile p' = Provider._currentFile p
              ∧ PlanCache.cache (Provider._cache p')
                = PlanCache.cache (Provider._cache p)
          | first :: _ =>
              let filePath := Provider.fsPath first in
              let map := PlanCache.cache (Provider._cache p) in
              let hit entry :=
                map !! filePath = Some entry
                ∧ Provider.stat env filePath = Returned (PlanCache.mtime entry) in
              let files :=
                Provider.fileList env (discovered env) (Some first) in
              (∃ q p1,
                  Provider._view q
                  = (λ posted, posted ++ [loading]) <$> Provider._view p
                  ∧ PlanCache.cache (Provider._cache q) = map
                  ∧ Provider._planFiles q = discovered env
                  ∧ Provider._currentFile q = Provider._currentFile p
                  ∧ Provider._loadPlan tokenize env first q = (Returned tt, p1)
                  ∧ p' = Provider.mkProvider
                           (Provider._view p1)
                           (PlanCache.appendLine
                              (u "[PlanMonitor] Initialization successful")
                              (Provider._cache p1))
                           (Provider._planFiles p1) (Provider._currentFile p1)
                           true)
              ∧ Provider._currentFile p' = Some first
              ∧ ((∃ entry,
                    hit entry
                    ∧ postedBy p p'
                        [loading; Provider.UpdatePlan (PlanCache.parsed entry);
                         Provider.FileList files]
                    ∧ PlanCache.cache (Provider._cache p') = map)
                 ∨ ((∀ entry, ¬ hit entry)
                    ∧ ∃ content plan,
                        Provider.readFile env filePath = Returned content
                        ∧ parsePlan tokenize content filePath = Returned plan
                        ∧ postedBy p p'
                            [loading; Provider.UpdatePlan plan;
                             Provider.FileList files]
                        ∧ PlanCache.cache (Provider._cache p')
                          = match Provider.stat env filePath with
                            | Returned T =>
                                <[filePath := PlanCache.mkEntry T plan]> map
                            | Thrown _ => map
                            end)
                 ∨ ((∀ entry, ¬ hit entry)
                    ∧ ∃ error,
                        Provider.readFile env filePath = Thrown error
                        ∧ postedBy p p'
                            [loading;
                             Provider.Error (u "Failed to load plan: "
                                             ++ Provider.messageOf error)]
                        ∧ PlanCache.cache (Provider._cache p') = map))
          end.
Proof.
  unfold Provider._initialize, Provider.bindM at 1, Provider.read at 1.
  destruct (Provider._isInitialized p) eqn:Hinit.
  { eexists. split; [reflexivity|]. by cbn. }
  cbn zeta.
  unfold Provider.bindM, Provider.tryCatchM, Provider.appendLine,
    Provider.read, Provider.setIsInitialized, Provider._postMessage,
    Provider.appendLine.
  cbn [Provider._view Provider._cache Provider._planFiles
       Provider._currentFile Provider._isInitialized].
  set (loading := Provider.Loading (u "Discovering PLAN*.md files...")).
  assert (∃ q0 : Provider.t Mtime,
             (match Provider._view p with
              | Some posted =>
                  (Returned tt,
                   Provider.mkProvider (Some (posted ++ [loading]))
                     (PlanCache.appendLine
                        (u "[PlanMonitor] Starting initialization...")
                        (Provider._cache p))
                     (Provider._planFiles p) (Provider._currentFile p)
                     (Provider._isInitialized p))
              | None =>
                  (Returned tt,
                   Provider.mkProvider (Provider._view p)
                     (PlanCache.appendLine
                        (u "[PlanMonitor] WARNING: Attempted to post message but view is not available")
                        (PlanCache.appendLine
                           (u "[PlanMonitor] Starting initialization...")
                           (Provider._cache p)))
                     (Provider._planFiles p) (Provider._currentFile p)
                     (Provider._isInitialized p))
              end) = (Returned tt, q0)
             ∧ Provider._view q0
               = (λ posted, posted ++ [loading]) <$> Provider._view p
             ∧ PlanCache.cache (Provider._cache q0)
               = PlanCache.cache (Provider._cache p)
             ∧ Provider._currentFile q0 = Provider._currentFile p)
    as (q0 & Hq0 & Hview0 & Hmap0 & Hcur0).
  { destruct (Provider._view p) as [posted|] eqn:Hview; by eexists. }
  rewrite Hq0.
  destruct (discoverPlanFiles_spec env q0)
    as (q' & -> & Hview' & Hmap' & Hfiles' & Hcur' & Hinit').
  cbn [Provider._view Provider._cache Provider._planFiles
       Provider._currentFile Provider._isInitialized].
  rewrite Hfiles'. destruct (discovered env) as [|first rest] eqn:Hfound.
  - rewrite Hview', Hview0.
    destruct (Provider._view p) as [posted|] eqn:Hview; cbn [fmap option_fmap option_map].
    + eexists. split; [reflexivity|]. unfold postedBy. cbn. rewrite Hview. cbn.
      split; [done|]. split; [done|]. split; [by rewrite <- app_assoc|].
      split; [by rewrite Hcur', Hcur0 | by rewrite Hmap', Hmap0].
    + eexists. split; [reflexivity|]. unfold postedBy. cbn. rewrite Hview. cbn.
      split; [done|]. split; [done|]. split; [done|].
      split; [by rewrite Hcur', Hcur0 | by rewrite Hmap', Hmap0].
  - match goal with
    | |- context [Provider._loadPlan tokenize env first ?st] =>
        set (q := st);
        destruct (loadPlan_cases_lemma tokenize env first q)
          as (p1 & Hload & _)
    end.
    rewrite Hload.
    assert (Provider._view q
            = (λ posted, posted ++ [loading]) <$> Provider._view p) as Hviewq
      by (unfold q; cbn; by rewrite Hview', Hview0).
    assert (PlanCache.cache (Provider._cache q)
            = PlanCache.cache (Provider._cache p)) as Hmapq
      by (unfold q; cbn; by rewrite Hmap', Hmap0).
    assert (Provider._planFiles q = discovered env) as Hfilesq
      by (unfold q; cbn; by rewrite Hfound).
    assert (Provider._currentFile q = Provider._currentFile p) as Hcurq
      by (unfold q; cbn; by rewrite Hcur', Hcur0).
    pose proof (initialize_load tokenize env first p q p1 loading
                  Hviewq Hmapq Hfilesq Hload) as (Hcur1 & Hfiles1 & Hcases).
    rewrite Hfound in Hfiles1, Hcases, Hfilesq.
    eexists. split; [reflexivity|].
    cbn [Provider._view Provider._cache Provider._planFiles
         Provider._currentFile Provider._isInitialized
         PlanCache.cache PlanCache.appendLine].
    split; [done|]. split; [done|]. split.
    { exists q, p1. by do 5 (split; [done|]). }
    split; [done|]. exact Hcases.
Qed.

(** ** The aggregator on any forest *)

Lemma aggregateItem_parents item :
  Forall (λ n, nonEmpty (children n) = true →
               aggregatedStatus n
               = Some (aggregateSpec (filter isTask (descendants n))))
         (nodes (aggregateItem item)).
Proof.
  induction item as [i ty tx st ag ln lv cs h IH] using HierarchyItem_forest_ind.
  rewrite aggregateItem_unfold. cbn [children].
  destruct (nonEmpty cs) eqn:Hne.
  - cbn zeta. rewrite nodes_unfold, Forall_cons. cbn [children aggregatedStatus].
    split.
    + intros _. f_equal.
      by rewrite <- collectDescendantTasks_descendants, <- statusOf_spec.
    + unfold allNodes, calculateAggregatedStatus. clear Hne.
      induction IH as [|c' cs' Hc _ IHcs]; [constructor|].
      rewrite fmap_cons, bind_cons, Forall_app. auto.
  - apply nonEmpty_false in Hne as ->. rewrite nodes_unfold. cbn [children].
    constructor; [|constructor]. by cbn.
Qed.

Lemma aggregateItem_idemp item :
  aggregateItem (aggregateItem item) = aggregateItem item.
Proof.
  induction item as [i ty tx st ag ln lv cs h IH] using HierarchyItem_forest_ind.
  rewrite (aggregateItem_unfold (mkItem i ty tx st ag ln lv cs h)).
  cbn [children id type text state line level hasTaskDescendants].
  destruct (nonEmpty cs) eqn:Hne; [|by rewrite aggregateItem_unfold; cbn; rewrite Hne].
  cbn zeta. rewrite aggregateItem_unfold.
  cbn [children id type text state line level hasTaskDescendants withChildren].
  assert (calculateAggregatedStatus (calculateAggregatedStatus cs)
          = calculateAggregatedStatus cs) as Hcs.
  { unfold calculateAggregatedStatus. clear Hne.
    induction IH as [|c' cs' Hc _ IHcs]; [done|].
    rewrite !fmap_cons. by rewrite Hc, IHcs. }
  rewrite Hcs.
  assert (nonEmpty (calculateAggregatedStatus cs) = true) as ->
    by (by destruct cs).
  done.
Qed.

(** X28. On any forest, also one that carries statuses already,
    [calculateAggregatedStatus] keeps the items, their order and the
    fields that the extractor wrote; gives every node with children the
    status of its descendant tasks, whatever status it had; and applied
    to its own result changes nothing. *)
Theorem aggregate_any_forest (items : list HierarchyItem) :
  let out := calculateAggregatedStatus items in
  core <$> allNodes out = core <$> allNodes items
  ∧ Forall (λ n, nonEmpty (children n) = true →
                 aggregatedStatus n
                 = Some (aggregateSpec (filter isTask (descendants n))))
           (allNodes out)
  ∧ calculateAggregatedStatus out = out.
Proof.
  cbn zeta. split; [apply cores_calculateAggregatedStatus|]. split.
  - unfold allNodes, calculateAggregatedStatus.
    induction items as [|c items IH]; [constructor|].
    rewrite fmap_cons, bind_cons, Forall_app.
    split; [apply aggregateItem_parents | exact IH].
  - unfold calculateAggregatedStatus.
    induction items as [|c items IH]; [done|].
    rewrite !fmap_cons. by rewrite aggregateItem_idemp, IH.
Qed.

(** ** Worked examples: levels and titles *)

(** ["## Work"], ["- [x] A"], ["  - [ ] B"], ["### Notes"], ["- plain"],
    ["## Later"], ["- [!] C"]: the tokens that emit an item, and the
    items with their levels. The sub-task [B] is built from the token at
    position 9, inside two lists under a heading of level 2. *)
Example nested_plan_levels :
  filter (emits Examples.nestedPlan) (seq 0 (length Examples.nestedPlan))
  = [0; 4; 9; 17; 27; 31]%nat
  ∧ match extractItems Examples.nestedPlan (u "PLAN.md") with
    | Returned flat =>
        (λ e, (Examples.textOf (text (f_item e)), type (f_item e), f_level e))
          <$> flat
    | Thrown _ => []
    end
    = [("Work"%string, Heading, 2); ("A"%string, Task, 3);
       ("B"%string, Task, 4); ("Notes"%string, Heading, 3);
       ("Later"%string, Heading, 2); ("C"%string, Task, 3)].
Proof. split; by vm_compute. Qed.

(** A first line that holds a heading marker alone. *)
Example untitled_plan :
  match parsePlan (λ _, []) (u "##  " ++ 10%N :: u "- [ ] first") (u "PLAN.md") with
  | Returned plan => title plan
  | Thrown _ => []
  end
  = u "Untitled Plan".
Proof. by vm_compute. Qed.
